(** * SmartFolio: the quantitative core of the portfolio analyser

    A shallow embedding of [lib/finance.ts] (the finance math library),
    of [alignPriceData] from [lib/yahoo.ts] and of the part of
    [app/api/analyzePortfolio/route.ts] that fills the nullable fields
    of [PortfolioMetrics], followed by the properties the specification
    states about them.

    Numbers.  A TypeScript [number] is modelled as a real number of the
    Standard Library: arithmetic is exact, [Math.log], [Math.exp] and
    [Math.sqrt] are [ln], [exp] and [sqrt].  [NaN], the infinities and
    rounding error are outside this model; every division the theorems
    talk about has a divisor that is shown or assumed non-zero.

    Where rounding decides a property, the value path and the drawdown
    series are embedded twice more: in module [Rounded] every
    arithmetic result passes through a rounding function, and in module
    [F64] a [number] is an IEEE 754 binary64 value with the operations
    of the Standard Library's [SpecFloat].

    Containers.  An array is a [list]; a [Map] that is only read with
    [get] / [has] is a [gmap]; a [Map] that is iterated is an
    association list in insertion order. *)

From Stdlib Require Import Reals Lra Lia ZArith Zfloor.
From Stdlib Require SpecFloat.
From stdpp Require Import base list gmap strings sorting.

#[global] Instance Rlt_decision : RelDecision Rlt := Rlt_dec.
#[global] Instance Rgt_decision : RelDecision Rgt := Rgt_dec.
#[global] Instance Rle_decision : RelDecision Rle := Rle_dec.
#[global] Instance Rge_decision : RelDecision Rge := Rge_dec.
#[global] Instance Req_decision : EqDecision R := Req_dec_T.
#[global] Instance R_inhabited : Inhabited R := populate 0%R.

(** ** The JavaScript idioms the sources use *)

Module Js.

(** [for (let i = lo; i < hi; i++) body], threading the variables the
    body assigns as the state [s]. *)
Definition for_range {T : Type} (lo hi : nat) (body : nat → T → T) (s : T) : T :=
  foldl (λ s i, body i s) s (seq lo (hi - lo)).

(** [for (const x of xs) body]. *)
Definition for_of {A T : Type} (xs : list A) (body : A → T → T) (s : T) : T :=
  foldl (λ s x, body x s) s xs.

(** [xs.push(x)]. *)
Definition push {A : Type} (xs : list A) (x : A) : list A := xs ++ [x].

(** [Math.round]: the nearest integer, a tie going up. *)
Definition Math_round (x : R) : R := IZR (Zfloor (x + / 2)).

(** [Math.min(m, k)] where [m] starts as [Infinity] ([None]). *)
Definition min_inf (m : option nat) (k : nat) : option nat :=
  match m with
  | None => Some k
  | Some m => Some (Nat.min m k)
  end.

End Js.

(** ** lib/types.ts *)

Record HealthScoreComponents := {
  diversificationScore : R;
  volatilityScore : R;
  drawdownScore : R;
  sharpeScore : R
}.

Record PortfolioMetrics := {
  expectedAnnualReturn : R;
  annualVolatility : R;
  sharpeRatio : option R;          (* number | null *)
  maxDrawdown : R;
  diversificationHHI : R;
  pm_diversificationScore : R;     (* diversificationScore *)
  topHoldingWeight : R;
  healthScore : R;
  var95 : option R;                (* var95?: number *)
  numHoldings : nat
}.

(** [HistoricalData]: the date is kept as its [getTime()] value. *)
Record HistoricalData := {
  date : Z;
  adjClose : R
}.

(** The dates of the time series are the strings the route makes of
    the [Date] values. *)
Record TimeSeriesData := {
  ts_dates : list string;
  portfolioValues : list R;
  drawdowns : list R
}.

Record ParsedHolding := {
  ticker : string;
  weight : R
}.

#[global] Instance ParsedHolding_inhabited : Inhabited ParsedHolding :=
  populate {| ticker := ""; weight := 0%R |}.

Record QuoteSummary := {
  qs_ticker : string;
  qs_name : option string;
  qs_sector : option string;
  qs_industry : option string
}.

Record HoldingMetric := {
  hm_ticker : string;
  hm_weight : R;
  hm_sector : option string;
  hm_industry : option string;
  hm_name : option string;
  annualReturn : option R;
  annualVol : option R
}.

Record SectorAllocation := {
  sector : string;
  sa_weight : R
}.

(** ** lib/finance.ts *)

Module Finance.
Import Js.
Local Open Scope R_scope.

Definition TRADING_DAYS_PER_YEAR : R := 252.
Definition RISK_FREE_RATE : R := 0.04.
Definition Z_SCORE_95 : R := 1.645.

Definition calculateLogReturns (prices : list R) : list R :=
  if decide (length prices < 2)%nat then []
  else
    for_range 1 (length prices) (λ i returns,
      if decide (prices !!! (i - 1)%nat > 0 ∧ prices !!! i > 0)
      then push returns (ln (prices !!! i / prices !!! (i - 1)%nat))
      else returns) [].

Definition mean (values : list R) : R :=
  if decide (length values = 0%nat) then 0
  else foldl (λ sum v, sum + v) 0 values / INR (length values).

Definition covariance (returns1 returns2 : list R) : R :=
  let n := Nat.min (length returns1) (length returns2) in
  if decide (n < 2)%nat then 0
  else
    let mean1 := mean (take n returns1) in
    let mean2 := mean (take n returns2) in
    let sum :=
      for_range 0 n (λ i sum,
        sum + (returns1 !!! i - mean1) * (returns2 !!! i - mean2)) 0 in
    sum / (INR n - 1).

(** [matrix[i][j] = x] *)
Definition matrix_set (matrix : list (list R)) (i j : nat) (x : R) : list (list R) :=
  <[i := <[j := x]> (matrix !!! i)]> matrix.

Definition buildCovarianceMatrix
    (returnsMatrix : gmap string (list R)) (tickers : list string) : list (list R) :=
  let n := length tickers in
  let matrix := replicate n (replicate n 0) in
  for_range 0 n (λ i matrix,
    for_range 0 n (λ j matrix,
      let returns1 := default [] (returnsMatrix !! (tickers !!! i)) in
      let returns2 := default [] (returnsMatrix !! (tickers !!! j)) in
      let dailyCov := covariance returns1 returns2 in
      matrix_set matrix i j (dailyCov * TRADING_DAYS_PER_YEAR)) matrix) matrix.

(** The third argument is optional in the source: [None] is a call
    that leaves it out. *)
Definition calculateSharpeRatio
    (portfolioReturn portfolioVol : R) (riskFreeRate : option R) : option R :=
  let riskFreeRate := default RISK_FREE_RATE riskFreeRate in
  if decide (portfolioVol = 0) then None
  else Some ((portfolioReturn - riskFreeRate) / portfolioVol).

(** In exact arithmetic.  The same loop with every result rounded is
    [Rounded.simulatePortfolioValues], and on binary64 values
    [F64.simulatePortfolioValues]: there [Math.exp(ret) - 1] can round
    to -1 and [Math.exp] can overflow. *)
Definition simulatePortfolioValues
    (portfolioReturns : list R) (initialValue : option R) : list R :=
  let initialValue := default 1 initialValue in
  for_of portfolioReturns (λ ret values,
    let simpleReturn := exp ret - 1 in
    push values (values !!! (length values - 1)%nat * (1 + simpleReturn)))
    [initialValue].

(** One turn of the loop of [calculateDrawdownSeries] on the pair
    ([runningMax], [drawdowns]). *)
Definition drawdown_body (value : R) (st : R * list R) : R * list R :=
  let runningMax := if decide (value > st.1) then value else st.1 in
  let drawdown := value / runningMax - 1 in
  (runningMax, push st.2 drawdown).

Definition calculateDrawdownSeries (values : list R) : list R :=
  if decide (length values = 0%nat) then []
  else (for_of values drawdown_body (values !!! 0%nat, [])).2.

Definition calculateVaR95
    (portfolioVolatility portfolioValue : R) (horizonDays : option R) : R :=
  let horizonDays := default 1 horizonDays in
  let dailyVol := portfolioVolatility / sqrt TRADING_DAYS_PER_YEAR in
  let horizonVol := dailyVol * sqrt horizonDays in
  Z_SCORE_95 * horizonVol * portfolioValue.

Definition calculateHealthComponents
    (diversificationScore annualVolatility maxDrawdown : R)
    (sharpeRatio : option R) : HealthScoreComponents :=
  let divScore := diversificationScore in
  let volScore :=
    if decide (annualVolatility <= 0.1) then 100
    else if decide (annualVolatility >= 0.5) then 0
    else 100 - ((annualVolatility - 0.1) / 0.4) * 100 in
  let absDrawdown := Rabs maxDrawdown in
  let ddScore :=
    if decide (absDrawdown <= 0) then 100
    else if decide (absDrawdown >= 0.5) then 0
    else 100 - (absDrawdown / 0.5) * 100 in
  let sharpeScore :=
    match sharpeRatio with
    | None => 50
    | Some sharpeRatio =>
        if decide (sharpeRatio < 0) then Rmax 0 (20 + sharpeRatio * 20)
        else if decide (sharpeRatio >= 2) then 100
        else 40 + (sharpeRatio / 2) * 60
    end in
  {| diversificationScore := Rmax 0 (Rmin 100 divScore);
     volatilityScore := Rmax 0 (Rmin 100 volScore);
     drawdownScore := Rmax 0 (Rmin 100 ddScore);
     sharpeScore := Rmax 0 (Rmin 100 sharpeScore) |}.

Definition calculateHealthScore (components : HealthScoreComponents) : R :=
  let w_diversification := 0.3 in
  let w_volatility := 0.2 in
  let w_drawdown := 0.2 in
  let w_sharpe := 0.3 in
  let score :=
    w_diversification * components.(diversificationScore) +
    w_volatility * components.(volatilityScore) +
    w_drawdown * components.(drawdownScore) +
    w_sharpe * components.(sharpeScore) in
  Math_round (Rmax 0 (Rmin 100 score)).

(** The first loop of [calculatePortfolioDailyReturns]; [None] is
    the initial [Infinity]. *)
Definition minLength_of
    (returnsMatrix : gmap string (list R)) (tickers : list string) : option nat :=
  for_of tickers (λ ticker minLength,
    match returnsMatrix !! ticker with
    | Some returns => min_inf minLength (length returns)
    | None => minLength
    end) None.

(** The inner loop: the portfolio return of day [i]. *)
Definition dailyReturn_at
    (returnsMatrix : gmap string (list R)) (weights : gmap string R)
    (tickers : list string) (i : nat) : R :=
  for_of tickers (λ ticker dailyReturn,
    let returns := returnsMatrix !! ticker in
    let weight := default 0 (weights !! ticker) in
    match returns with
    | Some returns =>
        match returns !! i with
        | Some r => dailyReturn + weight * r
        | None => dailyReturn
        end
    | None => dailyReturn
    end) 0.

Definition calculatePortfolioDailyReturns
    (returnsMatrix : gmap string (list R)) (weights : gmap string R)
    (tickers : list string) : list R :=
  match minLength_of returnsMatrix tickers with
  | None => []
  | Some O => []
  | Some minLength =>
      for_range 0 minLength (λ i portfolioReturns,
        push portfolioReturns (dailyReturn_at returnsMatrix weights tickers i)) []
  end.

(** *** The rest of the library *)

Definition stdDev (values : list R) : R :=
  if decide (length values < 2)%nat then 0
  else
    let avg := mean values in
    let squaredDiffs := (λ v, (v - avg) ^ 2) <$> values in
    let variance :=
      foldl (λ sum v, sum + v) 0 squaredDiffs / (INR (length values) - 1) in
    sqrt variance.

Definition annualizeReturn (dailyReturn : R) : R :=
  dailyReturn * TRADING_DAYS_PER_YEAR.

Definition annualizeVolatility (dailyVol : R) : R :=
  dailyVol * sqrt TRADING_DAYS_PER_YEAR.

(** The source checks the number of rows only; a row shorter than the
    weight vector would make it read [undefined].  The reads below are
    inside the matrix whenever every row is as long as the weight
    vector, which the properties about this function assume. *)
Definition calculatePortfolioVolatility
    (weights : list R) (covMatrix : list (list R)) : R :=
  let n := length weights in
  if decide (n = 0%nat ∨ length covMatrix ≠ n) then 0
  else
    let portfolioVariance :=
      for_range 0 n (λ i portfolioVariance,
        for_range 0 n (λ j portfolioVariance,
          portfolioVariance
          + weights !!! i * weights !!! j * ((covMatrix !!! i) !!! j))
          portfolioVariance) 0 in
    let portfolioVariance :=
      if decide (portfolioVariance < 0) then 0 else portfolioVariance in
    sqrt portfolioVariance.

Definition calculatePortfolioReturn (weights assetReturns : list R) : R :=
  if decide (length weights ≠ length assetReturns) then 0
  else
    for_range 0 (length weights) (λ i portfolioReturn,
      portfolioReturn + weights !!! i * assetReturns !!! i) 0.

(** [Math.min(...drawdowns)] is reached with a non-empty list only. *)
Definition calculateMaxDrawdown (values : list R) : R :=
  match calculateDrawdownSeries values with
  | [] => 0
  | drawdown :: drawdowns => foldl Rmin drawdown drawdowns
  end.

Definition calculateHHI (weights : list R) : R :=
  foldl (λ sum w, sum + w * w) 0 weights.

Definition calculateDiversificationScore (weights : list R) : R :=
  let n := length weights in
  if decide (n ≤ 1)%nat then 0
  else
    let hhi := calculateHHI weights in
    let minHHI := 1 / INR n in
    let score := ((1 - hhi) / (1 - minHHI)) * 100 in
    Rmax 0 (Rmin 100 score).

(** [n] is a count of holdings, a natural number; [None] is a call
    that leaves it out.  [sort((a, b) => b - a)] orders the weights from
    the largest down. *)
Definition topNWeight (weights : list R) (n : option nat) : R :=
  let n := default 1%nat n in
  let sorted := merge_sort Rge weights in
  foldl (λ sum w, sum + w) 0 (take n sorted).

End Finance.

(** ** lib/yahoo.ts *)

Module Yahoo.
Import Js.

(** The input [Map<string, HistoricalData[]>] is iterated, so it is
    the list of its entries in insertion order; a well-formed [Map]
    has no key twice. *)
Abbreviation PricesMap := (list (string * list HistoricalData)).

Definition keys (pricesMap : PricesMap) : list string := pricesMap.*1.

Definition wf (pricesMap : PricesMap) : Prop := NoDup (keys pricesMap).

(** [pricesMap.get(ticker)] *)
Fixpoint get (pricesMap : PricesMap) (ticker : string) : option (list HistoricalData) :=
  match pricesMap with
  | [] => None
  | (k, data) :: rest => if decide (k = ticker) then Some data else get rest ticker
  end.

Record AlignedData := {
  dates : list Z;
  alignedPrices : gmap string (list R)
}.

(** The [date -> price] map of one ticker. *)
Definition dateMap_of (data : list HistoricalData) : gmap Z R :=
  for_of data (λ point dateMap, <[point.(date) := point.(adjClose)]> dateMap) ∅.

Definition dateMaps_of (pricesMap : PricesMap) : gmap string (gmap Z R) :=
  for_of pricesMap (λ entry dateMaps,
    <[entry.1 := dateMap_of entry.2]> dateMaps) ∅.

(** The inner loop over the tickers, which leaves at the first ticker
    that lacks the date. *)
Fixpoint allHave (dateMaps : gmap string (gmap Z R)) (dateTime : Z)
    (tickers : list string) : bool :=
  match tickers with
  | [] => true
  | ticker :: rest =>
      match dateMaps !! ticker with
      | Some dateMap =>
          if decide (is_Some (dateMap !! dateTime))
          then allHave dateMaps dateTime rest
          else false
      | None => false
      end
  end.

Definition commonDates_of (dateMaps : gmap string (gmap Z R))
    (tickers : list string) (firstData : list HistoricalData) : list Z :=
  for_of firstData (λ point commonDates,
    let dateTime := point.(date) in
    if allHave dateMaps dateTime tickers
    then push commonDates point.(date)
    else commonDates) [].

Definition alignPriceData (pricesMap : PricesMap) : AlignedData :=
  let tickers := keys pricesMap in
  if decide (length tickers = 0) then {| dates := []; alignedPrices := ∅ |}
  else
    let dateMaps := dateMaps_of pricesMap in
    let firstTicker := tickers !!! 0 in
    let firstData := default [] (get pricesMap firstTicker) in
    let commonDates := commonDates_of dateMaps tickers firstData in
    let commonDates := merge_sort Z.le commonDates in
    let alignedPrices :=
      for_of tickers (λ ticker alignedPrices,
        let dateMap := dateMaps !!! ticker in
        let prices :=
          for_of commonDates (λ date prices, push prices (dateMap !!! date)) [] in
        <[ticker := prices]> alignedPrices) ∅ in
    {| dates := commonDates; alignedPrices := alignedPrices |}.

End Yahoo.

(** ** app/api/analyzePortfolio/route.ts *)

Module Route.
Import Finance.

(** Steps 6, 9, 10 and 13 of [POST]: from the portfolio figures
    already computed to the [PortfolioMetrics] record of the
    response. *)
Definition portfolioMetrics
    (portfolioReturn portfolioVol maxDrawdown hhi diversificationScore topWeight : R)
    (portfolioValue : R) (numValidTickers : nat) : PortfolioMetrics :=
  let sharpeRatio := calculateSharpeRatio portfolioReturn portfolioVol None in
  let var95 := calculateVaR95 portfolioVol portfolioValue (Some 1%R) in
  let healthComponents :=
    calculateHealthComponents diversificationScore portfolioVol maxDrawdown sharpeRatio in
  let healthScore := calculateHealthScore healthComponents in
  {| expectedAnnualReturn := portfolioReturn;
     annualVolatility := portfolioVol;
     sharpeRatio := sharpeRatio;
     maxDrawdown := maxDrawdown;
     diversificationHHI := hhi;
     pm_diversificationScore := diversificationScore;
     topHoldingWeight := topWeight;
     healthScore := healthScore;
     var95 := Some var95;
     numHoldings := numValidTickers |}.

(** *** The computation of [POST] between the fetch and the diagnosis

    What the handler computes from the fetched prices.  The request
    parsing, the two fetches and the diagnosis text are input and output
    and are left out, and so are the [details] strings of the error
    responses; the holdings and sector lists of steps 11 and 12 follow
    on their own below. *)

Inductive Response :=
| ErrorResponse (status : nat) (error : string)
| AnalysisResponse (portfolio : PortfolioMetrics) (timeseries : TimeSeriesData).

(** "Recalculate weights for valid tickers only" *)
Definition adjustedWeights_of
    (weightsMap : gmap string R) (validTickers : list string) : gmap string R :=
  let totalValidWeight :=
    foldl (λ sum t, sum + default 0 (weightsMap !! t))%R 0%R validTickers in
  Js.for_of validTickers (λ ticker adjustedWeights,
    <[ticker := (default 0 (weightsMap !! ticker) / totalValidWeight)%R]>
      adjustedWeights) ∅.

(** Step 5: the loop fills [returnsMatrix], [assetAnnualReturns] and
    [assetAnnualVols]. *)
Definition assetStats
    (alignedPrices : gmap string (list R)) (validTickers : list string)
    : gmap string (list R) * list R * list R :=
  Js.for_of validTickers (λ ticker st,
    let prices := default [] (alignedPrices !! ticker) in
    let returns := calculateLogReturns prices in
    let returnsMatrix := <[ticker := returns]> st.1.1 in
    let dailyMean := mean returns in
    let dailyStd := stdDev returns in
    (returnsMatrix,
     Js.push st.1.2 (annualizeReturn dailyMean),
     Js.push st.2 (annualizeVolatility dailyStd))) (∅, [], []).

(** [isoDate] stands for [d.toISOString().split("T")[0]]. *)
Definition analyzePrices (isoDate : Z → string)
    (weightsMap : gmap string R) (pricesMap : Yahoo.PricesMap)
    (portfolioValue : R) : Response :=
  let validTickers := Yahoo.keys pricesMap in
  if decide (length validTickers = 0)
  then ErrorResponse 400 "Could not fetch data for any of the provided tickers"
  else
    let adjustedWeights := adjustedWeights_of weightsMap validTickers in
    let aligned := Yahoo.alignPriceData pricesMap in
    let dates := aligned.(Yahoo.dates) in
    let alignedPrices := aligned.(Yahoo.alignedPrices) in
    if decide (length dates < 20)
    then ErrorResponse 400 "Insufficient historical data"
    else
      let stats := assetStats alignedPrices validTickers in
      let returnsMatrix := stats.1.1 in
      let assetAnnualReturns := stats.1.2 in
      let weights := (λ t, default 0%R (adjustedWeights !! t)) <$> validTickers in
      let covMatrix := buildCovarianceMatrix returnsMatrix validTickers in
      let portfolioVol := calculatePortfolioVolatility weights covMatrix in
      let portfolioReturn := calculatePortfolioReturn weights assetAnnualReturns in
      let portfolioDailyReturns :=
        calculatePortfolioDailyReturns returnsMatrix adjustedWeights validTickers in
      let portfolioValues := simulatePortfolioValues portfolioDailyReturns (Some 1%R) in
      let drawdowns := calculateDrawdownSeries portfolioValues in
      let maxDrawdown := calculateMaxDrawdown portfolioValues in
      let hhi := calculateHHI weights in
      let diversificationScore := calculateDiversificationScore weights in
      let topWeight := topNWeight weights (Some 1) in
      let portfolioMetrics :=
        portfolioMetrics portfolioReturn portfolioVol maxDrawdown hhi
          diversificationScore topWeight portfolioValue (length validTickers) in
      let returnDates := drop 1 dates in
      AnalysisResponse portfolioMetrics
        {| ts_dates := isoDate <$> returnDates;
           portfolioValues := drop 1 portfolioValues;
           drawdowns := drop 1 drawdowns |}.

(** *** Steps 11 and 12: the holdings and the sector allocations *)

(** Step 11.  [metadataMap] is only read by key; an index past the end
    of [assetAnnualReturns] or [assetAnnualVols] reads [undefined]
    ([None]). *)
Definition holdingsMetrics_of
    (validTickers : list string) (adjustedWeights : gmap string R)
    (metadataMap : gmap string QuoteSummary)
    (assetAnnualReturns assetAnnualVols : list R) : list HoldingMetric :=
  imap (λ i ticker,
    let metadata := metadataMap !! ticker in
    {| hm_ticker := ticker;
       hm_weight := default 0%R (adjustedWeights !! ticker);
       hm_sector := metadata ≫= qs_sector;
       hm_industry := metadata ≫= qs_industry;
       hm_name := metadata ≫= qs_name;
       annualReturn := assetAnnualReturns !! i;
       annualVol := assetAnnualVols !! i |}) validTickers.

(** [holding.sector || "Unknown"]: a missing and an empty sector are
    both falsy. *)
Definition sector_or_unknown (holding : HoldingMetric) : string :=
  match holding.(hm_sector) with
  | Some s => if decide (s = EmptyString) then "Unknown" else s
  | None => "Unknown"
  end.

(** [sectorMap] is iterated by [entries()], so it is the list of its
    entries in insertion order: [set] on a key already there keeps its
    place. *)
Fixpoint sectorMap_get (sectorMap : list (string * R)) (sector : string) : option R :=
  match sectorMap with
  | [] => None
  | (k, w) :: rest => if decide (k = sector) then Some w else sectorMap_get rest sector
  end.

Fixpoint sectorMap_set (sectorMap : list (string * R)) (sector : string) (weight : R)
    : list (string * R) :=
  match sectorMap with
  | [] => [(sector, weight)]
  | (k, w) :: rest =>
      if decide (k = sector) then (k, weight) :: rest
      else (k, w) :: sectorMap_set rest sector weight
  end.

Definition sectorMap_of (holdingsMetrics : list HoldingMetric) : list (string * R) :=
  Js.for_of holdingsMetrics (λ holding sectorMap,
    let sector := sector_or_unknown holding in
    sectorMap_set sectorMap sector
      (default 0 (sectorMap_get sectorMap sector) + holding.(hm_weight))%R) [].

(** The comparator [(a, b) => b.weight - a.weight] puts [a] first when
    its weight is the larger. *)
Definition by_weight_descending (a b : SectorAllocation) : Prop :=
  (a.(sa_weight) >= b.(sa_weight))%R.

#[global] Instance by_weight_descending_dec : RelDecision by_weight_descending :=
  λ a b, Rge_dec a.(sa_weight) b.(sa_weight).

(** Step 12. *)
Definition sectors_of (holdingsMetrics : list HoldingMetric) : list SectorAllocation :=
  merge_sort by_weight_descending
    ((λ entry, {| sector := entry.1; sa_weight := entry.2 |})
       <$> sectorMap_of holdingsMetrics).

End Route.

(** ** lib/parser.ts *)

Module Parser.

(** What [parseLine] does with one line: a holding, [null] for a line
    that is empty once its comment is removed, or a thrown error.  The
    regular expression and [parseFloat] of [parseLine] are not modelled:
    [parseHoldingsLines] takes the function as an argument. *)
Inductive LineOutcome :=
| Parsed (holding : ParsedHolding)
| Blank
| Invalid.

Inductive ParseResult :=
| Holdings (holdings : list ParsedHolding)
| NoHoldingsProvided
| NoValidHoldings
| WeightsDoNotSum.

(** [holdings.findIndex((h) => h.ticker === t)], [None] for -1. *)
Fixpoint findIndex (holdings : list ParsedHolding) (t : string) : option nat :=
  match holdings with
  | [] => None
  | h :: rest =>
      if decide (h.(ticker) = t) then Some 0
      else S <$> findIndex rest t
  end.

(** The loop over the lines: a ticker seen before has the new weight
    added to its entry, a new one is pushed. *)
Definition collect (parseLine : string → LineOutcome) (lines : list string)
    : list ParsedHolding :=
  Js.for_of lines (λ line holdings,
    match parseLine line with
    | Parsed parsed =>
        match findIndex holdings parsed.(ticker) with
        | Some existingIdx =>
            let existing := holdings !!! existingIdx in
            <[existingIdx := {| ticker := existing.(ticker);
                                weight := (existing.(weight) + parsed.(weight))%R |}]>
              holdings
        | None => Js.push holdings parsed
        end
    | Blank => holdings
    | Invalid => holdings
    end) [].

Definition totalWeight (holdings : list ParsedHolding) : R :=
  foldl (λ sum h, sum + h.(weight))%R 0%R holdings.

(** [parseHoldingsText] from the point where the text has been split
    into its trimmed, non-empty lines. *)
Definition parseHoldingsLines (parseLine : string → LineOutcome)
    (lines : list string) : ParseResult :=
  if decide (length lines = 0) then NoHoldingsProvided
  else
    let holdings := collect parseLine lines in
    if decide (length holdings = 0) then NoValidHoldings
    else
      let total := totalWeight holdings in
      let holdings :=
        if decide (total <= 0)%R
        then
          let equalWeight := (1 / INR (length holdings))%R in
          (λ h, {| ticker := h.(ticker); weight := equalWeight |}) <$> holdings
        else
          (λ h, {| ticker := h.(ticker); weight := (h.(weight) / total)%R |})
            <$> holdings in
      let finalSum := totalWeight holdings in
      if decide (Rabs (finalSum - 1) > 0.001)%R then WeightsDoNotSum
      else Holdings holdings.

End Parser.

(** ** The value path and the drawdown series with rounding *)

Module Rounded.
Import Js.
Local Open Scope R_scope.

Section rounded.
(** [rnd] is the rounding of the exact result of an operation to a
    [number], [Math_exp] is what [Math.exp] returns.  An operation that
    overflows has no real result: the model covers the runs in which
    none does. *)
Variable rnd : R → R.
Variable Math_exp : R → R.

Definition simulatePortfolioValues
    (portfolioReturns : list R) (initialValue : option R) : list R :=
  let initialValue := default 1 initialValue in
  for_of portfolioReturns (λ ret values,
    let simpleReturn := rnd (Math_exp ret - 1) in
    push values (rnd (values !!! (length values - 1)%nat * rnd (1 + simpleReturn))))
    [initialValue].

Definition drawdown_body (value : R) (st : R * list R) : R * list R :=
  let runningMax := if decide (value > st.1) then value else st.1 in
  let drawdown := rnd (rnd (value / runningMax) - 1) in
  (runningMax, push st.2 drawdown).

Definition calculateDrawdownSeries (values : list R) : list R :=
  if decide (length values = 0%nat) then []
  else (for_of values drawdown_body (values !!! 0%nat, [])).2.

(** The loop variables [runningMax] and [drawdowns] after [k] turns. *)
Definition drawdown_state (values : list R) (k : nat) : R * list R :=
  for_of (take k values) drawdown_body (values !!! 0%nat, []).

End rounded.

End Rounded.

(** ** The value path and the drawdown series in binary64 *)

Module F64.
Import Js.

Definition prec : Z := 53.
Definition emax : Z := 1024.

Abbreviation number := SpecFloat.spec_float.

#[global] Instance number_inhabited : Inhabited number :=
  populate (SpecFloat.S754_zero false).

Definition add : number → number → number := SpecFloat.SFadd prec emax.
Definition sub : number → number → number := SpecFloat.SFsub prec emax.
Definition mul : number → number → number := SpecFloat.SFmul prec emax.
Definition div : number → number → number := SpecFloat.SFdiv prec emax.

(** [x > y] *)
Definition gt (x y : number) : bool := SpecFloat.SFltb y x.

(** The [number] of an integer literal. *)
Definition of_Z (z : Z) : number := SpecFloat.binary_normalize prec emax z 0 false.

(** [Math_exp] is what [Math.exp] returns. *)
Definition simulatePortfolioValues (Math_exp : number → number)
    (portfolioReturns : list number) (initialValue : option number) : list number :=
  let initialValue := default (of_Z 1) initialValue in
  for_of portfolioReturns (λ ret values,
    let simpleReturn := sub (Math_exp ret) (of_Z 1) in
    push values (mul (values !!! (length values - 1)%nat) (add (of_Z 1) simpleReturn)))
    [initialValue].

Definition drawdown_body (value : number) (st : number * list number)
    : number * list number :=
  let runningMax := if gt value st.1 then value else st.1 in
  let drawdown := sub (div value runningMax) (of_Z 1) in
  (runningMax, push st.2 drawdown).

Definition calculateDrawdownSeries (values : list number) : list number :=
  if decide (length values = 0%nat) then []
  else (for_of values drawdown_body (values !!! 0%nat, [])).2.

End F64.

(** ** The vocabulary of the specification *)

Module Spec.
Local Open Scope R_scope.

(** A sum taken from left to right. *)
Definition Rsum (xs : list R) : R := foldl Rplus 0 xs.

(** "clamped to [lo, hi]" *)
Definition clamp (lo hi x : R) : R :=
  if decide (x < lo) then lo else if decide (hi < x) then hi else x.

(** "[z] is a nearest integer to [x]" *)
Definition nearest_integer (z : Z) (x : R) : Prop :=
  ∀ z' : Z, Rabs (x - IZR z) <= Rabs (x - IZR z').

(** The steps [i = 1 .. n-1] of a price list, the ones that are kept
    and the ones that are skipped. *)
Definition steps (prices : list R) : list nat := seq 1 (length prices - 1).

Definition step_ok (prices : list R) (i : nat) : Prop :=
  prices !!! (i - 1)%nat > 0 ∧ prices !!! i > 0.

#[global] Instance step_ok_dec prices i : Decision (step_ok prices i) :=
  and_dec (Rgt_dec (prices !!! (i - 1)%nat) 0) (Rgt_dec (prices !!! i) 0).

Definition skipped (prices : list R) : list nat :=
  filter (λ i, ¬ step_ok prices i) (steps prices).

Definition log_return (prices : list R) (i : nat) : R :=
  ln (prices !!! i / prices !!! (i - 1)%nat).

(** Sample covariance of two series of the same length, with
    Bessel's correction. *)
Definition arithmetic_mean (xs : list R) : R := Rsum xs / INR (length xs).

Definition sample_covariance (xs ys : list R) : R :=
  Rsum (zip_with (λ x y, (x - arithmetic_mean xs) * (y - arithmetic_mean ys)) xs ys)
  / (INR (length xs) - 1).

(** Cell [(i, j)] of a matrix, [None] outside it. *)
Definition cell (M : list (list R)) (i j : nat) : option R :=
  M !! i ≫= λ row, row !! j.

(** What ticker [t] adds to the portfolio return of day [i]. *)
Definition contribution (returnsMatrix : gmap string (list R))
    (weights : gmap string R) (i : nat) (t : string) : R :=
  match returnsMatrix !! t with
  | Some returns =>
      match returns !! i with
      | Some r => default 0 (weights !! t) * r
      | None => 0
      end
  | None => 0
  end.

(** The lengths of the series of the listed tickers that have one. *)
Definition series_lengths (returnsMatrix : gmap string (list R))
    (tickers : list string) : list nat :=
  omap (λ t, length <$> returnsMatrix !! t) tickers.

(** The least element, [0] for no element. *)
Definition minimum (ks : list nat) : nat :=
  match ks with
  | [] => 0
  | k :: ks => foldl Nat.min k ks
  end.

(** The running maximum of [values] once index [i] has been seen. *)
Definition running_max (values : list R) (i : nat) : R :=
  foldl Rmax (values !!! 0%nat) (take (S i) values).

(** "a new running maximum" at index [i]: the value there is greater
    than every value before it. *)
Definition new_high (values : list R) (i : nat) : Prop :=
  ∀ j w v, (j < i)%nat → values !! j = Some w → values !! i = Some v → w < v.

(** The pair ([runningMax], [drawdowns]) that the loop of
    [calculateDrawdownSeries] holds after its first [k] turns. *)
Definition drawdown_state (values : list R) (k : nat) : R * list R :=
  Js.for_of (take k values) Finance.drawdown_body (values !!! 0%nat, []).

(** The quadratic form w' M w over the first [length weights] rows and
    columns. *)
Definition quadratic_form (weights : list R) (covMatrix : list (list R)) : R :=
  Rsum ((λ i,
    Rsum ((λ j, weights !!! i * weights !!! j * ((covMatrix !!! i) !!! j))
          <$> seq 0 (length weights)))
    <$> seq 0 (length weights)).

(** The dates of every ticker, prices dropped. *)
Definition date_lists (pricesMap : Yahoo.PricesMap) : list (string * list Z) :=
  (λ entry : string * list HistoricalData, (entry.1, date <$> entry.2)) <$> pricesMap.

(** The dates of the first ticker that every ticker has, ascending. *)
Definition common_dates (dls : list (string * list Z)) : list Z :=
  match dls with
  | [] => []
  | first :: _ =>
      merge_sort Z.le (filter (λ d, Forall (λ e, d ∈ e.2) dls) first.2)
  end.

End Spec.

(** * Properties *)

(** ** Loops *)

Section loops.
Import Js.
Context {A T : Type}.

Lemma for_of_nil (body : A → T → T) s : for_of [] body s = s.
Proof. reflexivity. Qed.

Lemma for_of_cons (body : A → T → T) x xs s :
  for_of (x :: xs) body s = for_of xs body (body x s).
Proof. reflexivity. Qed.

Lemma for_of_snoc (body : A → T → T) x xs s :
  for_of (xs ++ [x]) body s = body x (for_of xs body s).
Proof. unfold for_of. by rewrite foldl_snoc. Qed.

Lemma for_range_of lo hi (body : nat → T → T) s :
  for_range lo hi body s = for_of (seq lo (hi - lo)) body s.
Proof. reflexivity. Qed.

Lemma for_range_done lo (body : nat → T → T) s : for_range lo lo body s = s.
Proof. unfold for_range. by rewrite Nat.sub_diag. Qed.

Lemma for_range_S lo hi (body : nat → T → T) s :
  lo ≤ hi → for_range lo (S hi) body s = body hi (for_range lo hi body s).
Proof.
  intros Hle. unfold for_range.
  replace (S hi - lo) with (S (hi - lo)) by lia.
  rewrite seq_S, foldl_snoc. by replace (lo + (hi - lo)) with hi by lia.
Qed.
End loops.

Section push_loops.
Import Js.
Context {A B : Type}.

(** A loop that pushes one element per turn is a [map]. *)
Lemma for_of_push_fmap (f : A → B) xs acc :
  for_of xs (λ x out, push out (f x)) acc = acc ++ (f <$> xs).
Proof.
  revert acc. induction xs as [|x xs IH]; intros acc.
  - by rewrite for_of_nil, app_nil_r.
  - rewrite for_of_cons, IH. unfold push. by rewrite <- app_assoc.
Qed.

(** A loop that pushes under a test is a [filter] then a [map]. *)
Lemma for_of_push_filter (P : A → Prop) `{!∀ x, Decision (P x)} (f : A → B) xs acc :
  for_of xs (λ x out, if decide (P x) then push out (f x) else out) acc
  = acc ++ (f <$> filter P xs).
Proof.
  revert acc. induction xs as [|x xs IH]; intros acc.
  - by rewrite for_of_nil, app_nil_r.
  - rewrite for_of_cons, IH, filter_cons. case_decide; [|done].
    unfold push. by rewrite <- app_assoc.
Qed.
End push_loops.

(** ** Rounding and clamping *)

Section rounding.
Import Js.
Local Open Scope R_scope.

Lemma Rmax_Rmin_clamp (lo hi x : R) :
  lo <= hi → Rmax lo (Rmin hi x) = Spec.clamp lo hi x.
Proof.
  intros Hle. unfold Spec.clamp, Rmax, Rmin.
  repeat case_decide; repeat destruct (Rle_dec _ _); lra.
Qed.

Lemma clamp_bounds (lo hi x : R) : lo <= hi → lo <= Spec.clamp lo hi x <= hi.
Proof. intros Hle. unfold Spec.clamp. repeat case_decide; lra. Qed.

Lemma Math_round_bound (x : R) : x - / 2 < Math_round x <= x + / 2.
Proof.
  unfold Math_round. destruct (Zfloor_bound (x + / 2)) as [Hlo Hhi]. lra.
Qed.

Lemma Math_round_nearest (x : R) : Spec.nearest_integer (Zfloor (x + / 2)) x.
Proof.
  intros z'. pose proof (Math_round_bound x) as Hb. unfold Math_round in Hb.
  set (z := Zfloor (x + / 2)) in *.
  destruct (Z_lt_le_dec z' z) as [Hlt|Hge].
  - assert (IZR z' <= IZR z - 1) by (rewrite <- minus_IZR; apply IZR_le; lia).
    unfold Rabs. repeat destruct (Rcase_abs _); lra.
  - destruct (Z.eq_dec z' z) as [->|Hne]; [lra|].
    assert (IZR z + 1 <= IZR z') by (rewrite <- plus_IZR; apply IZR_le; lia).
    unfold Rabs. repeat destruct (Rcase_abs _); lra.
Qed.

Lemma Math_round_range (x : R) (lo hi : Z) :
  IZR lo <= x <= IZR hi → (lo ≤ Zfloor (x + / 2) ≤ hi)%Z.
Proof.
  intros [Hlo Hhi]. pose proof (Math_round_bound x) as Hb. unfold Math_round in Hb.
  split.
  - apply Zfloor_lub. lra.
  - apply Z.lt_succ_r, lt_IZR. rewrite succ_IZR. lra.
Qed.
End rounding.

(** ** Sharpe ratio, value at risk and the health score *)

Section ratios.
Import Js Finance.
Local Open Scope R_scope.

(** The divisor of [calculateVaR95] is not 0. *)
Lemma sqrt_TRADING_DAYS_PER_YEAR_pos : 0 < sqrt TRADING_DAYS_PER_YEAR.
Proof. apply sqrt_lt_R0. unfold TRADING_DAYS_PER_YEAR. lra. Qed.

Lemma calculateVaR95_zero_vol (portfolioValue : R) (horizonDays : option R) :
  calculateVaR95 0 portfolioValue horizonDays = 0.
Proof. unfold calculateVaR95. cbv zeta. unfold Rdiv. lra. Qed.

Example calculateSharpeRatio_zero_return_zero_vol :
  calculateSharpeRatio 0 0 None = None.
Proof. unfold calculateSharpeRatio. by rewrite decide_True. Qed.

Example calculateSharpeRatio_example :
  calculateSharpeRatio 0.1 0.2 None = Some 0.3.
Proof.
  unfold calculateSharpeRatio, RISK_FREE_RATE. simpl.
  rewrite decide_False by lra. f_equal. lra.
Qed.

Lemma calculateHealthComponents_range
    (divScore annualVol maxDD : R) (sharpe : option R) :
  let c := calculateHealthComponents divScore annualVol maxDD sharpe in
  0 <= c.(diversificationScore) <= 100 ∧
  0 <= c.(volatilityScore) <= 100 ∧
  0 <= c.(drawdownScore) <= 100 ∧
  0 <= c.(sharpeScore) <= 100.
Proof.
  unfold calculateHealthComponents. simpl.
  repeat split; rewrite Rmax_Rmin_clamp by lra; apply clamp_bounds; lra.
Qed.

Example calculateHealthScore_example :
  calculateHealthScore
    {| diversificationScore := 100; volatilityScore := 60;
       drawdownScore := 80; sharpeScore := 70 |} = 79.
Proof.
  unfold calculateHealthScore, Math_round. simpl. f_equal.
  apply Zfloor_eq. rewrite Rmax_Rmin_clamp by lra. unfold Spec.clamp.
  repeat case_decide; lra.
Qed.

(** A tie goes up: a weighted sum of 50.5 gives 51. *)
Example calculateHealthScore_tie :
  calculateHealthScore
    {| diversificationScore := 50; volatilityScore := 52.5;
       drawdownScore := 50; sharpeScore := 50 |} = 51.
Proof.
  unfold calculateHealthScore, Math_round. simpl. f_equal.
  apply Zfloor_eq. rewrite Rmax_Rmin_clamp by lra. unfold Spec.clamp.
  repeat case_decide; lra.
Qed.
End ratios.

(** C3.  [calculateSharpeRatio r v], called without a risk-free rate,
    is [null] exactly when the volatility [v] is 0, whatever the return
    [r]; for every other [v] it is [(r - 0.04) / v]. *)
Theorem calculateSharpeRatio_null_iff_zero_vol (r v : R) :
  (Finance.calculateSharpeRatio r v None = None ↔ v = 0%R) ∧
  (v ≠ 0%R → Finance.calculateSharpeRatio r v None = Some ((r - 0.04) / v)%R).
Proof.
  unfold Finance.calculateSharpeRatio, Finance.RISK_FREE_RATE. simpl.
  case_decide; split; try done; by intros [].
Qed.

Lemma calculateSharpeRatio_null_iff_zero_vol_witness :
  Finance.calculateSharpeRatio 0.1 0.2 None = Some ((0.1 - 0.04) / 0.2)%R.
Proof.
  apply (calculateSharpeRatio_null_iff_zero_vol 0.1 0.2). lra.
Defined.

(** C9.  [calculateHealthScore] is the weighted sum 0.30 x
    diversification + 0.20 x volatility + 0.20 x drawdown + 0.30 x Sharpe,
    clamped to [0, 100] and rounded to a nearest integer; the result is
    an integer between 0 and 100. *)
Theorem calculateHealthScore_weighted_clamped_rounded (c : HealthScoreComponents) :
  let score :=
    (0.30 * c.(diversificationScore) + 0.20 * c.(volatilityScore) +
     0.20 * c.(drawdownScore) + 0.30 * c.(sharpeScore))%R in
  ∃ z : Z,
    Finance.calculateHealthScore c = IZR z ∧
    (0 ≤ z ≤ 100)%Z ∧
    Spec.nearest_integer z (Spec.clamp 0 100 score).
Proof.
  intros score. unfold Finance.calculateHealthScore. cbv zeta.
  rewrite Rmax_Rmin_clamp by lra.
  replace (0.3 * diversificationScore c + 0.2 * volatilityScore c +
           0.2 * drawdownScore c + 0.3 * sharpeScore c)%R with score
    by (unfold score; lra).
  exists (Zfloor (Spec.clamp 0 100 score + / 2)). split; [done|]. split.
  - apply Math_round_range. apply clamp_bounds. lra.
  - apply Math_round_nearest.
Qed.

(** C2, as stated, fails: with portfolio volatility 0 the Sharpe ratio
    is [null], but the value at risk is the number 0, not [null]:
    [calculateVaR95] returns a [number] and the route stores it as is. *)
Lemma zero_volatility_var95_not_null :
  Finance.calculateVaR95 0 10000 (Some 1%R) = 0%R ∧
  var95 (Route.portfolioMetrics 0.08 0 (-0.1) 0.5 80 0.6 10000 2) ≠ None.
Proof. split; [apply calculateVaR95_zero_vol | done]. Qed.

(** C2, amended.  Zero portfolio volatility is a valid state and no
    division fails: the Sharpe ratio of the metrics is [null], and the
    value at risk is the number 0 for every portfolio value and every
    horizon that is not negative, both from [calculateVaR95] and in the
    [var95] field of the metrics. *)
Theorem zero_volatility_sharpe_null_var95_zero
    (portfolioReturn maxDrawdown hhi diversificationScore topWeight : R)
    (portfolioValue horizonDays : R) (numValidTickers : nat) :
  (0 <= horizonDays)%R →
  let metrics :=
    Route.portfolioMetrics portfolioReturn 0 maxDrawdown hhi
      diversificationScore topWeight portfolioValue numValidTickers in
  sharpeRatio metrics = None ∧
  var95 metrics = Some 0%R ∧
  Finance.calculateVaR95 0 portfolioValue (Some horizonDays) = 0%R ∧
  Finance.calculateVaR95 0 portfolioValue None = 0%R.
Proof.
  intros _ metrics. unfold metrics, Route.portfolioMetrics. simpl.
  rewrite !calculateVaR95_zero_vol.
  unfold Finance.calculateSharpeRatio. simpl. by rewrite decide_True.
Qed.

Lemma zero_volatility_sharpe_null_var95_zero_witness :
  sharpeRatio (Route.portfolioMetrics 0.08 0 (-0.1) 0.5 80 0.6 10000 2) = None ∧
  var95 (Route.portfolioMetrics 0.08 0 (-0.1) 0.5 80 0.6 10000 2) = Some 0%R.
Proof.
  assert (0 <= 1)%R as H by lra.
  pose proof (zero_volatility_sharpe_null_var95_zero
                0.08 (-0.1) 0.5 80 0.6 10000 1 2 H) as (Hs & Hv & _).
  exact (conj Hs Hv).
Defined.

(** ** Log returns *)

Section log_returns.
Import Js Finance.
Local Open Scope R_scope.

Lemma length_filter_complement {A} (P : A → Prop) `{!∀ x, Decision (P x)} (l : list A) :
  (length (filter P l) + length (filter (λ x, ¬ P x) l) = length l)%nat.
Proof.
  induction l as [|x l IH]; [done|].
  rewrite !filter_cons. destruct (decide (P x)).
  - rewrite decide_False by tauto. simpl. lia.
  - rewrite decide_True by done. simpl. lia.
Qed.

(** A step is skipped when one of its two prices is not positive. *)
Lemma not_step_ok (prices : list R) (i : nat) :
  ¬ Spec.step_ok prices i ↔ prices !!! (i - 1)%nat <= 0 ∨ prices !!! i <= 0.
Proof. unfold Spec.step_ok. split; [|intros [?|?] [? ?]]; lra. Qed.

Lemma calculateLogReturns_short (prices : list R) :
  (length prices < 2)%nat → calculateLogReturns prices = [].
Proof. intros Hlt. unfold calculateLogReturns. by rewrite decide_True. Qed.

Lemma calculateLogReturns_steps (prices : list R) :
  (2 ≤ length prices)%nat →
  calculateLogReturns prices
  = Spec.log_return prices <$> filter (Spec.step_ok prices) (Spec.steps prices).
Proof.
  intros Hge. unfold calculateLogReturns. rewrite decide_False by lia.
  rewrite for_range_of.
  exact (for_of_push_filter (Spec.step_ok prices) (Spec.log_return prices) _ []).
Qed.

Lemma filter_none {A} (P : A → Prop) `{!∀ x, Decision (P x)} (l : list A) :
  (∀ x, x ∈ l → ¬ P x) → filter P l = [].
Proof.
  induction l as [|x l IH]; intros Hall; [done|].
  rewrite filter_cons, decide_False by (apply Hall; left).
  apply IH. intros y Hy. apply Hall. by right.
Qed.

Lemma lookup_total_elem_of (prices : list R) (i : nat) :
  (i < length prices)%nat → prices !!! i ∈ prices.
Proof.
  intros Hlt. apply list_elem_of_lookup. exists i.
  by apply list_lookup_lookup_total_lt.
Qed.

Lemma all_positive_no_skip (prices : list R) :
  (∀ p, p ∈ prices → 0 < p) → Spec.skipped prices = [].
Proof.
  intros Hpos. unfold Spec.skipped, Spec.steps.
  apply filter_none. intros i [Hlo Hhi]%elem_of_seq Hbad. apply Hbad.
  split; apply Rlt_gt, Hpos, lookup_total_elem_of; lia.
Qed.

Lemma calculateLogReturns_length (prices : list R) :
  (2 ≤ length prices)%nat →
  length (calculateLogReturns prices)
  = (length prices - 1 - length (Spec.skipped prices))%nat.
Proof.
  intros Hge. rewrite calculateLogReturns_steps by done.
  rewrite length_fmap. unfold Spec.skipped.
  pose proof (length_filter_complement (Spec.step_ok prices) (Spec.steps prices)) as Hc.
  assert (length (Spec.steps prices) = (length prices - 1)%nat) as Hs
    by (unfold Spec.steps; apply length_seq).
  lia.
Qed.

Example calculateLogReturns_scenario :
  calculateLogReturns [100; 102; 101; 105]
  = [ln (102 / 100); ln (101 / 102); ln (105 / 101)].
Proof.
  unfold calculateLogReturns, for_range, push. simpl.
  repeat (rewrite decide_True by (split; lra)). done.
Qed.

(** A price that is not positive takes away the two steps next to it. *)
Example calculateLogReturns_skips :
  calculateLogReturns [100; 0; 101; 105] = [ln (105 / 101)].
Proof.
  unfold calculateLogReturns, for_range, push. simpl.
  repeat first [ rewrite decide_True by (split; lra)
               | rewrite decide_False by (intros [? ?]; lra) ].
  done.
Qed.
End log_returns.

(** C4.  [calculateLogReturns] returns the empty list for fewer than
    two prices; otherwise it returns, in order, ln(prices[i] /
    prices[i-1]) for the steps i = 1 .. n-1 whose two prices are both
    positive and skips the other steps, so its length is n - 1 minus the
    number of skipped steps, and n - 1 when every price is positive. *)
Theorem calculateLogReturns_spec (prices : list R) :
  (length prices < 2 → Finance.calculateLogReturns prices = []) ∧
  (2 ≤ length prices →
     Finance.calculateLogReturns prices
     = Spec.log_return prices <$> filter (Spec.step_ok prices) (Spec.steps prices) ∧
     length (Finance.calculateLogReturns prices)
     = length prices - 1 - length (Spec.skipped prices) ∧
     ((∀ p, p ∈ prices → (0 < p)%R) →
        length (Finance.calculateLogReturns prices) = length prices - 1)).
Proof.
  split; [apply calculateLogReturns_short|].
  intros Hge. split; [by apply calculateLogReturns_steps|].
  split; [by apply calculateLogReturns_length|].
  intros Hpos. rewrite calculateLogReturns_length by done.
  rewrite all_positive_no_skip by done. simpl. lia.
Qed.

Lemma calculateLogReturns_spec_witness :
  length (Finance.calculateLogReturns [100; 102; 101; 105]%R) = 3.
Proof.
  assert (2 ≤ length [100; 102; 101; 105]%R) as Hge by (simpl; lia).
  destruct (calculateLogReturns_spec [100; 102; 101; 105]%R) as [_ Hlong].
  destruct (Hlong Hge) as (_ & _ & Hall).
  apply Hall. intros p Hp.
  repeat (apply elem_of_cons in Hp as [->|Hp]; [lra|]).
  by apply elem_of_nil in Hp.
Defined.

(** ** Value path and drawdown *)

Section drawdown.
Import Js Finance.
Local Open Scope R_scope.

(** Evaluate one [Rmax] of two numbers that [lra] can compare. *)
Ltac Rmax_eval :=
  match goal with
  | |- context [Rmax ?a ?b] =>
      first [ rewrite (Rmax_left a b) by lra | rewrite (Rmax_right a b) by lra ]
  end.

Lemma foldl_Rmax_ge_init (m : R) (l : list R) : m <= foldl Rmax m l.
Proof.
  revert m. induction l as [|x l IH]; intros m; simpl; [lra|].
  etrans; [apply (Rmax_l m x)|apply IH].
Qed.

Lemma foldl_Rmax_ge (m : R) (l : list R) (x : R) : x ∈ l → x <= foldl Rmax m l.
Proof.
  revert m. induction l as [|y l IH]; intros m Hx; [by apply elem_of_nil in Hx|].
  apply elem_of_cons in Hx as [->|Hx]; simpl.
  - etrans; [apply (Rmax_r m y)|apply foldl_Rmax_ge_init].
  - by apply IH.
Qed.

Lemma foldl_Rmax_attained (m : R) (l : list R) :
  foldl Rmax m l = m ∨ foldl Rmax m l ∈ l.
Proof.
  revert m. induction l as [|y l IH]; intros m; simpl; [by left|].
  destruct (IH (Rmax m y)) as [Heq|Hin]; [|by right; right].
  rewrite Heq. unfold Rmax. destruct (Rle_dec m y); [right; left|by left].
Qed.

Lemma drawdown_body_Rmax (v m : R) (acc : list R) :
  drawdown_body v (m, acc) = (Rmax m v, acc ++ [v / Rmax m v - 1]).
Proof.
  unfold drawdown_body, push. simpl.
  assert ((if decide (v > m) then v else m) = Rmax m v) as ->; [|done].
  unfold Rmax. case_decide; destruct (Rle_dec m v); lra.
Qed.

Lemma drawdown_loop (values : list R) (m : R) (acc : list R) :
  for_of values drawdown_body (m, acc)
  = (foldl Rmax m values,
     acc ++ imap (λ i v, v / foldl Rmax m (take (S i) values) - 1) values).
Proof.
  revert m acc. induction values as [|v values IH]; intros m acc.
  - rewrite for_of_nil. simpl. by rewrite app_nil_r.
  - rewrite for_of_cons, drawdown_body_Rmax, IH. simpl.
    by rewrite <- app_assoc.
Qed.

Lemma calculateDrawdownSeries_imap (values : list R) :
  calculateDrawdownSeries values
  = imap (λ i v, v / Spec.running_max values i - 1) values.
Proof.
  unfold calculateDrawdownSeries. case_decide as Hlen.
  - by destruct values.
  - by rewrite drawdown_loop.
Qed.

Lemma calculateDrawdownSeries_length (values : list R) :
  length (calculateDrawdownSeries values) = length values.
Proof. by rewrite calculateDrawdownSeries_imap, length_imap. Qed.

Lemma calculateDrawdownSeries_lookup (values : list R) (i : nat) :
  calculateDrawdownSeries values !! i
  = (λ v, v / Spec.running_max values i - 1) <$> values !! i.
Proof. by rewrite calculateDrawdownSeries_imap, list_lookup_imap. Qed.

Lemma drawdown_state_runningMax (values : list R) (k : nat) :
  (Spec.drawdown_state values k).1 = foldl Rmax (values !!! 0%nat) (take k values).
Proof. unfold Spec.drawdown_state. by rewrite drawdown_loop. Qed.

Lemma drawdown_state_end (values : list R) :
  values ≠ [] →
  (Spec.drawdown_state values (length values)).2 = calculateDrawdownSeries values.
Proof.
  intros Hne. unfold Spec.drawdown_state, calculateDrawdownSeries.
  rewrite take_ge by done. rewrite decide_False; [done|].
  by destruct values.
Qed.

Lemma running_max_ge (values : list R) (i j : nat) (w : R) :
  (j ≤ i)%nat → values !! j = Some w → w <= Spec.running_max values i.
Proof.
  intros Hji Hw. apply foldl_Rmax_ge, list_elem_of_lookup. exists j.
  rewrite lookup_take_lt by lia. done.
Qed.

Lemma running_max_attained (values : list R) (i : nat) :
  (i < length values)%nat →
  ∃ j, (j ≤ i)%nat ∧ values !! j = Some (Spec.running_max values i).
Proof.
  intros Hi. unfold Spec.running_max.
  destruct (foldl_Rmax_attained (values !!! 0%nat) (take (S i) values)) as [->|Hin].
  - exists 0%nat. split; [lia|]. apply list_lookup_lookup_total_lt. lia.
  - apply list_elem_of_lookup in Hin as [j Hj].
    apply lookup_take_Some in Hj as [Hj Hlt]. exists j. split; [lia|done].
Qed.

Lemma running_max_pos (values : list R) (i : nat) :
  (∀ v, v ∈ values → 0 < v) → (i < length values)%nat →
  0 < Spec.running_max values i.
Proof.
  intros Hpos Hi. destruct (running_max_attained values i Hi) as (j & _ & Hj).
  apply Hpos, list_elem_of_lookup. by exists j.
Qed.

Example calculateDrawdownSeries_scenario :
  calculateDrawdownSeries [1; 1.1; 0.9; 1.2] = [0; 0; 0.9 / 1.1 - 1; 0].
Proof.
  rewrite calculateDrawdownSeries_imap. unfold Spec.running_max. simpl.
  repeat Rmax_eval. repeat f_equal; lra.
Qed.

(** A value that comes back to an earlier peak is at the running
    maximum, and its drawdown is 0 as well. *)
Example calculateDrawdownSeries_back_to_peak :
  calculateDrawdownSeries [2; 1; 2] = [0; -0.5; 0].
Proof.
  rewrite calculateDrawdownSeries_imap. unfold Spec.running_max. simpl.
  repeat Rmax_eval. repeat f_equal; lra.
Qed.
End drawdown.

(** C6, as stated, fails: the drawdown is 0 at an index that is no new
    running maximum.  In [2, 1, 2] the last value only comes back to
    the peak of index 0, and in the flat path [1, 1] the second value
    ties the first; both have drawdown 0. *)
Lemma drawdown_zero_without_new_high :
  Finance.calculateDrawdownSeries [2; 1; 2]%R !! 2 = Some 0%R ∧
  ¬ Spec.new_high [2; 1; 2]%R 2 ∧
  Finance.calculateDrawdownSeries [1; 1]%R !! 1 = Some 0%R ∧
  ¬ Spec.new_high [1; 1]%R 1.
Proof.
  split; [by rewrite calculateDrawdownSeries_back_to_peak|].
  split; [intros Hnew; specialize (Hnew 0 2%R 2%R); simpl in Hnew;
          assert (2 < 2)%R by (apply Hnew; [lia|done..]); lra|].
  split.
  - rewrite calculateDrawdownSeries_lookup. unfold Spec.running_max. simpl.
    f_equal. unfold Rmax. repeat destruct (Rle_dec _ _); lra.
  - intros Hnew. specialize (Hnew 0 1%R 1%R). simpl in Hnew.
    assert (1 < 1)%R by (apply Hnew; [lia|done..]). lra.
Qed.

(** C6, amended.  For a non-empty list of positive values,
    [calculateDrawdownSeries] returns a list of the same length, every
    entry is at most 0, and the entry at index [i] is 0 exactly when the
    value at [i] is the running maximum there, that is when no value up
    to [i] is greater: at every new running maximum (index 0 is one),
    and also where the value comes back to the earlier peak. *)
Theorem calculateDrawdownSeries_nonpositive_zero_at_running_max (values : list R) :
  values ≠ [] →
  (∀ v, v ∈ values → (0 < v)%R) →
  let drawdowns := Finance.calculateDrawdownSeries values in
  length drawdowns = length values ∧
  (∀ d, d ∈ drawdowns → (d <= 0)%R) ∧
  (∀ i v d, values !! i = Some v → drawdowns !! i = Some d →
     (d = 0%R ↔ v = Spec.running_max values i) ∧
     (d = 0%R ↔ ∀ j w, j ≤ i → values !! j = Some w → (w <= v)%R) ∧
     (Spec.new_high values i → d = 0%R)).
Proof.
  intros Hne Hpos drawdowns. unfold drawdowns. clear drawdowns.
  split; [apply calculateDrawdownSeries_length|].
  assert (∀ i v d, values !! i = Some v →
            Finance.calculateDrawdownSeries values !! i = Some d →
            (0 < Spec.running_max values i)%R ∧
            (v <= Spec.running_max values i)%R ∧
            d = (v / Spec.running_max values i - 1)%R) as Hentry.
  { intros i v d Hv Hd. rewrite calculateDrawdownSeries_lookup, Hv in Hd.
    injection Hd as <-. pose proof (lookup_lt_Some _ _ _ Hv) as Hi.
    split; [by apply running_max_pos|]. split; [|done].
    by apply (running_max_ge values i i). }
  split.
  - intros d [i Hd]%list_elem_of_lookup.
    destruct (values !! i) as [v|] eqn:Hv.
    + destruct (Hentry i v d Hv Hd) as (Hm & Hle & ->).
      apply Rle_minus. apply (Rmult_le_reg_r (Spec.running_max values i)); [done|].
      unfold Rdiv. rewrite Rmult_assoc, Rinv_l by lra. lra.
    + rewrite calculateDrawdownSeries_lookup, Hv in Hd. done.
  - intros i v d Hv Hd. destruct (Hentry i v d Hv Hd) as (Hm & Hle & ->).
    assert ((v / Spec.running_max values i - 1)%R = 0%R ↔ v = Spec.running_max values i)
      as Hzero.
    { split.
      - intros Hz. assert (v / Spec.running_max values i = 1)%R as H1 by lra.
        apply (f_equal (λ x, x * Spec.running_max values i)%R) in H1.
        unfold Rdiv in H1. rewrite Rmult_assoc, Rinv_l in H1 by lra. lra.
      - intros Heq. rewrite <- Heq in Hm |- *. unfold Rdiv. rewrite Rinv_r; lra. }
    assert ((v / Spec.running_max values i - 1)%R = 0%R
            ↔ ∀ j w, j ≤ i → values !! j = Some w → (w <= v)%R) as Hall.
    { rewrite Hzero. split.
      - intros -> j w Hj Hw. by apply (running_max_ge values i j).
      - intros Hall. pose proof (lookup_lt_Some _ _ _ Hv) as Hi.
        destruct (running_max_attained values i Hi) as (j & Hj & Hw).
        specialize (Hall j _ Hj Hw). lra. }
    split; [done|]. split; [done|].
    intros Hnew. apply Hall. intros j w Hj Hw.
    destruct (decide (j = i)) as [->|Hji].
    + rewrite Hv in Hw. injection Hw as ->. lra.
    + apply Rlt_le, (Hnew j w v); [lia|done..].
Qed.

Lemma calculateDrawdownSeries_nonpositive_zero_at_running_max_witness :
  length (Finance.calculateDrawdownSeries [1; 1.1; 0.9; 1.2]%R) = 4 ∧
  (∀ d, d ∈ Finance.calculateDrawdownSeries [1; 1.1; 0.9; 1.2]%R → (d <= 0)%R).
Proof.
  destruct (calculateDrawdownSeries_nonpositive_zero_at_running_max
              [1; 1.1; 0.9; 1.2]%R) as (Hlen & Hle & _).
  - done.
  - intros p Hp.
    repeat (apply elem_of_cons in Hp as [->|Hp]; [lra|]).
    by apply elem_of_nil in Hp.
  - exact (conj Hlen Hle).
Defined.

Section value_path.
Import Js Finance.
Local Open Scope R_scope.

Lemma simulatePortfolioValues_nil (initialValue : option R) :
  simulatePortfolioValues [] initialValue = [default 1 initialValue].
Proof. reflexivity. Qed.

Lemma simulatePortfolioValues_snoc (returns : list R) (r : R) (initialValue : option R) :
  simulatePortfolioValues (returns ++ [r]) initialValue
  = simulatePortfolioValues returns initialValue
    ++ [simulatePortfolioValues returns initialValue
          !!! (length (simulatePortfolioValues returns initialValue) - 1)%nat
        * (1 + (exp r - 1))].
Proof. unfold simulatePortfolioValues. by rewrite for_of_snoc. Qed.

Lemma simulatePortfolioValues_length (returns : list R) (initialValue : option R) :
  length (simulatePortfolioValues returns initialValue) = Datatypes.S (length returns).
Proof.
  induction returns as [|r returns IH] using rev_ind; [done|].
  rewrite simulatePortfolioValues_snoc, !length_app, IH. simpl. lia.
Qed.

(** The value path always ends in an element, the one the next turn
    reads as [values[values.length - 1]]. *)
Lemma simulatePortfolioValues_last (returns : list R) (initialValue : option R) :
  ∃ front v,
    simulatePortfolioValues returns initialValue = front ++ [v] ∧
    simulatePortfolioValues returns initialValue
      !!! (length (simulatePortfolioValues returns initialValue) - 1)%nat = v.
Proof.
  assert (∀ (front : list R) (v : R),
            (front ++ [v]) !!! (length (front ++ [v]) - 1)%nat = v) as Hlast.
  { intros front v. rewrite length_app. simpl.
    replace (length front + 1 - 1)%nat with (length front) by lia.
    apply list_lookup_total_middle. done. }
  destruct returns as [|r returns _] using rev_ind.
  - exists [], (default 1 initialValue). split; [done|]. apply (Hlast []).
  - rewrite simulatePortfolioValues_snoc. eexists _, _. split; [done|]. apply Hlast.
Qed.

Lemma simulatePortfolioValues_pos (returns : list R) (initialValue : R) :
  0 < initialValue →
  ∀ v, v ∈ simulatePortfolioValues returns (Some initialValue) → 0 < v.
Proof.
  intros Hinit. induction returns as [|r returns IH] using rev_ind; intros v Hv.
  - apply list_elem_of_singleton in Hv as ->. done.
  - rewrite simulatePortfolioValues_snoc in Hv.
    apply elem_of_app in Hv as [Hv|Hv]; [by apply IH|].
    apply list_elem_of_singleton in Hv as ->.
    destruct (simulatePortfolioValues_last returns (Some initialValue))
      as (front & w & Hfront & ->).
    assert (0 < w) as Hw by (apply IH; rewrite Hfront; set_solver).
    pose proof (exp_pos r). replace (1 + (exp r - 1)) with (exp r) by lra.
    by apply Rmult_lt_0_compat.
Qed.

Lemma simulatePortfolioValues_increasing (returns : list R) (initialValue : R) :
  0 < initialValue →
  (∀ r, r ∈ returns → 0 < r) →
  Sorted Rlt (simulatePortfolioValues returns (Some initialValue)).
Proof.
  intros Hinit. induction returns as [|r returns IH] using rev_ind; intros Hpos.
  - rewrite simulatePortfolioValues_nil. repeat constructor.
  - rewrite simulatePortfolioValues_snoc.
    assert (Sorted Rlt (simulatePortfolioValues returns (Some initialValue))) as Hsorted
      by (apply IH; intros; apply Hpos; set_solver).
    destruct (simulatePortfolioValues_last returns (Some initialValue))
      as (front & w & Hfront & ->).
    assert (0 < w) as Hw
      by (apply (simulatePortfolioValues_pos returns initialValue Hinit);
          rewrite Hfront; set_solver).
    rewrite Hfront in Hsorted |- *.
    apply Sorted_snoc; [done|]. constructor.
    assert (1 < exp r) as Hexp
      by (rewrite <- exp_0; apply exp_increasing, Hpos; set_solver).
    nra.
Qed.

Lemma Sorted_lookup_next (l : list R) (i : nat) (a b : R) :
  Sorted Rlt l → l !! i = Some a → l !! Datatypes.S i = Some b → a < b.
Proof.
  intros Hsorted. revert i. induction Hsorted as [|x l Hs IH Hhd]; intros i Ha Hb; [done|].
  destruct i as [|i]; simpl in *.
  - injection Ha as ->. destruct Hhd as [|y l Hxy]; [done|].
    simpl in Hb. by injection Hb as ->.
  - by apply (IH i).
Qed.

Lemma calculateLogReturns_pos (prices : list R) :
  Sorted Rlt prices →
  (∀ p, p ∈ prices → 0 < p) →
  ∀ r, r ∈ calculateLogReturns prices → 0 < r.
Proof.
  intros Hsorted Hpos r Hr.
  destruct (decide (length prices < 2)%nat) as [Hlt|Hge].
  { rewrite calculateLogReturns_short in Hr by done. by apply elem_of_nil in Hr. }
  rewrite calculateLogReturns_steps in Hr by lia.
  apply list_elem_of_fmap in Hr as (i & -> & Hi).
  apply list_elem_of_filter in Hi as [_ [Hlo Hhi]%elem_of_seq].
  unfold Spec.log_return.
  destruct i as [|i]; [lia|]. replace (Datatypes.S i - 1)%nat with i by lia.
  assert (prices !! i = Some (prices !!! i)) as Ha
    by (apply list_lookup_lookup_total_lt; lia).
  assert (prices !! Datatypes.S i = Some (prices !!! Datatypes.S i)) as Hb
    by (apply list_lookup_lookup_total_lt; lia).
  pose proof (Sorted_lookup_next _ _ _ _ Hsorted Ha Hb) as Hab.
  assert (0 < prices !!! i) as Hapos by (apply Hpos, list_elem_of_lookup; eauto).
  rewrite <- ln_1. apply ln_increasing; [lra|].
  apply (Rmult_lt_reg_r (prices !!! i)); [done|].
  unfold Rdiv. rewrite Rmult_assoc, Rinv_l by lra. lra.
Qed.
End value_path.

(** In exact arithmetic every element of the path of
    [simulatePortfolioValues] is positive, the running maximum that
    [calculateDrawdownSeries] keeps on that path is positive at every
    turn of its loop, and every drawdown lies in (-1, 0]. *)
Lemma exact_path_positive_drawdown_in_range
    (returns : list R) (initialValue : R) :
  (0 < initialValue)%R →
  let values := Finance.simulatePortfolioValues returns (Some initialValue) in
  let drawdowns := Finance.calculateDrawdownSeries values in
  (∀ v, v ∈ values → (0 < v)%R) ∧
  (∀ k, k ≤ length values → (0 < (Spec.drawdown_state values k).1)%R) ∧
  (∀ i v, values !! i = Some v →
     drawdowns !! i = Some (v / (Spec.drawdown_state values (S i)).1 - 1)%R) ∧
  (∀ d, d ∈ drawdowns → (-1 < d <= 0)%R).
Proof.
  intros Hinit values drawdowns.
  assert (∀ v, v ∈ values → (0 < v)%R) as Hpos
    by apply (simulatePortfolioValues_pos returns initialValue Hinit).
  assert (values ≠ []) as Hne.
  { intros Hnil. apply (f_equal length) in Hnil. unfold values in Hnil.
    rewrite simulatePortfolioValues_length in Hnil. done. }
  split; [done|]. split; [|split].
  - intros k Hk. rewrite drawdown_state_runningMax.
    eapply Rlt_le_trans; [|apply foldl_Rmax_ge_init].
    apply Hpos, lookup_total_elem_of. destruct values; [done|simpl; lia].
  - intros i v Hv. unfold drawdowns.
    rewrite calculateDrawdownSeries_lookup, Hv, drawdown_state_runningMax. done.
  - intros d [i Hd]%list_elem_of_lookup. unfold drawdowns in Hd.
    rewrite calculateDrawdownSeries_lookup in Hd.
    destruct (values !! i) as [v|] eqn:Hv; [|done]. injection Hd as <-.
    pose proof (lookup_lt_Some _ _ _ Hv) as Hi.
    pose proof (running_max_pos values i Hpos Hi) as Hm.
    pose proof (running_max_ge values i i v (le_n i) Hv) as Hle.
    assert (0 < v)%R as Hvpos by (apply Hpos, list_elem_of_lookup; eauto).
    assert (0 < / Spec.running_max values i)%R as Hinv by by apply Rinv_0_lt_compat.
    assert (v / Spec.running_max values i <= 1)%R.
    { apply (Rmult_le_reg_r (Spec.running_max values i)); [done|].
      unfold Rdiv. rewrite Rmult_assoc, Rinv_l by lra. lra. }
    assert (0 < v / Spec.running_max values i)%R
      by (unfold Rdiv; by apply Rmult_lt_0_compat).
    lra.
Qed.


(** *** The same loops with rounding *)

Section rounded_path.
Import Js.
Local Open Scope R_scope.
Context (rnd Math_exp : R → R).

Lemma for_of_ext {A T : Type} (f g : A → T → T) (xs : list A) (s : T) :
  (∀ x s, f x s = g x s) → for_of xs f s = for_of xs g s.
Proof.
  intros Hfg. revert s. induction xs as [|x xs IH]; intros s; [done|].
  rewrite !for_of_cons, Hfg. apply IH.
Qed.

Lemma rounded_values_snoc (returns : list R) (r : R) (initialValue : option R) :
  Rounded.simulatePortfolioValues rnd Math_exp (returns ++ [r]) initialValue
  = Rounded.simulatePortfolioValues rnd Math_exp returns initialValue
    ++ [rnd (Rounded.simulatePortfolioValues rnd Math_exp returns initialValue
               !!! (length (Rounded.simulatePortfolioValues rnd Math_exp returns
                              initialValue) - 1)%nat
             * rnd (1 + rnd (Math_exp r - 1)))].
Proof. unfold Rounded.simulatePortfolioValues. by rewrite for_of_snoc. Qed.

Lemma rounded_values_length (returns : list R) (initialValue : option R) :
  length (Rounded.simulatePortfolioValues rnd Math_exp returns initialValue)
  = Datatypes.S (length returns).
Proof.
  induction returns as [|r returns IH] using rev_ind; [done|].
  rewrite rounded_values_snoc, !length_app, IH. simpl. lia.
Qed.

Lemma rounded_values_head (returns : list R) (initialValue : option R) :
  Rounded.simulatePortfolioValues rnd Math_exp returns initialValue !! 0%nat
  = Some (default 1 initialValue).
Proof.
  induction returns as [|r returns IH] using rev_ind; [done|].
  rewrite rounded_values_snoc, lookup_app_l; [done|].
  rewrite rounded_values_length. lia.
Qed.

(** Without rounding the loops are those of module [Finance]. *)
Lemma rounded_values_exact (returns : list R) (initialValue : option R) :
  (∀ x, rnd x = x) → (∀ r, Math_exp r = exp r) →
  Rounded.simulatePortfolioValues rnd Math_exp returns initialValue
  = Finance.simulatePortfolioValues returns initialValue.
Proof.
  intros Hrnd Hexp. unfold Rounded.simulatePortfolioValues, Finance.simulatePortfolioValues.
  apply for_of_ext. intros ret values. by rewrite !Hrnd, Hexp.
Qed.

Lemma rounded_drawdowns_exact (values : list R) :
  (∀ x, rnd x = x) →
  Rounded.calculateDrawdownSeries rnd values = Finance.calculateDrawdownSeries values.
Proof.
  intros Hrnd. unfold Rounded.calculateDrawdownSeries, Finance.calculateDrawdownSeries.
  case_decide; [done|]. f_equal. apply for_of_ext. intros value st.
  unfold Rounded.drawdown_body, Finance.drawdown_body. by rewrite !Hrnd.
Qed.

Lemma rounded_drawdown_body_Rmax (v m : R) (acc : list R) :
  Rounded.drawdown_body rnd v (m, acc)
  = (Rmax m v, acc ++ [rnd (rnd (v / Rmax m v) - 1)]).
Proof.
  unfold Rounded.drawdown_body, push. simpl.
  assert ((if decide (v > m) then v else m) = Rmax m v) as ->; [|done].
  unfold Rmax. case_decide; destruct (Rle_dec m v); lra.
Qed.

Lemma rounded_drawdown_loop (values : list R) (m : R) (acc : list R) :
  for_of values (Rounded.drawdown_body rnd) (m, acc)
  = (foldl Rmax m values,
     acc ++ imap (λ i v, rnd (rnd (v / foldl Rmax m (take (Datatypes.S i) values)) - 1))
              values).
Proof.
  revert m acc. induction values as [|v values IH]; intros m acc.
  - rewrite for_of_nil. simpl. by rewrite app_nil_r.
  - rewrite for_of_cons, rounded_drawdown_body_Rmax, IH. simpl.
    by rewrite <- app_assoc.
Qed.

Lemma rounded_drawdowns_lookup (values : list R) (i : nat) :
  Rounded.calculateDrawdownSeries rnd values !! i
  = (λ v, rnd (rnd (v / Spec.running_max values i) - 1)) <$> values !! i.
Proof.
  unfold Rounded.calculateDrawdownSeries. case_decide as Hlen.
  - by destruct values.
  - rewrite rounded_drawdown_loop. cbn [snd app]. by rewrite list_lookup_imap.
Qed.

Lemma rounded_drawdown_state_runningMax (values : list R) (k : nat) :
  (Rounded.drawdown_state rnd values k).1 = foldl Rmax (values !!! 0%nat) (take k values).
Proof. unfold Rounded.drawdown_state. by rewrite rounded_drawdown_loop. Qed.

Hypothesis rnd_mono : ∀ x y, x <= y → rnd x <= rnd y.
Hypothesis rnd_minus_one : rnd (-1) = -1.
Hypothesis rnd_zero : rnd 0 = 0.
Hypothesis rnd_one : rnd 1 = 1.
Hypothesis Math_exp_nonneg : ∀ r, 0 <= Math_exp r.

(** The factor [1 + simpleReturn] never falls below 0, whatever the
    rounding absorbs. *)
Lemma rounded_factor_nonneg (r : R) : 0 <= rnd (1 + rnd (Math_exp r - 1)).
Proof.
  rewrite <- rnd_zero at 1. apply rnd_mono.
  assert (-1 <= rnd (Math_exp r - 1)); [|lra].
  rewrite <- rnd_minus_one at 1. apply rnd_mono.
  pose proof (Math_exp_nonneg r). lra.
Qed.

Lemma rounded_values_nonneg (returns : list R) (initialValue : R) :
  0 < initialValue →
  ∀ v, v ∈ Rounded.simulatePortfolioValues rnd Math_exp returns (Some initialValue) →
       0 <= v.
Proof.
  intros Hinit. induction returns as [|r returns IH] using rev_ind.
  - intros v Hv. apply list_elem_of_singleton in Hv as ->. simpl. lra.
  - rewrite rounded_values_snoc. intros v [Hv|Hv]%elem_of_app; [by apply IH|].
    apply list_elem_of_singleton in Hv as ->.
    rewrite <- rnd_zero at 1. apply rnd_mono.
    apply Rmult_le_pos; [|apply rounded_factor_nonneg].
    apply IH, lookup_total_elem_of. rewrite rounded_values_length. lia.
Qed.

(** A drawdown computed from a value that is not negative and a
    positive running maximum that is not below it. *)
Lemma rounded_drawdown_range (v m : R) :
  0 <= v → 0 < m → v <= m → -1 <= rnd (rnd (v / m) - 1) <= 0.
Proof.
  intros Hv Hm Hle.
  assert (0 <= v / m <= 1) as [Hq0 Hq1].
  { assert (0 < / m) by by apply Rinv_0_lt_compat. split.
    - unfold Rdiv. apply Rmult_le_pos; lra.
    - apply (Rmult_le_reg_r m); [done|].
      unfold Rdiv. rewrite Rmult_assoc, Rinv_l by lra. lra. }
  apply rnd_mono in Hq0, Hq1. rewrite rnd_zero in Hq0. rewrite rnd_one in Hq1.
  split.
  - rewrite <- rnd_minus_one at 1. apply rnd_mono. lra.
  - apply (Rle_trans _ (rnd 0)); [apply rnd_mono; lra|by apply Req_le].
Qed.

Lemma rounded_path_range (returns : list R) (initialValue : R) :
  0 < initialValue →
  let values := Rounded.simulatePortfolioValues rnd Math_exp returns (Some initialValue) in
  let drawdowns := Rounded.calculateDrawdownSeries rnd values in
  (∀ v, v ∈ values → 0 <= v) ∧
  (∀ k, 0 < (Rounded.drawdown_state rnd values k).1) ∧
  (∀ i v, values !! i = Some v →
     drawdowns !! i
     = Some (rnd (rnd (v / (Rounded.drawdown_state rnd values (Datatypes.S i)).1) - 1))) ∧
  length drawdowns = length values ∧
  (∀ d, d ∈ drawdowns → -1 <= d <= 0).
Proof.
  intros Hinit values drawdowns.
  assert (∀ v, v ∈ values → 0 <= v) as Hnonneg
    by apply (rounded_values_nonneg returns initialValue Hinit).
  assert (values !!! 0%nat = initialValue) as Hhead.
  { apply list_lookup_total_correct. unfold values. by rewrite rounded_values_head. }
  assert (∀ k, 0 < (Rounded.drawdown_state rnd values k).1) as Hmax.
  { intros k. rewrite rounded_drawdown_state_runningMax, Hhead.
    eapply Rlt_le_trans; [exact Hinit|apply foldl_Rmax_ge_init]. }
  split; [done|]. split; [done|]. split; [|split].
  - intros i v Hv. unfold drawdowns.
    by rewrite rounded_drawdowns_lookup, Hv, rounded_drawdown_state_runningMax.
  - unfold drawdowns, Rounded.calculateDrawdownSeries. case_decide as Hlen.
    + by destruct values.
    + rewrite rounded_drawdown_loop. simpl. by rewrite length_imap.
  - intros d [i Hd]%list_elem_of_lookup. unfold drawdowns in Hd.
    rewrite rounded_drawdowns_lookup in Hd.
    destruct (values !! i) as [v|] eqn:Hv; [|done]. injection Hd as <-.
    apply rounded_drawdown_range.
    + apply Hnonneg, list_elem_of_lookup. eauto.
    + specialize (Hmax (Datatypes.S i)).
      by rewrite rounded_drawdown_state_runningMax in Hmax.
    + by apply (running_max_ge values i i).
Qed.
End rounded_path.

(** C10, as stated, fails in the arithmetic of [number].  The return
    -40 is finite and [Math.exp(-40)] is the positive number
    5514679113423396 x 2^-110 (4.248354255291589e-18), but
    [Math.exp(-40) - 1] rounds to -1: the value after that return is 0,
    not positive, and its drawdown is -1.  At the finite return 710,
    [Math.exp] overflows: the value is [Infinity], the running maximum
    too, and the drawdown [Infinity / Infinity - 1] is [NaN]. *)
Lemma extreme_returns_leave_the_range :
  let exp_minus_40 := SpecFloat.S754_finite false 5514679113423396 (-110) in
  let exp_710 := SpecFloat.S754_infinity false in
  let fallen :=
    F64.simulatePortfolioValues (λ _, exp_minus_40) [F64.of_Z (-40)] (Some (F64.of_Z 1)) in
  let risen :=
    F64.simulatePortfolioValues (λ _, exp_710) [F64.of_Z 710] (Some (F64.of_Z 1)) in
  fallen = [F64.of_Z 1; F64.of_Z 0] ∧
  F64.calculateDrawdownSeries fallen = [F64.of_Z 0; F64.of_Z (-1)] ∧
  risen = [F64.of_Z 1; SpecFloat.S754_infinity false] ∧
  F64.calculateDrawdownSeries risen = [F64.of_Z 0; SpecFloat.S754_nan].
Proof. vm_compute. done. Qed.

(** C10, amended.  Let every arithmetic result be rounded by a function
    that is monotone and leaves -1, 0 and 1 as they are, let [Math.exp]
    return no negative number, and let no operation overflow.  Then for
    every list of log returns and every positive initial value: every
    element of the path of [simulatePortfolioValues] is at least 0; the
    running maximum that [calculateDrawdownSeries] keeps on that path
    is positive at every turn of its loop, so the divisor of
    [value / runningMax] is never 0; there is one drawdown per value,
    and every drawdown lies in [-1, 0].  Where nothing is rounded and
    [Math.exp] is the exponential, every element is positive and every
    drawdown lies in (-1, 0]. *)
Theorem simulated_path_nonnegative_drawdown_in_range
    (rnd Math_exp : R → R) (returns : list R) (initialValue : R) :
  (∀ x y, (x <= y)%R → (rnd x <= rnd y)%R) →
  rnd (-1)%R = (-1)%R → rnd 0%R = 0%R → rnd 1%R = 1%R →
  (∀ r, (0 <= Math_exp r)%R) →
  (0 < initialValue)%R →
  let values := Rounded.simulatePortfolioValues rnd Math_exp returns (Some initialValue) in
  let drawdowns := Rounded.calculateDrawdownSeries rnd values in
  (∀ v, v ∈ values → (0 <= v)%R) ∧
  (∀ k, (0 < (Rounded.drawdown_state rnd values k).1)%R) ∧
  (∀ i v, values !! i = Some v →
     drawdowns !! i
     = Some (rnd (rnd (v / (Rounded.drawdown_state rnd values (S i)).1) - 1))%R) ∧
  length drawdowns = length values ∧
  (∀ d, d ∈ drawdowns → (-1 <= d <= 0)%R) ∧
  ((∀ x, rnd x = x) → (∀ r, Math_exp r = exp r) →
     (∀ v, v ∈ values → (0 < v)%R) ∧ (∀ d, d ∈ drawdowns → (-1 < d <= 0)%R)).
Proof.
  intros Hmono Hm1 H0 H1 Hexp Hinit values drawdowns.
  destruct (rounded_path_range rnd Math_exp Hmono Hm1 H0 H1 Hexp returns initialValue Hinit)
    as (Hnonneg & Hmax & Hentry & Hlen & Hrange).
  repeat (split; [done|]).
  intros Hid Hexact. unfold drawdowns, values.
  rewrite rounded_drawdowns_exact, rounded_values_exact by done.
  destruct (exact_path_positive_drawdown_in_range returns initialValue Hinit)
    as (Hpos & _ & _ & Hin).
  done.
Qed.

(** The hypotheses hold of a rounding that does round: to the nearest
    multiple of 2^-10. *)
Lemma simulated_path_nonnegative_drawdown_in_range_witness :
  let rnd := λ x : R, (Js.Math_round (x * 1024) / 1024)%R in
  let values := Rounded.simulatePortfolioValues rnd exp [0.01; -40]%R (Some 1%R) in
  (0 < (Rounded.drawdown_state rnd values 3).1)%R ∧
  length (Rounded.calculateDrawdownSeries rnd values) = 3.
Proof.
  intros rnd values.
  assert (∀ z : Z, rnd (IZR z) = IZR z) as Hfix.
  { intros z. unfold rnd, Js.Math_round.
    replace (IZR z * 1024 + / 2)%R with (/ 2 + IZR (z * 1024))%R
      by (rewrite mult_IZR; lra).
    rewrite Zfloor_addz, (Zfloor_eq 0) by lra.
    rewrite Z.add_0_l, mult_IZR. field. }
  assert (0 < 1)%R as Hinit by lra.
  destruct (simulated_path_nonnegative_drawdown_in_range rnd exp [0.01; -40]%R 1)
    as (_ & Hmax & _ & Hlen & _).
  - intros x y Hxy. unfold rnd, Js.Math_round.
    apply Rmult_le_compat_r; [lra|]. apply IZR_le, Zfloor_le. lra.
  - apply (Hfix (-1)%Z).
  - apply (Hfix 0%Z).
  - apply (Hfix 1%Z).
  - intros r. apply Rlt_le, exp_pos.
  - exact Hinit.
  - split; [apply Hmax|]. etrans; [exact Hlen|].
    apply (rounded_values_length rnd exp [0.01; -40]%R).
Defined.

(** ** Portfolio daily returns *)

Section daily_returns.
Import Js Finance.
Local Open Scope R_scope.
Implicit Types (returnsMatrix : gmap string (list R)) (weights : gmap string R).
Implicit Types (tickers : list string).

Lemma foldl_min_inf_Some (k : nat) (ks : list nat) :
  foldl min_inf (Some k) ks = Some (foldl Nat.min k ks).
Proof. revert k. induction ks as [|k' ks IH]; intros k; [done|]. simpl. apply IH. Qed.

Lemma minLength_loop returnsMatrix tickers (m : option nat) :
  for_of tickers (λ ticker minLength,
    match returnsMatrix !! ticker with
    | Some returns => min_inf minLength (length returns)
    | None => minLength
    end) m
  = foldl min_inf m (Spec.series_lengths returnsMatrix tickers).
Proof.
  revert m. induction tickers as [|t tickers IH]; intros m; [done|].
  rewrite for_of_cons, IH. unfold Spec.series_lengths. simpl.
  by destruct (returnsMatrix !! t).
Qed.

Lemma minLength_of_minimum returnsMatrix tickers :
  minLength_of returnsMatrix tickers
  = match Spec.series_lengths returnsMatrix tickers with
    | [] => None
    | ks => Some (Spec.minimum ks)
    end.
Proof.
  unfold minLength_of. rewrite minLength_loop.
  destruct (Spec.series_lengths returnsMatrix tickers) as [|k ks]; [done|].
  simpl. apply foldl_min_inf_Some.
Qed.

Lemma dailyReturn_loop returnsMatrix weights tickers (i : nat) (acc : R) :
  for_of tickers (λ ticker dailyReturn,
    let returns := returnsMatrix !! ticker in
    let weight := default 0 (weights !! ticker) in
    match returns with
    | Some returns =>
        match returns !! i with
        | Some r => dailyReturn + weight * r
        | None => dailyReturn
        end
    | None => dailyReturn
    end) acc
  = foldl Rplus acc (Spec.contribution returnsMatrix weights i <$> tickers).
Proof.
  revert acc. induction tickers as [|t tickers IH]; intros acc; [done|].
  rewrite for_of_cons, IH. simpl. f_equal. unfold Spec.contribution.
  destruct (returnsMatrix !! t) as [returns|]; [|lra].
  destruct (returns !! i); lra.
Qed.

Lemma dailyReturn_at_sum returnsMatrix weights tickers (i : nat) :
  dailyReturn_at returnsMatrix weights tickers i
  = Spec.Rsum (Spec.contribution returnsMatrix weights i <$> tickers).
Proof. apply dailyReturn_loop. Qed.

Lemma calculatePortfolioDailyReturns_fmap returnsMatrix weights tickers :
  calculatePortfolioDailyReturns returnsMatrix weights tickers
  = dailyReturn_at returnsMatrix weights tickers
    <$> seq 0 (Spec.minimum (Spec.series_lengths returnsMatrix tickers)).
Proof.
  unfold calculatePortfolioDailyReturns. rewrite minLength_of_minimum.
  destruct (Spec.series_lengths returnsMatrix tickers) as [|k ks]; [done|].
  destruct (Spec.minimum (k :: ks)) as [|n]; [done|].
  rewrite for_range_of, Nat.sub_0_r.
  exact (for_of_push_fmap (dailyReturn_at returnsMatrix weights tickers) _ []).
Qed.

Lemma calculatePortfolioDailyReturns_length returnsMatrix weights tickers :
  length (calculatePortfolioDailyReturns returnsMatrix weights tickers)
  = Spec.minimum (Spec.series_lengths returnsMatrix tickers).
Proof. by rewrite calculatePortfolioDailyReturns_fmap, length_fmap, length_seq. Qed.

Lemma series_lengths_none returnsMatrix tickers :
  (∀ t, t ∈ tickers → returnsMatrix !! t = None) →
  Spec.series_lengths returnsMatrix tickers = [].
Proof.
  induction tickers as [|t tickers IH]; intros Hnone; [done|].
  unfold Spec.series_lengths. simpl. rewrite (Hnone t) by left. simpl.
  apply IH. intros t' Ht'. apply Hnone. by right.
Qed.

Lemma minimum_le (ks : list nat) (k : nat) : k ∈ ks → (Spec.minimum ks ≤ k)%nat.
Proof.
  assert (∀ ks m, (foldl Nat.min m ks ≤ m)%nat) as Hinit.
  { clear. induction ks as [|k ks IH]; intros m; simpl; [lia|].
    etrans; [apply IH|lia]. }
  assert (∀ ks m k, k ∈ ks → (foldl Nat.min m ks ≤ k)%nat) as Hin.
  { clear -Hinit. induction ks as [|k' ks IH]; intros m k Hk; [by apply elem_of_nil in Hk|].
    apply elem_of_cons in Hk as [->|Hk]; simpl.
    - etrans; [apply Hinit|lia].
    - by apply IH. }
  destruct ks as [|k0 ks]; intros Hk; [by apply elem_of_nil in Hk|].
  apply elem_of_cons in Hk as [->|Hk]; simpl; [apply Hinit|by apply Hin].
Qed.

Lemma minimum_elem_of (ks : list nat) : ks ≠ [] → Spec.minimum ks ∈ ks.
Proof.
  assert (∀ ks m, foldl Nat.min m ks = m ∨ foldl Nat.min m ks ∈ ks) as Hfold.
  { clear. induction ks as [|k ks IH]; intros m; simpl; [by left|].
    destruct (IH (Nat.min m k)) as [Heq|Hin]; [|by right; right].
    rewrite Heq. destruct (Nat.min_spec m k) as [[_ ->]|[_ ->]]; [by left|right; left]. }
  destruct ks as [|k ks]; [done|]. intros _. simpl.
  destruct (Hfold ks k) as [->|Hin]; [left|by right].
Qed.
End daily_returns.

(** A ticker without a series (VOO) adds nothing, and the shorter
    series (MSFT) sets the length. *)
Example calculatePortfolioDailyReturns_example :
  let returnsMatrix : gmap string (list R) :=
    {[ "AAPL" := [0.01; 0.02; 0.03]%R; "MSFT" := [0.04; 0.05]%R ]} in
  let weights : gmap string R := {[ "AAPL" := 0.6%R; "MSFT" := 0.4%R ]} in
  Finance.calculatePortfolioDailyReturns returnsMatrix weights ["AAPL"; "MSFT"; "VOO"]
  = [0.022; 0.032]%R.
Proof.
  intros returnsMatrix weights.
  rewrite calculatePortfolioDailyReturns_fmap.
  assert (Spec.minimum (Spec.series_lengths returnsMatrix ["AAPL"; "MSFT"; "VOO"]) = 2)
    as -> by done.
  simpl. rewrite !dailyReturn_at_sum. unfold Spec.Rsum, Spec.contribution.
  cbn [fmap list_fmap foldl].
  assert (returnsMatrix !! "AAPL" = Some [0.01; 0.02; 0.03]%R) as -> by done.
  assert (returnsMatrix !! "MSFT" = Some [0.04; 0.05]%R) as -> by done.
  assert (returnsMatrix !! "VOO" = None) as -> by done.
  assert (weights !! "AAPL" = Some 0.6%R) as -> by done.
  assert (weights !! "MSFT" = Some 0.4%R) as -> by done.
  simpl. f_equal; [lra|]. f_equal. lra.
Qed.

(** C1, as stated, fails: a listed ticker without a return series does
    not make the output empty; it is left out of the minimum.  Here
    MSFT has no series and the output still has the two days of AAPL. *)
Lemma missing_series_keeps_output :
  let returnsMatrix : gmap string (list R) := {[ "AAPL" := [0.01; 0.02]%R ]} in
  let weights : gmap string R := {[ "AAPL" := 0.5%R; "MSFT" := 0.5%R ]} in
  returnsMatrix !! "MSFT" = None ∧
  length (Finance.calculatePortfolioDailyReturns
            returnsMatrix weights ["AAPL"; "MSFT"]) = 2.
Proof.
  intros returnsMatrix weights. split; [done|].
  rewrite calculatePortfolioDailyReturns_length. done.
Qed.

(** C1, amended.  Entry [i] of [calculatePortfolioDailyReturns] is the
    sum over the listed tickers of weight[t] x return[t][i], a ticker
    without a series, without index [i] or without a weight adding 0.
    The output length is the least length among the series of the
    listed tickers that have one; it is 0 when no listed ticker has a
    series. *)
Theorem calculatePortfolioDailyReturns_weighted_sum
    (returnsMatrix : gmap string (list R)) (weights : gmap string R)
    (tickers : list string) :
  let out := Finance.calculatePortfolioDailyReturns returnsMatrix weights tickers in
  let lengths := Spec.series_lengths returnsMatrix tickers in
  length out = Spec.minimum lengths ∧
  (∀ t returns, t ∈ tickers → returnsMatrix !! t = Some returns →
     length out ≤ length returns) ∧
  (lengths ≠ [] → length out ∈ lengths) ∧
  ((∀ t, t ∈ tickers → returnsMatrix !! t = None) → out = []) ∧
  (∀ i, i < length out →
     out !! i = Some (Spec.Rsum (Spec.contribution returnsMatrix weights i <$> tickers))).
Proof.
  intros out lengths. unfold out, lengths. clear out lengths.
  rewrite calculatePortfolioDailyReturns_length.
  split; [done|]. split; [|split; [|split]].
  - intros t returns Ht Hreturns. apply minimum_le.
    apply list_elem_of_omap. exists t. by rewrite Hreturns.
  - apply minimum_elem_of.
  - intros Hnone. rewrite calculatePortfolioDailyReturns_fmap.
    by rewrite series_lengths_none.
  - intros i Hi. rewrite calculatePortfolioDailyReturns_fmap, list_lookup_fmap.
    rewrite lookup_seq_lt by done. simpl. by rewrite dailyReturn_at_sum.
Qed.

Lemma calculatePortfolioDailyReturns_weighted_sum_witness :
  Finance.calculatePortfolioDailyReturns
    (∅ : gmap string (list R)) (∅ : gmap string R) ["AAPL"] = [].
Proof.
  apply (calculatePortfolioDailyReturns_weighted_sum ∅ ∅ ["AAPL"]).
  intros t _. apply lookup_empty.
Defined.

(** ** Covariance matrix *)

Section covariance.
Import Js Finance.
Local Open Scope R_scope.

Lemma mean_arithmetic (xs : list R) : xs ≠ [] → mean xs = Spec.arithmetic_mean xs.
Proof. intros Hne. unfold mean. rewrite decide_False; [done|]. by destruct xs. Qed.

Lemma zip_with_take_seq {C} (g : R → R → C) (xs ys : list R) (n : nat) :
  (n ≤ length xs)%nat → (n ≤ length ys)%nat →
  zip_with g (take n xs) (take n ys) = (λ i, g (xs !!! i) (ys !!! i)) <$> seq 0 n.
Proof.
  intros Hx Hy. apply list_eq. intros i.
  rewrite lookup_zip_with, list_lookup_fmap.
  destruct (decide (i < n)%nat) as [Hi|Hi].
  - rewrite !lookup_take_lt by done. rewrite lookup_seq_lt by done.
    rewrite (list_lookup_lookup_total_lt xs), (list_lookup_lookup_total_lt ys) by lia.
    done.
  - rewrite !lookup_take_ge, lookup_seq_ge by lia. done.
Qed.

Lemma covariance_sum_loop (returns1 returns2 : list R) (mean1 mean2 : R) (n : nat) :
  (n ≤ length returns1)%nat → (n ≤ length returns2)%nat →
  for_range 0 n (λ i sum,
    sum + (returns1 !!! i - mean1) * (returns2 !!! i - mean2)) 0
  = Spec.Rsum (zip_with (λ x y, (x - mean1) * (y - mean2))
                 (take n returns1) (take n returns2)).
Proof.
  intros Hn1 Hn2. rewrite zip_with_take_seq by done.
  unfold Spec.Rsum. rewrite foldl_fmap. unfold for_range. by rewrite Nat.sub_0_r.
Qed.

(** [covariance] is the sample covariance of the two leading prefixes
    of the overlap length, and 0 for an overlap under 2. *)
Lemma covariance_overlap (returns1 returns2 : list R) :
  covariance returns1 returns2
  = if decide (Nat.min (length returns1) (length returns2) < 2)%nat then 0
    else Spec.sample_covariance
           (take (Nat.min (length returns1) (length returns2)) returns1)
           (take (Nat.min (length returns1) (length returns2)) returns2).
Proof.
  unfold covariance. cbv zeta.
  set (n := Nat.min (length returns1) (length returns2)).
  case_decide as Hn; [done|].
  assert (length (take n returns1) = n) as Hl1 by (apply length_take_le; lia).
  assert (length (take n returns2) = n) as Hl2 by (apply length_take_le; lia).
  rewrite covariance_sum_loop by lia. unfold Spec.sample_covariance.
  rewrite !mean_arithmetic, Hl1; [done| |].
  - intros Hnil. rewrite Hnil in Hl2. simpl in Hl2. lia.
  - intros Hnil. rewrite Hnil in Hl1. simpl in Hl1. lia.
Qed.

Lemma sample_covariance_sym (xs ys : list R) :
  length xs = length ys →
  Spec.sample_covariance xs ys = Spec.sample_covariance ys xs.
Proof.
  intros Hlen. unfold Spec.sample_covariance. rewrite Hlen. f_equal. f_equal.
  rewrite <- zip_with_flip. apply zip_with_ext; [|done..].
  intros x y. simpl. lra.
Qed.

Lemma covariance_sym (returns1 returns2 : list R) :
  covariance returns1 returns2 = covariance returns2 returns1.
Proof.
  rewrite !covariance_overlap.
  rewrite (Nat.min_comm (length returns2) (length returns1)).
  case_decide as Hn; [done|].
  apply sample_covariance_sym. rewrite !length_take_le by lia. done.
Qed.

(** The inner loop writes row [i] from left to right. *)
Lemma matrix_row_loop (M : list (list R)) (i : nat) (f : nat → R) (row : list R) (m : nat) :
  M !! i = Some row → (m ≤ length row)%nat →
  for_range 0 m (λ j M, matrix_set M i j (f j)) M
  = <[i := (f <$> seq 0 m) ++ drop m row]> M.
Proof.
  intros HM. induction m as [|m IH]; intros Hm.
  - rewrite for_range_done. simpl. rewrite drop_0. symmetry. by apply list_insert_id.
  - rewrite for_range_S by lia. rewrite IH by lia. unfold matrix_set.
    rewrite list_lookup_total_insert_eq by (by eapply lookup_lt_Some).
    rewrite list_insert_insert_eq. f_equal.
    rewrite insert_app_r_alt by (rewrite length_fmap, length_seq; lia).
    rewrite length_fmap, length_seq, Nat.sub_diag.
    destruct (lookup_lt_is_Some_2 row m) as [x Hx]; [lia|].
    rewrite (drop_S _ _ _ Hx), seq_S, fmap_app, <- app_assoc. done.
Qed.

(** The outer loop writes the rows from top to bottom. *)
Lemma matrix_loop (M0 : list (list R)) (n : nat) (f : nat → nat → R) (k : nat) :
  (∀ row, row ∈ M0 → length row = n) → (k ≤ length M0)%nat →
  for_range 0 k (λ i M, for_range 0 n (λ j M, matrix_set M i j (f i j)) M) M0
  = ((λ i, f i <$> seq 0 n) <$> seq 0 k) ++ drop k M0.
Proof.
  intros Hrows. induction k as [|k IH]; intros Hk.
  - rewrite for_range_done. simpl. by rewrite drop_0.
  - rewrite for_range_S by lia. rewrite IH by lia.
    destruct (lookup_lt_is_Some_2 M0 k) as [row Hrow]; [lia|].
    assert (length row = n) as Hlen by (apply Hrows, list_elem_of_lookup; eauto).
    rewrite (drop_S _ _ _ Hrow).
    assert (length ((λ i, f i <$> seq 0 n) <$> seq 0 k) = k) as Hfront
      by by rewrite length_fmap, length_seq.
    rewrite (matrix_row_loop _ k (f k) row n); [|by apply list_lookup_middle|lia].
    rewrite insert_app_r_alt by lia. rewrite Hfront, Nat.sub_diag.
    rewrite drop_ge, app_nil_r by lia.
    rewrite seq_S, fmap_app, <- app_assoc. done.
Qed.

Lemma buildCovarianceMatrix_cells
    (returnsMatrix : gmap string (list R)) (tickers : list string) :
  buildCovarianceMatrix returnsMatrix tickers
  = (λ i, (λ j,
       covariance (default [] (returnsMatrix !! (tickers !!! i)))
                  (default [] (returnsMatrix !! (tickers !!! j)))
       * TRADING_DAYS_PER_YEAR) <$> seq 0 (length tickers))
    <$> seq 0 (length tickers).
Proof.
  unfold buildCovarianceMatrix. cbv zeta.
  rewrite (matrix_loop _ (length tickers)
    (λ i j, covariance (default [] (returnsMatrix !! (tickers !!! i)))
                       (default [] (returnsMatrix !! (tickers !!! j)))
            * TRADING_DAYS_PER_YEAR)).
  - rewrite drop_ge, app_nil_r by (by rewrite length_replicate). done.
  - intros row Hrow%elem_of_replicate_inv. subst. apply length_replicate.
  - by rewrite length_replicate.
Qed.

Lemma buildCovarianceMatrix_cell
    (returnsMatrix : gmap string (list R)) (tickers : list string) (i j : nat) :
  (i < length tickers)%nat → (j < length tickers)%nat →
  Spec.cell (buildCovarianceMatrix returnsMatrix tickers) i j
  = Some (covariance (default [] (returnsMatrix !! (tickers !!! i)))
                     (default [] (returnsMatrix !! (tickers !!! j)))
          * TRADING_DAYS_PER_YEAR).
Proof.
  intros Hi Hj. unfold Spec.cell. rewrite buildCovarianceMatrix_cells.
  rewrite list_lookup_fmap, lookup_seq_lt by done. simpl.
  rewrite list_lookup_fmap, lookup_seq_lt by done. done.
Qed.
End covariance.

Example covariance_example :
  Finance.covariance [1; 2; 3]%R [2; 4; 6; 8]%R = 2%R.
Proof.
  unfold Finance.covariance, Finance.mean, Js.for_range. simpl. lra.
Qed.

(** C5.  For a ticker list of length [n], [buildCovarianceMatrix]
    returns an [n] x [n] matrix; its cell [(i, j)] is 252 times the
    sample covariance (divisor overlap - 1, means taken over the
    prefixes) of the leading prefixes of series [i] and [j] of the
    overlap length min(len_i, len_j), it is 0 when that overlap is under
    2, and it equals cell [(j, i)].  A ticker without a series counts as
    the empty series. *)
Theorem buildCovarianceMatrix_annualized_sample_covariance
    (returnsMatrix : gmap string (list R)) (tickers : list string) :
  let n := length tickers in
  let M := Finance.buildCovarianceMatrix returnsMatrix tickers in
  let series := λ i : nat, default [] (returnsMatrix !! (tickers !!! i)) in
  length M = n ∧
  (∀ row, row ∈ M → length row = n) ∧
  (∀ i j, i < n → j < n →
     let overlap := Nat.min (length (series i)) (length (series j)) in
     ∃ c : R,
       Spec.cell M i j = Some c ∧
       (overlap < 2 → c = 0%R) ∧
       (2 ≤ overlap →
          c = (252 * Spec.sample_covariance
                       (take overlap (series i)) (take overlap (series j)))%R) ∧
       Spec.cell M j i = Some c).
Proof.
  intros n M series. split; [|split].
  - unfold M. rewrite buildCovarianceMatrix_cells.
    by rewrite length_fmap, length_seq.
  - intros row Hrow. unfold M in Hrow. rewrite buildCovarianceMatrix_cells in Hrow.
    apply list_elem_of_fmap in Hrow as (i & -> & _).
    by rewrite length_fmap, length_seq.
  - intros i j Hi Hj overlap.
    exists (Finance.covariance (series i) (series j) * Finance.TRADING_DAYS_PER_YEAR)%R.
    split; [by apply buildCovarianceMatrix_cell|].
    split; [|split].
    + intros Hlt. rewrite covariance_overlap. fold overlap.
      rewrite decide_True by done. lra.
    + intros Hge. rewrite covariance_overlap. fold overlap.
      rewrite decide_False by lia. unfold Finance.TRADING_DAYS_PER_YEAR. lra.
    + unfold M. rewrite buildCovarianceMatrix_cell by done.
      fold (series i) (series j). by rewrite (covariance_sym (series j)).
Qed.

Lemma buildCovarianceMatrix_annualized_sample_covariance_witness :
  let returnsMatrix : gmap string (list R) :=
    {[ "AAPL" := [0.01; 0.03; 0.02]%R; "MSFT" := [0.02; 0.01]%R ]} in
  ∃ c : R,
    Spec.cell (Finance.buildCovarianceMatrix returnsMatrix ["AAPL"; "MSFT"]) 0 1 = Some c ∧
    Spec.cell (Finance.buildCovarianceMatrix returnsMatrix ["AAPL"; "MSFT"]) 1 0 = Some c.
Proof.
  intros returnsMatrix.
  destruct (buildCovarianceMatrix_annualized_sample_covariance
              returnsMatrix ["AAPL"; "MSFT"]) as (_ & _ & Hcell).
  destruct (Hcell 0 1) as (c & Hc & _ & _ & Hc'); [simpl; lia..|].
  exists c. exact (conj Hc Hc').
Defined.

(** ** Date alignment *)

Section alignment.
Import Js Yahoo.
Implicit Types (pricesMap : list (string * list HistoricalData)).
Implicit Types (data : list HistoricalData) (tickers : list string).

Lemma for_of_push_filter_bool {A B} (b : A → bool) (f : A → B) (xs : list A) (acc : list B) :
  for_of xs (λ x out, if b x then push out (f x) else out) acc
  = acc ++ (f <$> filter (λ x, b x = true) xs).
Proof.
  revert acc. induction xs as [|x xs IH]; intros acc.
  - by rewrite for_of_nil, app_nil_r.
  - rewrite for_of_cons, IH, filter_cons. destruct (b x) eqn:Hb.
    + rewrite decide_True by done. unfold push. by rewrite <- app_assoc.
    + rewrite decide_False by done. done.
Qed.

Lemma fmap_filter_comp {A B} (P : B → Prop) `{!∀ y, Decision (P y)} (f : A → B) (xs : list A) :
  f <$> filter (λ x, P (f x)) xs = filter P (f <$> xs).
Proof.
  induction xs as [|x xs IH]; [done|]. rewrite fmap_cons, !filter_cons.
  case_decide; [rewrite fmap_cons|]; by rewrite IH.
Qed.

(** The date map of a ticker has exactly the dates of its data. *)
Lemma dateMap_loop data (dateMap : gmap Z R) (d : Z) :
  is_Some (for_of data (λ point dateMap,
             <[point.(date) := point.(adjClose)]> dateMap) dateMap !! d)
  ↔ d ∈ date <$> data ∨ is_Some (dateMap !! d).
Proof.
  revert dateMap. induction data as [|point data IH]; intros dateMap.
  - rewrite for_of_nil, fmap_nil. split; [by right|].
    intros [Hd|Hd]; [by apply elem_of_nil in Hd|done].
  - rewrite for_of_cons, IH, lookup_insert_is_Some, fmap_cons, elem_of_cons.
    assert (d = date point ↔ date point = d) as Hsym by (split; congruence).
    destruct (decide (date point = d)); tauto.
Qed.

Lemma dateMap_of_dates data (d : Z) :
  is_Some (dateMap_of data !! d) ↔ d ∈ date <$> data.
Proof.
  unfold dateMap_of. rewrite dateMap_loop, lookup_empty.
  split; [intros [?|[? ?]]; done|by left].
Qed.

(** The date maps hold one map per key. *)
Lemma dateMaps_loop_other pricesMap (dateMaps : gmap string (gmap Z R)) (t : string) :
  t ∉ keys pricesMap →
  for_of pricesMap (λ entry dateMaps,
    <[entry.1 := dateMap_of entry.2]> dateMaps) dateMaps !! t = dateMaps !! t.
Proof.
  revert dateMaps. induction pricesMap as [|[k data] pricesMap IH]; intros dateMaps Ht; [done|].
  unfold keys in Ht. rewrite fmap_cons, not_elem_of_cons in Ht. destruct Ht as [Hk Ht].
  rewrite for_of_cons, IH by done. simpl. by rewrite lookup_insert_ne.
Qed.

Lemma dateMaps_of_lookup pricesMap (t : string) data :
  wf pricesMap → (t, data) ∈ pricesMap →
  dateMaps_of pricesMap !! t = Some (dateMap_of data).
Proof.
  unfold dateMaps_of. generalize (∅ : gmap string (gmap Z R)).
  induction pricesMap as [|[k data'] pricesMap IH]; intros dateMaps Hwf Hin.
  - by apply elem_of_nil in Hin.
  - unfold wf, keys in Hwf. rewrite fmap_cons, NoDup_cons in Hwf.
    destruct Hwf as [Hk Hwf]. rewrite for_of_cons.
    apply elem_of_cons in Hin as [Heq|Hin].
    + injection Heq as -> ->. rewrite dateMaps_loop_other by done.
      simpl. by rewrite lookup_insert_eq.
    + by apply IH.
Qed.

Lemma allHave_spec (dateMaps : gmap string (gmap Z R)) (d : Z) tickers :
  allHave dateMaps d tickers = true
  ↔ ∀ t, t ∈ tickers → ∃ dateMap, dateMaps !! t = Some dateMap ∧ is_Some (dateMap !! d).
Proof.
  induction tickers as [|t tickers IH]; simpl.
  - split; [|done]. intros _ t Ht. by apply elem_of_nil in Ht.
  - destruct (dateMaps !! t) as [dateMap|] eqn:Hm.
    + case_decide as Hd.
      * rewrite IH. split.
        -- intros Hall t' [->|Ht']%elem_of_cons; [eauto|by apply Hall].
        -- intros Hall t' Ht'. apply Hall. by right.
      * split; [done|]. intros Hall.
        destruct (Hall t) as (dateMap' & Hm' & Hd'); [by left|].
        rewrite Hm in Hm'. injection Hm' as <-. done.
    + split; [done|]. intros Hall.
      destruct (Hall t) as (dateMap' & Hm' & _); [by left|].
      rewrite Hm in Hm'. done.
Qed.

(** With the date maps of a well-formed input, a date passes the inner
    loop exactly when every ticker has it. *)
Lemma allHave_dateMaps pricesMap (d : Z) :
  wf pricesMap →
  allHave (dateMaps_of pricesMap) d (keys pricesMap) = true
  ↔ ∀ t data, (t, data) ∈ pricesMap → d ∈ date <$> data.
Proof.
  intros Hwf. rewrite allHave_spec. split.
  - intros Hall t data Hin.
    destruct (Hall t) as (dateMap & Hm & Hd).
    { unfold keys. apply list_elem_of_fmap. by exists (t, data). }
    rewrite (dateMaps_of_lookup _ _ _ Hwf Hin) in Hm. injection Hm as <-.
    by apply dateMap_of_dates.
  - intros Hall t Ht. unfold keys in Ht.
    apply list_elem_of_fmap in Ht as ([t' data] & -> & Hin). simpl.
    exists (dateMap_of data). split; [by apply dateMaps_of_lookup|].
    apply dateMap_of_dates. by apply (Hall t').
Qed.

Lemma commonDates_of_filter (dateMaps : gmap string (gmap Z R)) tickers data :
  commonDates_of dateMaps tickers data
  = filter (λ d, allHave dateMaps d tickers = true) (date <$> data).
Proof.
  unfold commonDates_of. cbv zeta.
  rewrite (for_of_push_filter_bool (λ point, allHave dateMaps (date point) tickers) date).
  simpl. exact (fmap_filter_comp (λ d, allHave dateMaps d tickers = true) date data).
Qed.

Lemma every_ticker_has_Forall pricesMap (d : Z) :
  (∀ t data, (t, data) ∈ pricesMap → d ∈ date <$> data)
  ↔ Forall (λ e : string * list Z, d ∈ e.2) (Spec.date_lists pricesMap).
Proof.
  unfold Spec.date_lists. rewrite Forall_fmap, Forall_forall. split.
  - intros Hall [t data] Hin. simpl. by apply (Hall t).
  - intros Hall t data Hin. apply (Hall (t, data) Hin).
Qed.

Lemma alignPriceData_dates pricesMap :
  wf pricesMap →
  dates (alignPriceData pricesMap) = Spec.common_dates (Spec.date_lists pricesMap).
Proof.
  intros Hwf. unfold alignPriceData. cbv zeta.
  destruct pricesMap as [|[t0 data0] rest]; [done|].
  rewrite decide_False by done. simpl dates.
  rewrite decide_True by done. simpl default.
  change (t0 :: keys rest) with (keys ((t0, data0) :: rest)).
  rewrite commonDates_of_filter.
  unfold Spec.common_dates. simpl Spec.date_lists. cbv beta iota. simpl snd.
  f_equal. apply list_filter_iff. intros d.
  rewrite (allHave_dateMaps ((t0, data0) :: rest) d Hwf).
  apply every_ticker_has_Forall.
Qed.

Lemma common_dates_elem_of pricesMap (d : Z) :
  pricesMap ≠ [] →
  d ∈ Spec.common_dates (Spec.date_lists pricesMap)
  ↔ ∀ t data, (t, data) ∈ pricesMap → d ∈ date <$> data.
Proof.
  destruct pricesMap as [|[t0 data0] rest]; [done|]. intros _.
  rewrite every_ticker_has_Forall.
  change (Spec.common_dates (Spec.date_lists ((t0, data0) :: rest)))
    with (merge_sort Z.le
            (filter (λ d, Forall (λ e : string * list Z, d ∈ e.2)
                            (Spec.date_lists ((t0, data0) :: rest)))
               (date <$> data0))).
  rewrite merge_sort_Permutation, list_elem_of_filter. split; [tauto|].
  intros Hall. split; [done|].
  unfold Spec.date_lists in Hall. rewrite fmap_cons, Forall_cons in Hall.
  tauto.
Qed.

(** The last loop gives every ticker one price per common date. *)
Lemma alignedPrices_loop (g : string → list R) tickers
    (alignedPrices : gmap string (list R)) (t : string) :
  for_of tickers (λ ticker alignedPrices,
    <[ticker := g ticker]> alignedPrices) alignedPrices !! t
  = if decide (t ∈ tickers) then Some (g t) else alignedPrices !! t.
Proof.
  revert alignedPrices. induction tickers as [|t' tickers IH]; intros alignedPrices.
  - rewrite for_of_nil, decide_False; [done|]. apply not_elem_of_nil.
  - rewrite for_of_cons, IH. destruct (decide (t ∈ tickers)) as [Hin|Hnin].
    + rewrite decide_True; [done|]. by right.
    + destruct (decide (t = t')) as [->|Hne].
      * rewrite lookup_insert_eq, decide_True; [done|]. by left.
      * rewrite lookup_insert_ne by done. rewrite decide_False; [done|].
        rewrite not_elem_of_cons. done.
Qed.

Lemma alignPriceData_prices pricesMap (t : string) :
  pricesMap ≠ [] →
  alignedPrices (alignPriceData pricesMap) !! t
  = if decide (t ∈ keys pricesMap)
    then Some ((λ d, (dateMaps_of pricesMap !!! t) !!! d)
               <$> dates (alignPriceData pricesMap))
    else None.
Proof.
  intros Hne. unfold alignPriceData. cbv zeta.
  rewrite decide_False by (by destruct pricesMap).
  simpl alignedPrices. simpl dates.
  rewrite (alignedPrices_loop (λ ticker,
    for_of (merge_sort Z.le
              (commonDates_of (dateMaps_of pricesMap) (keys pricesMap)
                 (default [] (get pricesMap (keys pricesMap !!! 0)))))
      (λ date prices, push prices ((dateMaps_of pricesMap !!! ticker) !!! date)) [])).
  case_decide; [|apply lookup_empty]. f_equal.
  exact (for_of_push_fmap (λ d, (dateMaps_of pricesMap !!! t) !!! d) _ []).
Qed.
(** Every price written by the last loop is read from the data: the
    two [get] calls marked [!] in the source never miss. *)
Lemma dateMap_loop_lookup data (dateMap : gmap Z R) (d : Z) (p : R) :
  for_of data (λ point dateMap,
    <[point.(date) := point.(adjClose)]> dateMap) dateMap !! d = Some p →
  (∃ point, point ∈ data ∧ date point = d ∧ adjClose point = p) ∨ dateMap !! d = Some p.
Proof.
  revert dateMap. induction data as [|point data IH]; intros dateMap Hp; [by right|].
  rewrite for_of_cons in Hp. apply IH in Hp as [(point' & Hin & Hd & Hprice)|Hp].
  - left. exists point'. split; [by right|done].
  - destruct (decide (date point = d)) as [Heq|Hne].
    + rewrite Heq, lookup_insert_eq in Hp. injection Hp as Hp.
      left. exists point. split; [by left|done].
    + rewrite lookup_insert_ne in Hp by done. by right.
Qed.

Lemma alignPriceData_prices_from_data pricesMap (t : string) data prices (k : nat) (d : Z) :
  wf pricesMap → (t, data) ∈ pricesMap →
  alignedPrices (alignPriceData pricesMap) !! t = Some prices →
  dates (alignPriceData pricesMap) !! k = Some d →
  ∃ point, point ∈ data ∧ date point = d ∧ prices !! k = Some (adjClose point).
Proof.
  intros Hwf Hin Hprices Hd.
  assert (pricesMap ≠ []) as Hne by (intros ->; by apply elem_of_nil in Hin).
  rewrite (alignPriceData_prices pricesMap t Hne) in Hprices.
  case_decide; [|done]. injection Hprices as <-.
  assert (d ∈ dates (alignPriceData pricesMap)) as Hmem
    by (apply list_elem_of_lookup; eauto).
  rewrite (alignPriceData_dates pricesMap Hwf) in Hmem.
  pose proof (proj1 (common_dates_elem_of pricesMap d Hne) Hmem t data Hin) as Hhas.
  apply dateMap_of_dates in Hhas as [p Hp].
  pose proof (dateMaps_of_lookup pricesMap t data Hwf Hin) as Hmap.
  destruct (dateMap_loop_lookup data ∅ d p Hp) as [(point & Hpoint & Hdate & Hprice)|Hempty].
  - exists point. split; [done|]. split; [done|].
    rewrite list_lookup_fmap, Hd. simpl. f_equal.
    rewrite (lookup_total_correct _ _ _ Hmap).
    rewrite (lookup_total_correct _ _ _ Hp). done.
  - by rewrite lookup_empty in Hempty.
Qed.
End alignment.

Example alignPriceData_example :
  let pricesMap :=
    [ ("AAPL", [ {| date := 3; adjClose := 12 |}; {| date := 1; adjClose := 10 |};
                 {| date := 2; adjClose := 11 |} ]);
      ("MSFT", [ {| date := 2; adjClose := 21 |}; {| date := 3; adjClose := 22 |};
                 {| date := 4; adjClose := 23 |} ]) ] in
  Yahoo.dates (Yahoo.alignPriceData pricesMap) = [2; 3]%Z ∧
  Yahoo.alignedPrices (Yahoo.alignPriceData pricesMap) !! "AAPL" = Some [11; 12]%R ∧
  Yahoo.alignedPrices (Yahoo.alignPriceData pricesMap) !! "MSFT" = Some [21; 22]%R.
Proof. repeat split; vm_compute; reflexivity. Qed.

(** C8.  For every well-formed input map, [alignPriceData] returns a
    date list sorted ascending and, for exactly the input tickers, a
    price array as long as the date list; for no ticker the result is
    empty; a date is retained exactly when every ticker has it, and the
    date list is a function of the tickers' dates alone, not of the
    prices. *)
Theorem alignPriceData_aligned (pricesMap : list (string * list HistoricalData)) :
  Yahoo.wf pricesMap →
  let result := Yahoo.alignPriceData pricesMap in
  StronglySorted Z.le (Yahoo.dates result) ∧
  (∀ t, t ∈ Yahoo.keys pricesMap ↔ is_Some (Yahoo.alignedPrices result !! t)) ∧
  (∀ t prices, Yahoo.alignedPrices result !! t = Some prices →
     length prices = length (Yahoo.dates result)) ∧
  (pricesMap = [] → Yahoo.dates result = [] ∧ Yahoo.alignedPrices result = ∅) ∧
  (pricesMap ≠ [] →
     ∀ d, d ∈ Yahoo.dates result
          ↔ ∀ t data, (t, data) ∈ pricesMap → d ∈ date <$> data) ∧
  Yahoo.dates result = Spec.common_dates (Spec.date_lists pricesMap).
Proof.
  intros Hwf result. unfold result. clear result.
  pose proof (alignPriceData_dates pricesMap Hwf) as Hdates.
  destruct pricesMap as [|[t0 data0] rest].
  { assert (Yahoo.alignPriceData []
            = {| Yahoo.dates := []; Yahoo.alignedPrices := ∅ |}) as -> by reflexivity.
    simpl. repeat split; try done.
    - constructor.
    - intros Ht. by apply elem_of_nil in Ht.
    - intros [x Hx]. by rewrite lookup_empty in Hx. }
  set (pricesMap := (t0, data0) :: rest) in *.
  assert (pricesMap ≠ []) as Hne by done.
  split; [|split; [|split; [|split; [|split]]]].
  - rewrite Hdates. apply StronglySorted_merge_sort; apply _.
  - intros t. rewrite (alignPriceData_prices pricesMap t Hne).
    case_decide; split; done.
  - intros t prices. rewrite (alignPriceData_prices pricesMap t Hne).
    case_decide; [|done]. intros [= <-]. by rewrite length_fmap.
  - done.
  - intros _ d. rewrite Hdates. by apply common_dates_elem_of.
  - done.
Qed.

Lemma alignPriceData_aligned_witness :
  Yahoo.dates (Yahoo.alignPriceData
    [ ("AAPL", [ {| date := 3; adjClose := 12%R |}; {| date := 1; adjClose := 10%R |} ]);
      ("MSFT", [ {| date := 3; adjClose := 22%R |}; {| date := 4; adjClose := 23%R |} ]) ])
  = Spec.common_dates [ ("AAPL", [3; 1]%Z); ("MSFT", [3; 4]%Z) ].
Proof.
  apply (alignPriceData_aligned
    [ ("AAPL", [ {| date := 3; adjClose := 12%R |}; {| date := 1; adjClose := 10%R |} ]);
      ("MSFT", [ {| date := 3; adjClose := 22%R |}; {| date := 4; adjClose := 23%R |} ]) ]).
  unfold Yahoo.wf. simpl. apply NoDup_cons. split.
  - apply not_elem_of_cons. split; [done|apply not_elem_of_nil].
  - apply NoDup_singleton.
Defined.

(** * Further properties of the library and its callers *)

(** ** Sums *)

Section sums.
Local Open Scope R_scope.

Lemma foldl_Rplus_acc (a : R) (l : list R) : foldl Rplus a l = a + Spec.Rsum l.
Proof.
  unfold Spec.Rsum. revert a. induction l as [|x l IH]; intros a; simpl; [lra|].
  rewrite (IH (a + x)), (IH (0 + x)). lra.
Qed.

Lemma Rsum_nil : Spec.Rsum [] = 0.
Proof. reflexivity. Qed.

Lemma Rsum_cons (x : R) (l : list R) : Spec.Rsum (x :: l) = x + Spec.Rsum l.
Proof. unfold Spec.Rsum at 1. simpl. rewrite foldl_Rplus_acc. lra. Qed.

Lemma Rsum_app (l k : list R) : Spec.Rsum (l ++ k) = Spec.Rsum l + Spec.Rsum k.
Proof.
  induction l as [|x l IH]; simpl; [rewrite Rsum_nil; lra|].
  rewrite !Rsum_cons, IH. lra.
Qed.

Lemma Rsum_snoc (l : list R) (x : R) : Spec.Rsum (l ++ [x]) = Spec.Rsum l + x.
Proof. rewrite Rsum_app, Rsum_cons, Rsum_nil. lra. Qed.

Lemma Rsum_nonneg (l : list R) : (∀ x, x ∈ l → 0 <= x) → 0 <= Spec.Rsum l.
Proof.
  induction l as [|x l IH]; intros Hall; [rewrite Rsum_nil; lra|].
  rewrite Rsum_cons. assert (0 <= x) by (apply Hall; left).
  assert (0 <= Spec.Rsum l) by (apply IH; intros y Hy; apply Hall; by right). lra.
Qed.

Lemma Rsum_fmap_scal {A} (c : R) (f : A → R) (l : list A) :
  Spec.Rsum ((λ x, c * f x) <$> l) = c * Spec.Rsum (f <$> l).
Proof.
  induction l as [|x l IH]; [simpl; rewrite Rsum_nil; lra|].
  rewrite !fmap_cons, !Rsum_cons, IH. lra.
Qed.

Lemma Rsum_fmap_plus {A} (f g : A → R) (l : list A) :
  Spec.Rsum ((λ x, f x + g x) <$> l) = Spec.Rsum (f <$> l) + Spec.Rsum (g <$> l).
Proof.
  induction l as [|x l IH]; [simpl; rewrite !Rsum_nil; lra|].
  rewrite !fmap_cons, !Rsum_cons, IH. lra.
Qed.

Lemma Rsum_fmap_ext {A} (f g : A → R) (l : list A) :
  (∀ x, x ∈ l → f x = g x) → Spec.Rsum (f <$> l) = Spec.Rsum (g <$> l).
Proof.
  induction l as [|x l IH]; intros Hext; [done|].
  rewrite !fmap_cons, !Rsum_cons, (Hext x) by left.
  rewrite IH; [done|]. intros y Hy. apply Hext. by right.
Qed.

Lemma Rsum_fmap_const {A} (c : R) (l : list A) :
  Spec.Rsum ((λ _, c) <$> l) = INR (length l) * c.
Proof.
  induction l as [|x l IH]; [simpl; rewrite Rsum_nil; lra|].
  rewrite fmap_cons, Rsum_cons, IH.
  change (length (x :: l)) with (Datatypes.S (length l)). rewrite S_INR. lra.
Qed.

Lemma Rsum_Permutation (l k : list R) : l ≡ₚ k → Spec.Rsum l = Spec.Rsum k.
Proof.
  induction 1 as [|x l k _ IH|x y l|l k m _ IH1 _ IH2].
  - done.
  - by rewrite !Rsum_cons, IH.
  - rewrite !Rsum_cons. lra.
  - by rewrite IH1.
Qed.

(** A counted loop that adds [f i] is the sum of [f] over the range. *)
Lemma for_range_sum (f : nat → R) (n : nat) (acc : R) :
  Js.for_range 0 n (λ i sum, sum + f i) acc = acc + Spec.Rsum (f <$> seq 0 n).
Proof.
  unfold Js.for_range. rewrite Nat.sub_0_r, <- foldl_Rplus_acc, foldl_fmap. done.
Qed.

Lemma INR_minus_1_pos (n : nat) : (2 ≤ n)%nat → 0 < INR n - 1.
Proof. intros Hn. apply le_INR in Hn. simpl in Hn. lra. Qed.
End sums.

(** ** Standard deviation and the diagonal of the covariance matrix *)

Section deviation.
Import Js Finance.
Local Open Scope R_scope.

Lemma stdDev_sqrt_covariance (values : list R) :
  stdDev values = sqrt (covariance values values).
Proof.
  unfold stdDev. rewrite covariance_overlap, Nat.min_id.
  case_decide as Hn; [by rewrite sqrt_0|]. cbv zeta.
  rewrite take_ge by lia. f_equal. unfold Spec.sample_covariance. f_equal.
  rewrite mean_arithmetic by (intros ->; simpl in Hn; lia).
  rewrite zip_with_diag. apply Rsum_fmap_ext. intros x _. simpl. lra.
Qed.

Lemma covariance_self_nonneg (values : list R) : 0 <= covariance values values.
Proof.
  rewrite covariance_overlap, Nat.min_id. case_decide as Hn; [lra|].
  rewrite take_ge by lia. unfold Spec.sample_covariance.
  apply Rmult_le_pos.
  - rewrite zip_with_diag. apply Rsum_nonneg.
    intros y (x & -> & _)%list_elem_of_fmap. apply Rle_0_sqr.
  - apply Rlt_le, Rinv_0_lt_compat, INR_minus_1_pos. lia.
Qed.

Lemma annualizeVolatility_stdDev_sqr (values : list R) :
  (annualizeVolatility (stdDev values))² = covariance values values * TRADING_DAYS_PER_YEAR.
Proof.
  unfold annualizeVolatility. rewrite stdDev_sqrt_covariance. unfold Rsqr.
  pose proof (sqrt_sqrt _ (covariance_self_nonneg values)) as Hc.
  assert (0 <= TRADING_DAYS_PER_YEAR) as Hd by (unfold TRADING_DAYS_PER_YEAR; lra).
  pose proof (sqrt_sqrt _ Hd) as Ht. nra.
Qed.
End deviation.

(** X1.  [stdDev] is never negative, its square is the sample
    covariance of the series with itself (the sample variance, which is
    never negative), and it is 0 for fewer than two values. *)
Theorem stdDev_is_root_of_self_covariance (values : list R) :
  (0 <= Finance.stdDev values)%R ∧
  ((Finance.stdDev values)² = Finance.covariance values values)%R ∧
  (0 <= Finance.covariance values values)%R ∧
  (length values < 2 → Finance.stdDev values = 0%R).
Proof.
  split; [|split; [|split]].
  - rewrite stdDev_sqrt_covariance. apply sqrt_pos.
  - rewrite stdDev_sqrt_covariance. unfold Rsqr.
    apply sqrt_sqrt, covariance_self_nonneg.
  - apply covariance_self_nonneg.
  - intros Hn. unfold Finance.stdDev. by rewrite decide_True.
Qed.

(** X2.  The diagonal of the covariance matrix is the annualized
    variance: cell [(i, i)] is the square of the annualized volatility
    [annualizeVolatility (stdDev series_i)] that the route reports for
    the asset. *)
Theorem covariance_diagonal_is_squared_annual_volatility
    (returnsMatrix : gmap string (list R)) (tickers : list string) (i : nat) :
  i < length tickers →
  Spec.cell (Finance.buildCovarianceMatrix returnsMatrix tickers) i i
  = Some (Rsqr (Finance.annualizeVolatility
                  (Finance.stdDev (default [] (returnsMatrix !! (tickers !!! i)))))).
Proof.
  intros Hi. rewrite buildCovarianceMatrix_cell by done.
  by rewrite annualizeVolatility_stdDev_sqr.
Qed.

Lemma covariance_diagonal_is_squared_annual_volatility_witness :
  Spec.cell (Finance.buildCovarianceMatrix
               {[ "AAPL" := [0.01; 0.03; 0.02]%R ]} ["AAPL"]) 0 0
  = Some (Rsqr (Finance.annualizeVolatility (Finance.stdDev [0.01; 0.03; 0.02]%R))).
Proof.
  assert (0 < length ["AAPL"]) as Hi by (simpl; lia).
  exact (covariance_diagonal_is_squared_annual_volatility
           {[ "AAPL" := [0.01; 0.03; 0.02]%R ]} ["AAPL"] 0 Hi).
Defined.

(** ** Portfolio return and volatility *)

Section portfolio.
Import Js Finance.
Local Open Scope R_scope.

Lemma for_range_ext {T} (lo hi : nat) (body1 body2 : nat → T → T) (s : T) :
  (∀ i s, (lo ≤ i < hi)%nat → body1 i s = body2 i s) →
  for_range lo hi body1 s = for_range lo hi body2 s.
Proof.
  intros Hext. unfold for_range.
  assert (∀ i, i ∈ seq lo (hi - lo) → (lo ≤ i < hi)%nat) as Hin
    by (intros i Hi%elem_of_seq; lia).
  revert s Hin. generalize (seq lo (hi - lo)) as l.
  induction l as [|i l IH]; intros s Hin; [done|]. simpl.
  rewrite Hext by (apply Hin; left). apply IH. intros j Hj. apply Hin. by right.
Qed.

Lemma fmap_lookup_total_seq {A B} `{!Inhabited A} (g : A → B) (l : list A) :
  (λ i, g (l !!! i)) <$> seq 0 (length l) = g <$> l.
Proof.
  apply list_eq. intros i. rewrite !list_lookup_fmap.
  destruct (decide (i < length l)%nat) as [Hi|Hi].
  - rewrite lookup_seq_lt by done. simpl.
    by rewrite (list_lookup_lookup_total_lt l i Hi).
  - rewrite lookup_seq_ge, lookup_ge_None_2 by lia. done.
Qed.

Lemma calculatePortfolioReturn_sum (weights assetReturns : list R) :
  length weights = length assetReturns →
  calculatePortfolioReturn weights assetReturns
  = Spec.Rsum (zip_with Rmult weights assetReturns).
Proof.
  intros Hlen. unfold calculatePortfolioReturn. rewrite decide_False by lia.
  rewrite for_range_sum, Rplus_0_l.
  rewrite <- (zip_with_take_seq Rmult weights assetReturns) by lia.
  by rewrite !take_ge by lia.
Qed.

Lemma weighted_sum_bounds (ws ms : list R) (lo hi : R) :
  length ws = length ms →
  (∀ w, w ∈ ws → 0 <= w) →
  (∀ m, m ∈ ms → lo <= m <= hi) →
  lo * Spec.Rsum ws <= Spec.Rsum (zip_with Rmult ws ms) <= hi * Spec.Rsum ws.
Proof.
  revert ms. induction ws as [|w ws IH]; intros [|m ms] Hlen Hw Hm; try done.
  - simpl. rewrite Rsum_nil. lra.
  - simpl. rewrite !Rsum_cons.
    assert (0 <= w) by (apply Hw; left).
    assert (lo <= m <= hi) by (apply Hm; left).
    destruct (IH ms) as [Hlo Hhi].
    + simpl in Hlen. lia.
    + intros w' Hw'. apply Hw. by right.
    + intros m' Hm'. apply Hm. by right.
    + nra.
Qed.

Lemma portfolioVariance_loop (weights : list R) (covMatrix : list (list R)) :
  for_range 0 (length weights) (λ i portfolioVariance,
    for_range 0 (length weights) (λ j portfolioVariance,
      portfolioVariance
      + weights !!! i * weights !!! j * ((covMatrix !!! i) !!! j))
      portfolioVariance) 0
  = Spec.quadratic_form weights covMatrix.
Proof.
  unfold Spec.quadratic_form.
  rewrite (for_range_ext _ _ _
    (λ i pv, pv + Spec.Rsum ((λ j, weights !!! i * weights !!! j
                                   * ((covMatrix !!! i) !!! j))
                             <$> seq 0 (length weights)))).
  - rewrite for_range_sum. lra.
  - intros i pv _. apply for_range_sum.
Qed.

Lemma calculatePortfolioVolatility_quadratic (weights : list R) (covMatrix : list (list R)) :
  weights ≠ [] → length covMatrix = length weights →
  calculatePortfolioVolatility weights covMatrix
  = sqrt (Rmax 0 (Spec.quadratic_form weights covMatrix)).
Proof.
  intros Hne Hlen. unfold calculatePortfolioVolatility. cbv zeta.
  rewrite decide_False by (intros [H0|H1]; [by destruct weights|done]).
  rewrite portfolioVariance_loop. f_equal.
  unfold Rmax. case_decide; destruct (Rle_dec _ _); lra.
Qed.
End portfolio.

(** X3.  [calculatePortfolioReturn] is 0 for vectors of different
    lengths; for equal lengths it is the sum of the products weight x
    return, and with weights that are not negative and sum to 1 it lies
    between any two bounds that enclose all the asset returns. *)
Theorem calculatePortfolioReturn_weighted_average
    (weights assetReturns : list R) (lo hi : R) :
  (length weights ≠ length assetReturns →
     Finance.calculatePortfolioReturn weights assetReturns = 0%R) ∧
  (length weights = length assetReturns →
     Finance.calculatePortfolioReturn weights assetReturns
     = Spec.Rsum (zip_with Rmult weights assetReturns) ∧
     ((∀ w, w ∈ weights → (0 <= w)%R) →
      Spec.Rsum weights = 1%R →
      (∀ m, m ∈ assetReturns → (lo <= m <= hi)%R) →
      (lo <= Finance.calculatePortfolioReturn weights assetReturns <= hi)%R)).
Proof.
  split.
  - intros Hne. unfold Finance.calculatePortfolioReturn. by rewrite decide_True.
  - intros Hlen. split; [by apply calculatePortfolioReturn_sum|].
    intros Hw Hsum Hm. rewrite calculatePortfolioReturn_sum by done.
    pose proof (weighted_sum_bounds weights assetReturns lo hi Hlen Hw Hm) as Hb.
    rewrite Hsum in Hb. lra.
Qed.

Lemma calculatePortfolioReturn_weighted_average_witness :
  (0.05 <= Finance.calculatePortfolioReturn [0.6; 0.4] [0.05; 0.10] <= 0.10)%R.
Proof.
  destruct (calculatePortfolioReturn_weighted_average
              [0.6; 0.4]%R [0.05; 0.10]%R 0.05 0.10) as [_ Heq].
  destruct (Heq eq_refl) as [_ Hbounds]. apply Hbounds.
  - intros w Hw. repeat (apply elem_of_cons in Hw as [->|Hw]; [lra|]).
    by apply elem_of_nil in Hw.
  - unfold Spec.Rsum. simpl. lra.
  - intros m Hm. repeat (apply elem_of_cons in Hm as [->|Hm]; [lra|]).
    by apply elem_of_nil in Hm.
Defined.

(** X4.  [calculatePortfolioVolatility] is 0 for an empty weight vector
    and for a matrix whose number of rows differs from the number of
    weights; for a square matrix of the size of the weight vector it is
    the square root of the quadratic form w' M w, with a negative form
    replaced by 0: it is never negative, and its square is the form
    whenever the form is not negative. *)
Theorem calculatePortfolioVolatility_root_of_clamped_form
    (weights : list R) (covMatrix : list (list R)) :
  (weights = [] ∨ length covMatrix ≠ length weights →
     Finance.calculatePortfolioVolatility weights covMatrix = 0%R) ∧
  (weights ≠ [] → length covMatrix = length weights →
   (∀ row, row ∈ covMatrix → length row = length weights) →
     (0 <= Finance.calculatePortfolioVolatility weights covMatrix)%R ∧
     ((0 <= Spec.quadratic_form weights covMatrix)%R →
        Rsqr (Finance.calculatePortfolioVolatility weights covMatrix)
        = Spec.quadratic_form weights covMatrix) ∧
     ((Spec.quadratic_form weights covMatrix < 0)%R →
        Finance.calculatePortfolioVolatility weights covMatrix = 0%R)).
Proof.
  split.
  - intros Hedge. unfold Finance.calculatePortfolioVolatility.
    rewrite decide_True; [done|].
    destruct Hedge as [->|Hrows]; [by left|by right].
  - intros Hne Hlen _. rewrite calculatePortfolioVolatility_quadratic by done.
    split; [apply sqrt_pos|]. split.
    + intros Hpos. rewrite Rmax_right by done. unfold Rsqr. by apply sqrt_sqrt.
    + intros Hneg. rewrite Rmax_left by lra. apply sqrt_0.
Qed.

Lemma calculatePortfolioVolatility_root_of_clamped_form_witness :
  Rsqr (Finance.calculatePortfolioVolatility
          [0.6; 0.4]%R [[0.04; 0.01]; [0.01; 0.09]]%R) = 0.0336%R.
Proof.
  assert (Spec.quadratic_form [0.6; 0.4]%R [[0.04; 0.01]; [0.01; 0.09]]%R = 0.0336%R)
    as Hq by (unfold Spec.quadratic_form, Spec.Rsum; simpl; lra).
  destruct (calculatePortfolioVolatility_root_of_clamped_form
              [0.6; 0.4]%R [[0.04; 0.01]; [0.01; 0.09]]%R) as (_ & Hsq).
  destruct Hsq as (_ & Hpos & _); [done|done| |].
  - intros row Hrow.
    repeat (apply elem_of_cons in Hrow as [->|Hrow]; [done|]).
    by apply elem_of_nil in Hrow.
  - rewrite <- Hq. apply Hpos. rewrite Hq. lra.
Defined.

(** ** The two routes to the portfolio volatility *)

Section two_routes.
Import Js Finance.
Local Open Scope R_scope.

Lemma Rsum_fmap_zero {A} (l : list A) : Spec.Rsum ((λ _, 0) <$> l) = 0.
Proof. rewrite Rsum_fmap_const. lra. Qed.

Lemma Rsum_swap {A B} (f : A → B → R) (l : list A) (k : list B) :
  Spec.Rsum ((λ x, Spec.Rsum ((λ y, f x y) <$> k)) <$> l)
  = Spec.Rsum ((λ y, Spec.Rsum ((λ x, f x y) <$> l)) <$> k).
Proof.
  induction l as [|a l IH].
  - simpl. rewrite Rsum_nil. symmetry. apply Rsum_fmap_zero.
  - rewrite fmap_cons, Rsum_cons, IH, <- Rsum_fmap_plus.
    apply Rsum_fmap_ext. intros y _. by rewrite fmap_cons, Rsum_cons.
Qed.

Lemma Rsum_mult {A B} (f : A → R) (g : B → R) (l : list A) (k : list B) :
  Spec.Rsum (f <$> l) * Spec.Rsum (g <$> k)
  = Spec.Rsum ((λ x, Spec.Rsum ((λ y, f x * g y) <$> k)) <$> l).
Proof.
  induction l as [|a l IH].
  - simpl. rewrite !Rsum_nil. lra.
  - rewrite !fmap_cons, !Rsum_cons, <- IH, Rsum_fmap_scal. lra.
Qed.

Lemma Rsum_fmap_minus {A} (f g : A → R) (l : list A) :
  Spec.Rsum ((λ x, f x - g x) <$> l) = Spec.Rsum (f <$> l) - Spec.Rsum (g <$> l).
Proof.
  induction l as [|x l IH]; [simpl; rewrite !Rsum_nil; lra|].
  rewrite !fmap_cons, !Rsum_cons, IH. lra.
Qed.

(** The sum over a square of products is the sum of the squared
    column sums. *)
Lemma Rsum_square_swap {A B} (f : A → B → R) (l : list A) (k : list B) :
  Spec.Rsum ((λ t, Spec.Rsum ((λ u,
     Spec.Rsum ((λ d, f t d * f u d) <$> k)) <$> l)) <$> l)
  = Spec.Rsum ((λ d, Spec.Rsum ((λ t, f t d) <$> l)
                     * Spec.Rsum ((λ t, f t d) <$> l)) <$> k).
Proof.
  transitivity (Spec.Rsum ((λ t, Spec.Rsum ((λ d,
     Spec.Rsum ((λ u, f t d * f u d) <$> l)) <$> k)) <$> l)).
  { apply Rsum_fmap_ext. intros t _. apply Rsum_swap. }
  rewrite Rsum_swap. apply Rsum_fmap_ext. intros d _.
  by rewrite (Rsum_mult (λ t, f t d) (λ t, f t d)).
Qed.

Lemma Rsum_lookup_total_seq (l : list R) :
  Spec.Rsum ((λ i, l !!! i) <$> seq 0 (length l)) = Spec.Rsum l.
Proof. by rewrite (fmap_lookup_total_seq (λ x, x) l), list_fmap_id. Qed.

(** [covariance] of two series of one length [L >= 2], day by day. *)
Lemma covariance_same_length (returns1 returns2 : list R) (L : nat) :
  length returns1 = L → length returns2 = L → (2 ≤ L)%nat →
  covariance returns1 returns2
  = Spec.Rsum ((λ d, (returns1 !!! d - Spec.arithmetic_mean returns1)
                     * (returns2 !!! d - Spec.arithmetic_mean returns2))
               <$> seq 0 L) / (INR L - 1).
Proof.
  intros H1 H2 HL. unfold covariance. rewrite H1, H2, Nat.min_id. cbv zeta.
  rewrite decide_False by lia. rewrite !take_ge by lia.
  rewrite for_range_sum, Rplus_0_l.
  rewrite !mean_arithmetic; [done|intros ->..]; simpl in *; lia.
Qed.

Context (returnsMatrix : gmap string (list R)) (weightsMap : gmap string R).
Context (tickers : list string) (L : nat).
Context (Htickers : tickers ≠ []).
Context (Hseries : ∀ t, t ∈ tickers →
                     ∃ s, returnsMatrix !! t = Some s ∧ length s = L).

Local Abbreviation ser := (λ t : string, default [] (returnsMatrix !! t)).
Local Abbreviation wt := (λ t : string, default 0 (weightsMap !! t)).
Local Abbreviation weights := ((λ t : string, default 0 (weightsMap !! t)) <$> tickers).

Lemma ser_length (t : string) : t ∈ tickers → length (ser t) = L.
Proof. intros Ht. destruct (Hseries t Ht) as (s & Hs & Hlen). simpl. by rewrite Hs. Qed.

Lemma quadratic_form_tickers :
  Spec.quadratic_form weights (buildCovarianceMatrix returnsMatrix tickers)
  = Spec.Rsum ((λ t, Spec.Rsum ((λ u,
      wt t * wt u * (covariance (ser t) (ser u) * TRADING_DAYS_PER_YEAR))
      <$> tickers)) <$> tickers).
Proof.
  unfold Spec.quadratic_form.
  assert (length weights = length tickers) as Hlen by apply length_fmap.
  rewrite Hlen.
  assert (∀ i j, (i < length tickers)%nat → (j < length tickers)%nat →
            weights !!! i * weights !!! j
            * ((buildCovarianceMatrix returnsMatrix tickers !!! i) !!! j)
            = wt (tickers !!! i) * wt (tickers !!! j)
              * (covariance (ser (tickers !!! i)) (ser (tickers !!! j))
                 * TRADING_DAYS_PER_YEAR)) as Hcell.
  { intros i j Hi Hj.
    pose proof (buildCovarianceMatrix_cell returnsMatrix tickers i j Hi Hj) as Hc.
    unfold Spec.cell in Hc.
    destruct (buildCovarianceMatrix returnsMatrix tickers !! i) as [row|] eqn:Hrow;
      [|done]. simpl in Hc.
    assert (buildCovarianceMatrix returnsMatrix tickers !!! i = row) as ->
      by (by apply list_lookup_total_correct).
    assert (row !!! j
            = covariance (default [] (returnsMatrix !! (tickers !!! i)))
                         (default [] (returnsMatrix !! (tickers !!! j)))
              * TRADING_DAYS_PER_YEAR) as ->
      by (by apply list_lookup_total_correct).
    rewrite (list_lookup_total_fmap (λ t : string, default 0 (weightsMap !! t)) tickers i)
      by done.
    rewrite (list_lookup_total_fmap (λ t : string, default 0 (weightsMap !! t)) tickers j)
      by done.
    done. }
  transitivity (Spec.Rsum ((λ i, (λ t, Spec.Rsum ((λ u,
      wt t * wt u * (covariance (ser t) (ser u) * TRADING_DAYS_PER_YEAR))
      <$> tickers)) (tickers !!! i)) <$> seq 0 (length tickers))).
  - apply Rsum_fmap_ext. intros i [_ Hi]%elem_of_seq. simpl.
    rewrite <- (fmap_lookup_total_seq (λ u, wt (tickers !!! i) * wt u
      * (covariance (ser (tickers !!! i)) (ser u) * TRADING_DAYS_PER_YEAR)) tickers).
    apply Rsum_fmap_ext. intros j [_ Hj]%elem_of_seq. apply Hcell; lia.
  - by rewrite (fmap_lookup_total_seq (λ t, Spec.Rsum ((λ u,
      wt t * wt u * (covariance (ser t) (ser u) * TRADING_DAYS_PER_YEAR))
      <$> tickers)) tickers).
Qed.

Lemma dailyReturns_days :
  calculatePortfolioDailyReturns returnsMatrix weightsMap tickers
  = (λ d, Spec.Rsum ((λ t, wt t * ser t !!! d) <$> tickers)) <$> seq 0 L.
Proof.
  rewrite calculatePortfolioDailyReturns_fmap.
  assert (Spec.minimum (Spec.series_lengths returnsMatrix tickers) = L) as ->.
  { assert (Spec.series_lengths returnsMatrix tickers ≠ []) as Hne.
    { destruct tickers as [|t ts]; [done|].
      destruct (Hseries t) as (s & Hs & _); [by left|].
      unfold Spec.series_lengths. simpl. by rewrite Hs. }
    pose proof (minimum_elem_of _ Hne) as Hin.
    apply list_elem_of_omap in Hin as (t & Ht & Hlen).
    destruct (Hseries t Ht) as (s & Hs & HL). rewrite Hs in Hlen. simpl in Hlen.
    injection Hlen as <-. done. }
  apply list_fmap_ext. intros i d Hd. apply lookup_seq in Hd as [-> Hi]. simpl.
  rewrite dailyReturn_at_sum. apply Rsum_fmap_ext. intros t Ht.
  destruct (Hseries t Ht) as (s & Hs & HL). unfold Spec.contribution.
  rewrite Hs. simpl. by rewrite (list_lookup_lookup_total_lt s i) by lia.
Qed.
Local Abbreviation dev :=
  (λ (t : string) (d : nat),
     default 0 (weightsMap !! t)
     * (default [] (returnsMatrix !! t) !!! d
        - Spec.arithmetic_mean (default [] (returnsMatrix !! t)))).
Local Abbreviation daily :=
  (calculatePortfolioDailyReturns returnsMatrix weightsMap tickers).

Lemma dailyReturns_length : length daily = L.
Proof. by rewrite dailyReturns_days, length_fmap, length_seq. Qed.

Lemma dailyReturns_lookup (d : nat) :
  (d < L)%nat → daily !!! d = Spec.Rsum ((λ t, wt t * ser t !!! d) <$> tickers).
Proof.
  intros Hd. apply list_lookup_total_correct.
  by rewrite dailyReturns_days, list_lookup_fmap, lookup_seq_lt.
Qed.

Lemma dailyReturns_mean :
  Spec.arithmetic_mean daily
  = Spec.Rsum ((λ t, wt t * Spec.arithmetic_mean (ser t)) <$> tickers).
Proof.
  unfold Spec.arithmetic_mean at 1. rewrite dailyReturns_length.
  rewrite dailyReturns_days.
  rewrite (Rsum_swap (λ d t, wt t * ser t !!! d) (seq 0 L) tickers).
  unfold Rdiv. rewrite Rmult_comm, <- Rsum_fmap_scal.
  apply Rsum_fmap_ext. intros t Ht. rewrite Rsum_fmap_scal.
  assert (Spec.Rsum ((λ d, ser t !!! d) <$> seq 0 L) = Spec.Rsum (ser t)) as ->
    by (rewrite <- (ser_length t Ht); apply Rsum_lookup_total_seq).
  unfold Spec.arithmetic_mean, Rdiv. rewrite (ser_length t Ht). lra.
Qed.

Lemma dailyReturns_deviation (d : nat) :
  (d < L)%nat →
  daily !!! d - Spec.arithmetic_mean daily = Spec.Rsum ((λ t, dev t d) <$> tickers).
Proof.
  intros Hd. rewrite dailyReturns_lookup by done. rewrite dailyReturns_mean.
  rewrite <- Rsum_fmap_minus. apply Rsum_fmap_ext. intros t _. lra.
Qed.

Lemma dailyReturns_covariance :
  (2 ≤ L)%nat →
  covariance daily daily
  = Spec.Rsum ((λ d, Spec.Rsum ((λ t, dev t d) <$> tickers)
                     * Spec.Rsum ((λ t, dev t d) <$> tickers)) <$> seq 0 L)
    / (INR L - 1).
Proof.
  intros HL.
  rewrite (covariance_same_length daily daily L dailyReturns_length dailyReturns_length HL).
  f_equal. apply Rsum_fmap_ext. intros d [_ Hd]%elem_of_seq.
  by rewrite dailyReturns_deviation by lia.
Qed.

Lemma quadratic_form_days :
  (2 ≤ L)%nat →
  Spec.quadratic_form weights (buildCovarianceMatrix returnsMatrix tickers)
  = covariance daily daily * TRADING_DAYS_PER_YEAR.
Proof.
  intros HL. rewrite quadratic_form_tickers, dailyReturns_covariance by done.
  rewrite <- Rsum_square_swap.
  pose proof (INR_minus_1_pos L HL) as Hpos.
  transitivity (Spec.Rsum ((λ t, Spec.Rsum ((λ u,
      (TRADING_DAYS_PER_YEAR / (INR L - 1))
      * Spec.Rsum ((λ d, dev t d * dev u d) <$> seq 0 L)) <$> tickers)) <$> tickers)).
  - apply Rsum_fmap_ext. intros t Ht. apply Rsum_fmap_ext. intros u Hu.
    rewrite (covariance_same_length (ser t) (ser u) L
               (ser_length t Ht) (ser_length u Hu) HL).
    rewrite (Rsum_fmap_ext (λ d, dev t d * dev u d)
               (λ d, (wt t * wt u)
                     * ((ser t !!! d - Spec.arithmetic_mean (ser t))
                        * (ser u !!! d - Spec.arithmetic_mean (ser u)))))
      by (intros d _; lra).
    rewrite Rsum_fmap_scal. field. lra.
  - rewrite (Rsum_fmap_ext _ (λ t, (TRADING_DAYS_PER_YEAR / (INR L - 1))
      * Spec.Rsum ((λ u, Spec.Rsum ((λ d, dev t d * dev u d) <$> seq 0 L))
                   <$> tickers)))
      by (intros t _; apply Rsum_fmap_scal).
    rewrite Rsum_fmap_scal. field. lra.
Qed.

Lemma two_routes_agree :
  calculatePortfolioVolatility weights (buildCovarianceMatrix returnsMatrix tickers)
  = annualizeVolatility (stdDev daily).
Proof.
  assert (weights ≠ []) as Hw by (by destruct tickers).
  assert (length (buildCovarianceMatrix returnsMatrix tickers) = length weights) as Hrows
    by (by rewrite buildCovarianceMatrix_cells, !length_fmap, length_seq).
  rewrite calculatePortfolioVolatility_quadratic by done.
  unfold annualizeVolatility. rewrite stdDev_sqrt_covariance.
  assert (0 <= TRADING_DAYS_PER_YEAR) as Hd by (unfold TRADING_DAYS_PER_YEAR; lra).
  rewrite <- sqrt_mult by (done || apply covariance_self_nonneg). f_equal.
  destruct (decide (2 ≤ L)%nat) as [HL|HL].
  - rewrite quadratic_form_days by done. apply Rmax_right.
    apply Rmult_le_pos; [apply covariance_self_nonneg|done].
  - assert (covariance daily daily = 0) as ->.
    { rewrite covariance_overlap, dailyReturns_length, Nat.min_id.
      by rewrite decide_True by lia. }
    rewrite quadratic_form_tickers.
    rewrite (Rsum_fmap_ext _ (λ _, 0)).
    + rewrite Rsum_fmap_zero, Rmult_0_l. apply Rmax_left. lra.
    + intros t Ht. rewrite (Rsum_fmap_ext _ (λ _, 0)); [apply Rsum_fmap_zero|].
      intros u Hu. rewrite covariance_overlap.
      rewrite (ser_length t Ht), (ser_length u Hu), Nat.min_id.
      rewrite decide_True by lia. lra.
Qed.
End two_routes.

(** X5.  The two routes to the portfolio volatility agree.  When every
    listed ticker has a return series and all series have one length,
    the volatility that [calculatePortfolioVolatility] takes from the
    covariance matrix, with the weight vector the route builds from the
    weights map, is the annualized standard deviation of the daily
    return series of [calculatePortfolioDailyReturns]; the quadratic
    form is then never negative, so the clamp of the variance is not
    used. *)
Theorem matrix_volatility_is_volatility_of_daily_returns
    (returnsMatrix : gmap string (list R)) (weightsMap : gmap string R)
    (tickers : list string) (L : nat) :
  tickers ≠ [] →
  (∀ t, t ∈ tickers → ∃ s, returnsMatrix !! t = Some s ∧ length s = L) →
  let weights := (λ t, default 0%R (weightsMap !! t)) <$> tickers in
  let covMatrix := Finance.buildCovarianceMatrix returnsMatrix tickers in
  let daily := Finance.calculatePortfolioDailyReturns returnsMatrix weightsMap tickers in
  Finance.calculatePortfolioVolatility weights covMatrix
  = Finance.annualizeVolatility (Finance.stdDev daily) ∧
  (0 <= Spec.quadratic_form weights covMatrix)%R.
Proof.
  intros Hne Hseries weights covMatrix daily. split.
  - by apply (two_routes_agree returnsMatrix weightsMap tickers L).
  - destruct (decide (2 ≤ L)) as [HL|HL].
    + unfold weights, covMatrix.
      rewrite (quadratic_form_days returnsMatrix weightsMap tickers L) by done.
      apply Rmult_le_pos; [apply covariance_self_nonneg|].
      unfold Finance.TRADING_DAYS_PER_YEAR. lra.
    + unfold weights, covMatrix.
      rewrite (quadratic_form_tickers returnsMatrix weightsMap tickers).
      apply Rsum_nonneg. intros x (t & -> & Ht)%list_elem_of_fmap.
      apply Rsum_nonneg. intros y (u & -> & Hu)%list_elem_of_fmap.
      rewrite covariance_overlap.
      rewrite (ser_length returnsMatrix tickers L Hseries t Ht).
      rewrite (ser_length returnsMatrix tickers L Hseries u Hu).
      rewrite Nat.min_id, decide_True by lia. lra.
Qed.

Lemma matrix_volatility_is_volatility_of_daily_returns_witness :
  Finance.calculatePortfolioVolatility
    ((λ t, default 0%R (({[ "AAPL" := 0.6%R; "MSFT" := 0.4%R ]} : gmap string R) !! t))
       <$> ["AAPL"; "MSFT"])
    (Finance.buildCovarianceMatrix
       {[ "AAPL" := [0.01; 0.03]%R; "MSFT" := [0.02; 0.01]%R ]} ["AAPL"; "MSFT"])
  = Finance.annualizeVolatility
      (Finance.stdDev
         (Finance.calculatePortfolioDailyReturns
            {[ "AAPL" := [0.01; 0.03]%R; "MSFT" := [0.02; 0.01]%R ]}
            {[ "AAPL" := 0.6%R; "MSFT" := 0.4%R ]} ["AAPL"; "MSFT"])).
Proof.
  apply (matrix_volatility_is_volatility_of_daily_returns
           {[ "AAPL" := [0.01; 0.03]%R; "MSFT" := [0.02; 0.01]%R ]}
           {[ "AAPL" := 0.6%R; "MSFT" := 0.4%R ]} ["AAPL"; "MSFT"] 2).
  - done.
  - intros t Ht. apply elem_of_cons in Ht as [->|Ht]; [by eexists|].
    apply elem_of_cons in Ht as [->|Ht]; [by eexists|].
    by apply elem_of_nil in Ht.
Defined.

(** ** Maximum drawdown *)

Section max_drawdown.
Import Js Finance.
Local Open Scope R_scope.

Lemma foldl_Rmin_le_init (m : R) (l : list R) : foldl Rmin m l <= m.
Proof.
  revert m. induction l as [|x l IH]; intros m; simpl; [lra|].
  etrans; [apply IH|apply Rmin_l].
Qed.

Lemma foldl_Rmin_le (m : R) (l : list R) (x : R) : x ∈ l → foldl Rmin m l <= x.
Proof.
  revert m. induction l as [|y l IH]; intros m Hx; [by apply elem_of_nil in Hx|].
  apply elem_of_cons in Hx as [->|Hx]; simpl.
  - etrans; [apply foldl_Rmin_le_init|apply Rmin_r].
  - by apply IH.
Qed.

Lemma foldl_Rmin_attained (m : R) (l : list R) :
  foldl Rmin m l = m ∨ foldl Rmin m l ∈ l.
Proof.
  revert m. induction l as [|y l IH]; intros m; simpl; [by left|].
  destruct (IH (Rmin m y)) as [Heq|Hin]; [|by right; right].
  rewrite Heq. unfold Rmin. destruct (Rle_dec m y); [by left|right; left].
Qed.

Lemma calculateMaxDrawdown_min (values : list R) :
  values ≠ [] →
  calculateMaxDrawdown values ∈ calculateDrawdownSeries values ∧
  ∀ d, d ∈ calculateDrawdownSeries values → calculateMaxDrawdown values <= d.
Proof.
  intros Hne. unfold calculateMaxDrawdown.
  pose proof (calculateDrawdownSeries_length values) as Hlen.
  destruct (calculateDrawdownSeries values) as [|d0 ds].
  { destruct values; [done|]. simpl in Hlen. lia. }
  split.
  - destruct (foldl_Rmin_attained d0 ds) as [->|Hin]; [left|by right].
  - intros d [->|Hd]%elem_of_cons; [apply foldl_Rmin_le_init|by apply foldl_Rmin_le].
Qed.

Lemma drawdown_entry_range (values : list R) (d : R) :
  (∀ v, v ∈ values → 0 < v) →
  d ∈ calculateDrawdownSeries values → -1 < d <= 0.
Proof.
  intros Hpos [i Hd]%list_elem_of_lookup.
  rewrite calculateDrawdownSeries_lookup in Hd.
  destruct (values !! i) as [v|] eqn:Hv; [|done]. injection Hd as <-.
  pose proof (lookup_lt_Some _ _ _ Hv) as Hi.
  pose proof (running_max_pos values i Hpos Hi) as Hm.
  pose proof (running_max_ge values i i v (le_n i) Hv) as Hle.
  assert (0 < v) as Hvpos by (apply Hpos, list_elem_of_lookup; eauto).
  assert (0 < / Spec.running_max values i) as Hinv by by apply Rinv_0_lt_compat.
  assert (v / Spec.running_max values i <= 1).
  { apply (Rmult_le_reg_r (Spec.running_max values i)); [done|].
    unfold Rdiv. rewrite Rmult_assoc, Rinv_l by lra. lra. }
  assert (0 < v / Spec.running_max values i)
    by (unfold Rdiv; by apply Rmult_lt_0_compat).
  lra.
Qed.

Lemma drawdown_entry_zero_iff (values : list R) (i : nat) (v : R) :
  (∀ v, v ∈ values → 0 < v) → values !! i = Some v →
  v / Spec.running_max values i - 1 = 0
  ↔ ∀ j w, (j ≤ i)%nat → values !! j = Some w → w <= v.
Proof.
  intros Hpos Hv. pose proof (lookup_lt_Some _ _ _ Hv) as Hi.
  pose proof (running_max_pos values i Hpos Hi) as Hm.
  pose proof (running_max_ge values i i v (le_n i) Hv) as Hle.
  assert (v / Spec.running_max values i - 1 = 0 ↔ v = Spec.running_max values i)
    as ->.
  { split.
    - intros Hz. assert (v / Spec.running_max values i = 1) as H1 by lra.
      apply (f_equal (λ x, x * Spec.running_max values i)) in H1.
      unfold Rdiv in H1. rewrite Rmult_assoc, Rinv_l in H1 by lra. lra.
    - intros Heq. rewrite <- Heq in Hm |- *. unfold Rdiv. rewrite Rinv_r; lra. }
  split.
  - intros -> j w Hj Hw. by apply (running_max_ge values i j).
  - intros Hall. destruct (running_max_attained values i Hi) as (j & Hj & Hw).
    specialize (Hall j _ Hj Hw). lra.
Qed.

Lemma Sorted_Rle_of_lookup (l : list R) :
  (∀ i a b, l !! i = Some a → l !! Datatypes.S i = Some b → a <= b) → Sorted Rle l.
Proof.
  induction l as [|x l IH]; intros Hadj; [constructor|].
  constructor.
  - apply IH. intros i a b Ha Hb. apply (Hadj (Datatypes.S i)); done.
  - destruct l as [|y l]; constructor. by apply (Hadj 0%nat).
Qed.

Lemma StronglySorted_Rle_lookup (l : list R) (i j : nat) (a b : R) :
  StronglySorted Rle l → (i ≤ j)%nat → l !! i = Some a → l !! j = Some b → a <= b.
Proof.
  intros Hsorted. revert i j.
  induction Hsorted as [|x l _ IH Hall]; intros i j Hij Ha Hb; [done|].
  destruct i as [|i], j as [|j]; simpl in *; try lia.
  - injection Ha as ->. injection Hb as ->. lra.
  - injection Ha as ->. rewrite Forall_forall in Hall.
    apply Hall, list_elem_of_lookup. eauto.
  - apply (IH i j); [lia|done..].
Qed.

Lemma calculateMaxDrawdown_zero_iff_sorted (values : list R) :
  (∀ v, v ∈ values → 0 < v) →
  calculateMaxDrawdown values = 0 ↔ Sorted Rle values.
Proof.
  intros Hpos. destruct (decide (values = [])) as [->|Hne].
  { split; [constructor|done]. }
  destruct (calculateMaxDrawdown_min values Hne) as [Hin Hmin].
  split.
  - intros Hzero. apply Sorted_Rle_of_lookup. intros i a b Ha Hb.
    assert (calculateDrawdownSeries values !! Datatypes.S i
            = Some (b / Spec.running_max values (Datatypes.S i) - 1)) as Hd
      by (by rewrite calculateDrawdownSeries_lookup, Hb).
    assert (b / Spec.running_max values (Datatypes.S i) - 1 = 0) as Hz.
    { assert (b / Spec.running_max values (Datatypes.S i) - 1
              ∈ calculateDrawdownSeries values) as Hmem
        by (apply list_elem_of_lookup; eauto).
      pose proof (Hmin _ Hmem). pose proof (drawdown_entry_range _ _ Hpos Hmem). lra. }
    pose proof (proj1 (drawdown_entry_zero_iff values (Datatypes.S i) b Hpos Hb) Hz)
      as Hall.
    apply (Hall i a); [lia|done].
  - intros Hsorted.
    apply (@Sorted_StronglySorted R Rle Rle_trans) in Hsorted.
    apply list_elem_of_lookup in Hin as [i Hi].
    rewrite calculateDrawdownSeries_lookup in Hi.
    destruct (values !! i) as [v|] eqn:Hv; [|done]. injection Hi as Hi.
    rewrite <- Hi. apply (drawdown_entry_zero_iff values i v Hpos Hv).
    intros j w Hj Hw. by apply (StronglySorted_Rle_lookup values j i).
Qed.
End max_drawdown.

(** X6.  [calculateMaxDrawdown] is 0 for the empty list; for a
    non-empty list it is an entry of the drawdown series and no entry is
    smaller; for positive values it lies in (-1, 0]. *)
Theorem calculateMaxDrawdown_least_drawdown (values : list R) :
  (values = [] → Finance.calculateMaxDrawdown values = 0%R) ∧
  (values ≠ [] →
     Finance.calculateMaxDrawdown values ∈ Finance.calculateDrawdownSeries values ∧
     ∀ d, d ∈ Finance.calculateDrawdownSeries values →
          (Finance.calculateMaxDrawdown values <= d)%R) ∧
  ((∀ v, v ∈ values → (0 < v)%R) →
     (-1 < Finance.calculateMaxDrawdown values <= 0)%R).
Proof.
  split; [by intros ->|]. split; [apply calculateMaxDrawdown_min|].
  intros Hpos. destruct (decide (values = [])) as [->|Hne].
  - unfold Finance.calculateMaxDrawdown. simpl. lra.
  - destruct (calculateMaxDrawdown_min values Hne) as [Hin _].
    by apply (drawdown_entry_range values).
Qed.

Lemma calculateMaxDrawdown_least_drawdown_witness :
  (-1 < Finance.calculateMaxDrawdown [1; 1.1; 0.9; 1.2]%R <= 0)%R.
Proof.
  apply (calculateMaxDrawdown_least_drawdown [1; 1.1; 0.9; 1.2]%R).
  intros v Hv. repeat (apply elem_of_cons in Hv as [->|Hv]; [lra|]).
  by apply elem_of_nil in Hv.
Defined.

(** X7.  For positive values the maximum drawdown is 0 exactly when the
    values never fall: when the list is non-decreasing. *)
Theorem calculateMaxDrawdown_zero_iff_never_falls (values : list R) :
  (∀ v, v ∈ values → (0 < v)%R) →
  Finance.calculateMaxDrawdown values = 0%R ↔ Sorted Rle values.
Proof. apply calculateMaxDrawdown_zero_iff_sorted. Qed.

Lemma calculateMaxDrawdown_zero_iff_never_falls_witness :
  Finance.calculateMaxDrawdown [1; 1.1; 1.1; 1.2]%R = 0%R.
Proof.
  apply (calculateMaxDrawdown_zero_iff_never_falls [1; 1.1; 1.1; 1.2]%R).
  - intros v Hv. repeat (apply elem_of_cons in Hv as [->|Hv]; [lra|]).
    by apply elem_of_nil in Hv.
  - repeat constructor; lra.
Defined.

(** ** Concentration *)

Section concentration.
Import Js Finance.
Local Open Scope R_scope.

Lemma calculateHHI_sum (weights : list R) :
  calculateHHI weights = Spec.Rsum ((λ w, w * w) <$> weights).
Proof. unfold calculateHHI, Spec.Rsum. by rewrite foldl_fmap. Qed.

Lemma squared_distance_sum (weights : list R) (c : R) :
  Spec.Rsum ((λ w, (w - c) * (w - c)) <$> weights)
  = calculateHHI weights - 2 * c * Spec.Rsum weights + INR (length weights) * (c * c).
Proof.
  rewrite calculateHHI_sum. induction weights as [|w ws IH].
  - simpl. rewrite !Rsum_nil. lra.
  - rewrite !fmap_cons, !Rsum_cons, IH.
    change (length (w :: ws)) with (Datatypes.S (length ws)). rewrite S_INR. lra.
Qed.

Lemma Rsum_zero_nonneg (l : list R) :
  (∀ x, x ∈ l → 0 <= x) → Spec.Rsum l = 0 → ∀ x, x ∈ l → x = 0.
Proof.
  induction l as [|y l IH]; intros Hall Hsum x Hx; [by apply elem_of_nil in Hx|].
  rewrite Rsum_cons in Hsum.
  assert (0 <= y) by (apply Hall; left).
  assert (0 <= Spec.Rsum l) by (apply Rsum_nonneg; intros z Hz; apply Hall; by right).
  apply elem_of_cons in Hx as [->|Hx]; [lra|].
  apply IH; [intros z Hz; apply Hall; by right|lra|done].
Qed.

Lemma INR_length_pos (weights : list R) : weights ≠ [] → 0 < INR (length weights).
Proof. intros Hne. apply lt_0_INR. destruct weights; [done|simpl; lia]. Qed.

Lemma calculateHHI_lower (weights : list R) :
  weights ≠ [] → Spec.Rsum weights = 1 →
  1 / INR (length weights) <= calculateHHI weights.
Proof.
  intros Hne Hsum. pose proof (INR_length_pos weights Hne) as Hn.
  pose proof (squared_distance_sum weights (1 / INR (length weights))) as Hd.
  assert (0 <= Spec.Rsum ((λ w, (w - 1 / INR (length weights))
                                * (w - 1 / INR (length weights))) <$> weights)) as Hpos.
  { apply Rsum_nonneg. intros y (x & -> & _)%list_elem_of_fmap. apply Rle_0_sqr. }
  rewrite Hd, Hsum in Hpos.
  assert (INR (length weights) * (1 / INR (length weights) * (1 / INR (length weights)))
          = 1 / INR (length weights)) as Heq by (field; lra).
  lra.
Qed.

Lemma calculateHHI_least_iff_equal (weights : list R) :
  weights ≠ [] → Spec.Rsum weights = 1 →
  calculateHHI weights = 1 / INR (length weights)
  ↔ ∀ w, w ∈ weights → w = 1 / INR (length weights).
Proof.
  intros Hne Hsum. pose proof (INR_length_pos weights Hne) as Hn.
  pose proof (squared_distance_sum weights (1 / INR (length weights))) as Hd.
  rewrite Hsum in Hd.
  assert (INR (length weights) * (1 / INR (length weights) * (1 / INR (length weights)))
          = 1 / INR (length weights)) as Heq by (field; lra).
  split.
  - intros Hhhi w Hw.
    assert (Spec.Rsum ((λ w, (w - 1 / INR (length weights))
                             * (w - 1 / INR (length weights))) <$> weights) = 0)
      as Hzero by lra.
    assert ((w - 1 / INR (length weights)) * (w - 1 / INR (length weights)) = 0) as Hsq.
    { eapply Rsum_zero_nonneg; [|exact Hzero|].
      - intros y (x & -> & _)%list_elem_of_fmap. apply Rle_0_sqr.
      - apply list_elem_of_fmap. by exists w. }
    apply Rmult_integral in Hsq. lra.
  - intros Hall.
    assert (Spec.Rsum ((λ w, (w - 1 / INR (length weights))
                             * (w - 1 / INR (length weights))) <$> weights) = 0)
      as Hzero.
    { rewrite (Rsum_fmap_ext _ (λ _, 0)); [apply Rsum_fmap_zero|].
      intros w Hw. rewrite (Hall w Hw). lra. }
    lra.
Qed.

Lemma calculateHHI_upper (weights : list R) :
  (∀ w, w ∈ weights → 0 <= w) →
  calculateHHI weights <= Spec.Rsum weights * Spec.Rsum weights.
Proof.
  rewrite calculateHHI_sum. induction weights as [|w ws IH]; intros Hall.
  - simpl. rewrite !Rsum_nil. lra.
  - rewrite fmap_cons, !Rsum_cons.
    assert (0 <= w) by (apply Hall; left).
    assert (0 <= Spec.Rsum ws) by (apply Rsum_nonneg; intros z Hz; apply Hall; by right).
    assert (Spec.Rsum ((λ w, w * w) <$> ws) <= Spec.Rsum ws * Spec.Rsum ws)
      by (apply IH; intros z Hz; apply Hall; by right).
    nra.
Qed.

Lemma diversification_raw_range (weights : list R) :
  (2 ≤ length weights)%nat →
  (∀ w, w ∈ weights → 0 <= w) → Spec.Rsum weights = 1 →
  0 <= (1 - calculateHHI weights) / (1 - 1 / INR (length weights)) * 100 <= 100.
Proof.
  intros Hn Hall Hsum.
  assert (weights ≠ []) as Hne by (intros ->; simpl in Hn; lia).
  pose proof (calculateHHI_lower weights Hne Hsum) as Hlo.
  pose proof (calculateHHI_upper weights Hall) as Hhi. rewrite Hsum in Hhi.
  assert (2 <= INR (length weights)) as HnR by (apply le_INR in Hn; simpl in Hn; lra).
  assert (1 / INR (length weights) <= 1 / 2) as Hhalf.
  { unfold Rdiv. rewrite !Rmult_1_l. apply Rinv_le_contravar; lra. }
  assert (0 < 1 - 1 / INR (length weights)) as Hden by lra.
  split.
  - apply Rmult_le_pos; [|lra]. apply Rmult_le_pos; [lra|].
    apply Rlt_le, Rinv_0_lt_compat. done.
  - apply (Rmult_le_reg_r (1 - 1 / INR (length weights))); [done|].
    replace ((1 - calculateHHI weights) / (1 - 1 / INR (length weights)) * 100
             * (1 - 1 / INR (length weights)))
      with ((1 - calculateHHI weights) * 100) by (field; lra).
    lra.
Qed.

Lemma calculateDiversificationScore_raw (weights : list R) :
  (2 ≤ length weights)%nat →
  (∀ w, w ∈ weights → 0 <= w) → Spec.Rsum weights = 1 →
  calculateDiversificationScore weights
  = (1 - calculateHHI weights) / (1 - 1 / INR (length weights)) * 100.
Proof.
  intros Hn Hall Hsum. unfold calculateDiversificationScore. cbv zeta.
  rewrite decide_False by lia. rewrite Rmax_Rmin_clamp by lra.
  pose proof (diversification_raw_range weights Hn Hall Hsum) as Hr.
  unfold Spec.clamp. repeat case_decide; lra.
Qed.
End concentration.

(** X8.  For weights that are not negative and sum to 1, the index of
    [calculateHHI] lies between 1/n and 1, and it is 1/n exactly when
    every weight is 1/n. *)
Theorem calculateHHI_range (weights : list R) :
  (∀ w, w ∈ weights → (0 <= w)%R) →
  Spec.Rsum weights = 1%R →
  (1 / INR (length weights) <= Finance.calculateHHI weights <= 1)%R ∧
  (Finance.calculateHHI weights = (1 / INR (length weights))%R
   ↔ ∀ w, w ∈ weights → w = (1 / INR (length weights))%R).
Proof.
  intros Hall Hsum.
  assert (weights ≠ []) as Hne.
  { intros ->. rewrite Rsum_nil in Hsum. lra. }
  split; [split|].
  - by apply calculateHHI_lower.
  - pose proof (calculateHHI_upper weights Hall) as Hhi. rewrite Hsum in Hhi. lra.
  - by apply calculateHHI_least_iff_equal.
Qed.

Lemma calculateHHI_range_witness :
  (1 / INR (length [0.5; 0.3; 0.2]%R)
   <= Finance.calculateHHI [0.5; 0.3; 0.2]%R <= 1)%R.
Proof.
  apply (calculateHHI_range [0.5; 0.3; 0.2]%R).
  - intros w Hw. repeat (apply elem_of_cons in Hw as [->|Hw]; [lra|]).
    by apply elem_of_nil in Hw.
  - unfold Spec.Rsum. simpl. lra.
Defined.

(** X9.  [calculateDiversificationScore] is 0 for at most one weight and
    always lies in [0, 100].  For two or more weights that are not
    negative and sum to 1 the clamp is idle, the score is
    (1 - HHI) / (1 - 1/n) x 100, and it is 100 exactly when every weight
    is 1/n. *)
Theorem calculateDiversificationScore_normalized (weights : list R) :
  (length weights ≤ 1 → Finance.calculateDiversificationScore weights = 0%R) ∧
  (0 <= Finance.calculateDiversificationScore weights <= 100)%R ∧
  (2 ≤ length weights →
   (∀ w, w ∈ weights → (0 <= w)%R) →
   Spec.Rsum weights = 1%R →
     Finance.calculateDiversificationScore weights
     = ((1 - Finance.calculateHHI weights) / (1 - 1 / INR (length weights)) * 100)%R ∧
     (Finance.calculateDiversificationScore weights = 100%R
      ↔ ∀ w, w ∈ weights → w = (1 / INR (length weights))%R)).
Proof.
  split; [|split].
  - intros Hn. unfold Finance.calculateDiversificationScore. by rewrite decide_True.
  - unfold Finance.calculateDiversificationScore. cbv zeta.
    case_decide; [lra|]. rewrite Rmax_Rmin_clamp by lra. apply clamp_bounds. lra.
  - intros Hn Hall Hsum.
    split; [by apply calculateDiversificationScore_raw|].
    rewrite calculateDiversificationScore_raw by done.
    assert (weights ≠ []) as Hne by (intros ->; simpl in Hn; lia).
    rewrite <- (calculateHHI_least_iff_equal weights Hne Hsum).
    assert (2 <= INR (length weights))%R as HnR
      by (apply le_INR in Hn; simpl in Hn; lra).
    assert (1 / INR (length weights) <= 1 / 2)%R as Hhalf.
    { unfold Rdiv. rewrite !Rmult_1_l. apply Rinv_le_contravar; lra. }
    split.
    + intros Hscore.
      apply (f_equal (λ x, x * (1 - 1 / INR (length weights)))%R) in Hscore.
      replace ((1 - Finance.calculateHHI weights) / (1 - 1 / INR (length weights)) * 100
               * (1 - 1 / INR (length weights)))%R
        with ((1 - Finance.calculateHHI weights) * 100)%R in Hscore by (field; lra).
      lra.
    + intros ->. field. lra.
Qed.

Lemma calculateDiversificationScore_normalized_witness :
  Finance.calculateDiversificationScore [0.25; 0.25; 0.25; 0.25]%R = 100%R.
Proof.
  destruct (calculateDiversificationScore_normalized [0.25; 0.25; 0.25; 0.25]%R)
    as (_ & _ & Hscore).
  destruct Hscore as [_ Hiff].
  - simpl. lia.
  - intros w Hw. repeat (apply elem_of_cons in Hw as [->|Hw]; [lra|]).
    by apply elem_of_nil in Hw.
  - unfold Spec.Rsum. simpl. lra.
  - apply Hiff. intros w Hw. simpl.
    repeat (apply elem_of_cons in Hw as [->|Hw]; [lra|]).
    by apply elem_of_nil in Hw.
Defined.

(** ** The largest holdings *)

Section top_holdings.
Import Js Finance.
Local Open Scope R_scope.

Lemma Rge_total : Total Rge.
Proof. intros x y. destruct (Rle_dec x y); [right|left]; lra. Qed.

Lemma sorted_weights_Permutation (weights : list R) : merge_sort Rge weights ≡ₚ weights.
Proof. apply merge_sort_Permutation. Qed.

Lemma sorted_weights_descending (weights : list R) :
  StronglySorted Rge (merge_sort Rge weights).
Proof. apply (@StronglySorted_merge_sort R Rge _ Rge_trans Rge_total). Qed.

Lemma topNWeight_sum (weights : list R) (n : option nat) :
  topNWeight weights n
  = Spec.Rsum (take (default 1%nat n) (merge_sort Rge weights)).
Proof. reflexivity. Qed.

Lemma topNWeight_all (weights : list R) (n : nat) :
  (length weights ≤ n)%nat → topNWeight weights (Some n) = Spec.Rsum weights.
Proof.
  intros Hn. rewrite topNWeight_sum. simpl.
  rewrite take_ge by (by rewrite (Permutation_length (sorted_weights_Permutation weights))).
  apply Rsum_Permutation, sorted_weights_Permutation.
Qed.

Lemma topNWeight_largest (weights : list R) :
  weights ≠ [] →
  topNWeight weights None ∈ weights ∧ ∀ w, w ∈ weights → w <= topNWeight weights None.
Proof.
  intros Hne. rewrite topNWeight_sum. simpl.
  pose proof (sorted_weights_Permutation weights) as Hperm.
  pose proof (sorted_weights_descending weights) as Hsorted.
  destruct (merge_sort Rge weights) as [|h t].
  { apply Permutation_nil_l in Hperm. done. }
  change (take 1 (h :: t)) with [h]. rewrite Rsum_cons, Rsum_nil, Rplus_0_r. split.
  - rewrite <- Hperm. left.
  - intros w Hw. rewrite <- Hperm in Hw.
    apply StronglySorted_inv in Hsorted as [_ Hall]. rewrite Forall_forall in Hall.
    apply elem_of_cons in Hw as [->|Hw]; [lra|]. apply Rge_le, Hall, Hw.
Qed.

(** The first [n] of the sorted weights outweigh what follows. *)
Lemma topNWeight_le_total (weights : list R) (n : nat) :
  (∀ w, w ∈ weights → 0 <= w) →
  topNWeight weights (Some n) <= Spec.Rsum weights.
Proof.
  intros Hall. rewrite topNWeight_sum. simpl.
  rewrite <- (Rsum_Permutation _ _ (sorted_weights_Permutation weights)).
  rewrite <- (take_drop n (merge_sort Rge weights)) at 2. rewrite Rsum_app.
  assert (0 <= Spec.Rsum (drop n (merge_sort Rge weights))); [|lra].
  apply Rsum_nonneg. intros w Hw. apply Hall.
  rewrite <- (sorted_weights_Permutation weights).
  rewrite <- (take_drop n (merge_sort Rge weights)). apply elem_of_app. by right.
Qed.
End top_holdings.

(** X10.  [topNWeight], called without a count, returns the largest
    weight of a non-empty list: an element that no other exceeds.  With
    a count of at least the number of weights it returns their sum, and
    for weights that are not negative it never exceeds their sum. *)
Theorem topNWeight_largest_weights (weights : list R) :
  (weights ≠ [] →
     Finance.topNWeight weights None ∈ weights ∧
     ∀ w, w ∈ weights → (w <= Finance.topNWeight weights None)%R) ∧
  (∀ n, length weights ≤ n →
     Finance.topNWeight weights (Some n) = Spec.Rsum weights) ∧
  ((∀ w, w ∈ weights → (0 <= w)%R) →
     ∀ n, (Finance.topNWeight weights (Some n) <= Spec.Rsum weights)%R).
Proof.
  split; [apply topNWeight_largest|]. split.
  - intros n. apply topNWeight_all.
  - intros Hall n. by apply topNWeight_le_total.
Qed.

Lemma topNWeight_largest_weights_witness :
  Finance.topNWeight [0.2; 0.5; 0.3]%R None ∈ [0.2; 0.5; 0.3]%R.
Proof.
  apply (topNWeight_largest_weights [0.2; 0.5; 0.3]%R). done.
Defined.

(** ** Health components and value at risk *)

Section health.
Import Js Finance.
Local Open Scope R_scope.

Lemma clamp_mono (lo hi x y : R) :
  lo <= hi → x <= y → Spec.clamp lo hi x <= Spec.clamp lo hi y.
Proof. intros Hle Hxy. unfold Spec.clamp. repeat case_decide; lra. Qed.

Lemma Math_round_mono (x y : R) : x <= y → Math_round x <= Math_round y.
Proof. intros Hxy. unfold Math_round. apply IZR_le, Zfloor_le. lra. Qed.

Lemma volatilityScore_antitone (div dd : R) (sharpe : option R) (vol1 vol2 : R) :
  vol1 <= vol2 →
  volatilityScore (calculateHealthComponents div vol2 dd sharpe)
  <= volatilityScore (calculateHealthComponents div vol1 dd sharpe).
Proof.
  intros Hvol. unfold calculateHealthComponents. simpl.
  rewrite !Rmax_Rmin_clamp by lra. apply clamp_mono; [lra|].
  repeat case_decide; lra.
Qed.

Lemma drawdownScore_antitone (div vol : R) (sharpe : option R) (dd1 dd2 : R) :
  Rabs dd1 <= Rabs dd2 →
  drawdownScore (calculateHealthComponents div vol dd2 sharpe)
  <= drawdownScore (calculateHealthComponents div vol dd1 sharpe).
Proof.
  intros Hdd. unfold calculateHealthComponents. simpl.
  rewrite !Rmax_Rmin_clamp by lra. apply clamp_mono; [lra|].
  repeat case_decide; lra.
Qed.

Lemma sharpeScore_monotone (div vol dd : R) (sharpe1 sharpe2 : R) :
  sharpe1 <= sharpe2 →
  sharpeScore (calculateHealthComponents div vol dd (Some sharpe1))
  <= sharpeScore (calculateHealthComponents div vol dd (Some sharpe2)).
Proof.
  intros Hs. unfold calculateHealthComponents. simpl.
  rewrite !Rmax_Rmin_clamp by lra. apply clamp_mono; [lra|].
  unfold Rmax. repeat case_decide; repeat destruct (Rle_dec _ _); lra.
Qed.

Lemma diversificationScore_monotone (vol dd : R) (sharpe : option R) (div1 div2 : R) :
  div1 <= div2 →
  diversificationScore (calculateHealthComponents div1 vol dd sharpe)
  <= diversificationScore (calculateHealthComponents div2 vol dd sharpe).
Proof.
  intros Hd. unfold calculateHealthComponents. simpl.
  rewrite !Rmax_Rmin_clamp by lra. by apply clamp_mono; [lra|].
Qed.

Lemma calculateHealthScore_mono (c1 c2 : HealthScoreComponents) :
  diversificationScore c1 <= diversificationScore c2 →
  volatilityScore c1 <= volatilityScore c2 →
  drawdownScore c1 <= drawdownScore c2 →
  sharpeScore c1 <= sharpeScore c2 →
  calculateHealthScore c1 <= calculateHealthScore c2.
Proof.
  intros Hd Hv Hdd Hs. unfold calculateHealthScore. cbv zeta.
  apply Math_round_mono. rewrite !Rmax_Rmin_clamp by lra.
  apply clamp_mono; lra.
Qed.
End health.

(** X11.  The health score does not reward a worse portfolio: with a
    diversification score that is not higher, a volatility that is not
    lower, a maximum drawdown that is not smaller in absolute value and
    a Sharpe ratio that is not higher, the score computed by
    [calculateHealthComponents] and [calculateHealthScore] is not
    higher. *)
Theorem healthScore_monotone
    (div1 div2 vol1 vol2 dd1 dd2 sharpe1 sharpe2 : R) :
  (div1 <= div2)%R → (vol2 <= vol1)%R → (Rabs dd2 <= Rabs dd1)%R →
  (sharpe1 <= sharpe2)%R →
  (Finance.calculateHealthScore
     (Finance.calculateHealthComponents div1 vol1 dd1 (Some sharpe1))
   <= Finance.calculateHealthScore
        (Finance.calculateHealthComponents div2 vol2 dd2 (Some sharpe2)))%R.
Proof.
  intros Hd Hv Hdd Hs. apply calculateHealthScore_mono.
  - etrans; [apply (diversificationScore_monotone vol1 dd1 (Some sharpe1) div1 div2 Hd)|].
    unfold Finance.calculateHealthComponents. simpl. lra.
  - etrans; [apply (volatilityScore_antitone div1 dd1 (Some sharpe1) vol2 vol1 Hv)|].
    unfold Finance.calculateHealthComponents. simpl. lra.
  - etrans; [apply (drawdownScore_antitone div1 vol1 (Some sharpe1) dd2 dd1 Hdd)|].
    unfold Finance.calculateHealthComponents. simpl. lra.
  - etrans; [apply (sharpeScore_monotone div1 vol1 dd1 sharpe1 sharpe2 Hs)|].
    unfold Finance.calculateHealthComponents. simpl. lra.
Qed.

Lemma healthScore_monotone_witness :
  (Finance.calculateHealthScore
     (Finance.calculateHealthComponents 40 0.30 (-0.25) (Some 0.2%R))
   <= Finance.calculateHealthScore
        (Finance.calculateHealthComponents 80 0.15 (-0.10) (Some 1.1%R)))%R.
Proof.
  apply healthScore_monotone; try lra.
  rewrite !Rabs_left by lra. lra.
Defined.

(** X12.  The value at risk grows with the square root of the horizon:
    for a horizon that is not negative, [calculateVaR95] is the one-day
    figure times sqrt(horizon).  It is proportional to the portfolio
    value, and it is not negative when volatility and value are not. *)
Theorem calculateVaR95_scaling (vol value horizon c : R) :
  (0 <= horizon)%R →
  Finance.calculateVaR95 vol value (Some horizon)
  = (sqrt horizon * Finance.calculateVaR95 vol value None)%R ∧
  Finance.calculateVaR95 vol (c * value) (Some horizon)
  = (c * Finance.calculateVaR95 vol value (Some horizon))%R ∧
  ((0 <= vol)%R → (0 <= value)%R →
     (0 <= Finance.calculateVaR95 vol value (Some horizon))%R).
Proof.
  intros Hh. unfold Finance.calculateVaR95. simpl. rewrite sqrt_1.
  split; [lra|]. split; [lra|]. intros Hvol Hvalue.
  pose proof sqrt_TRADING_DAYS_PER_YEAR_pos as Hd.
  assert (0 <= / sqrt Finance.TRADING_DAYS_PER_YEAR)%R
    by (apply Rlt_le, Rinv_0_lt_compat; done).
  pose proof (sqrt_pos horizon).
  assert (0 <= Finance.Z_SCORE_95)%R by (unfold Finance.Z_SCORE_95; lra).
  unfold Rdiv.
  apply Rmult_le_pos; [apply Rmult_le_pos; [done|]|done].
  apply Rmult_le_pos; [apply Rmult_le_pos; done|done].
Qed.

Lemma calculateVaR95_scaling_witness :
  Finance.calculateVaR95 0.2 10000 (Some 4%R)
  = (sqrt 4 * Finance.calculateVaR95 0.2 10000 None)%R.
Proof.
  apply (calculateVaR95_scaling 0.2 10000 4 1). lra.
Defined.

(** ** The value path in closed form *)

Section closed_form.
Import Js Finance.
Local Open Scope R_scope.

Lemma simulatePortfolioValues_lookup (returns : list R) (initialValue : option R) (k : nat) :
  (k ≤ length returns)%nat →
  simulatePortfolioValues returns initialValue !! k
  = Some (default 1 initialValue * exp (Spec.Rsum (take k returns))).
Proof.
  revert k. induction returns as [|r returns IH] using rev_ind; intros k Hk.
  - simpl in Hk. assert (k = 0%nat) as -> by lia.
    rewrite simulatePortfolioValues_nil. simpl. rewrite Rsum_nil, exp_0. f_equal. lra.
  - rewrite simulatePortfolioValues_snoc.
    pose proof (simulatePortfolioValues_length returns initialValue) as Hlen.
    rewrite length_app in Hk. simpl in Hk.
    destruct (decide (k ≤ length returns)%nat) as [Hle|Hgt].
    + rewrite lookup_app_l by lia. rewrite take_app_le by done. by apply IH.
    + assert (k = Datatypes.S (length returns)) as -> by lia.
      rewrite lookup_app_r by lia. rewrite Hlen, Nat.sub_diag. simpl.
      replace (length returns - 0)%nat with (length returns) by lia.
      rewrite (list_lookup_total_correct _ _ _ (IH (length returns) (le_n _))).
      rewrite take_ge by done.
      rewrite take_ge by (rewrite length_app; simpl; lia).
      rewrite Rsum_snoc, exp_plus. f_equal. lra.
Qed.

Lemma filter_all {A} (P : A → Prop) `{!∀ x, Decision (P x)} (l : list A) :
  (∀ x, x ∈ l → P x) → filter P l = l.
Proof.
  induction l as [|x l IH]; intros Hall; [done|].
  rewrite filter_cons, decide_True by (apply Hall; left).
  f_equal. apply IH. intros y Hy. apply Hall. by right.
Qed.

Lemma filter_ext_in {A} (P Q : A → Prop)
    `{!∀ x, Decision (P x), !∀ x, Decision (Q x)} (l : list A) :
  (∀ x, x ∈ l → P x ↔ Q x) → filter P l = filter Q l.
Proof.
  induction l as [|x l IH]; intros Hext; [done|].
  rewrite !filter_cons.
  assert (filter P l = filter Q l) as ->
    by (apply IH; intros y Hy; apply Hext; by right).
  destruct (decide (P x)) as [HP|HP].
  - rewrite decide_True; [done|]. apply Hext; [left|done].
  - rewrite decide_False; [done|]. intros HQ. apply HP, Hext; [left|done].
Qed.

Lemma calculateLogReturns_all_positive (prices : list R) :
  (∀ p, p ∈ prices → 0 < p) →
  calculateLogReturns prices = Spec.log_return prices <$> Spec.steps prices.
Proof.
  intros Hpos. destruct (decide (length prices < 2)%nat) as [Hlt|Hge].
  - rewrite calculateLogReturns_short by done. unfold Spec.steps.
    by replace (length prices - 1)%nat with 0%nat by lia.
  - rewrite calculateLogReturns_steps by lia. f_equal.
    apply filter_all. intros i [Hlo Hhi]%elem_of_seq.
    split; apply Rlt_gt, Hpos, lookup_total_elem_of; lia.
Qed.

(** The log returns of positive prices telescope. *)
Lemma log_returns_telescope (prices : list R) (k : nat) :
  (∀ p, p ∈ prices → 0 < p) → (k < length prices)%nat →
  Spec.Rsum (Spec.log_return prices <$> seq 1 k)
  = ln (prices !!! k) - ln (prices !!! 0%nat).
Proof.
  intros Hpos. induction k as [|k IH]; intros Hk.
  - simpl. rewrite Rsum_nil. lra.
  - rewrite seq_S, fmap_app, Rsum_app, IH by lia. simpl.
    rewrite Rsum_cons, Rsum_nil. unfold Spec.log_return.
    replace (Datatypes.S k - 1)%nat with k by lia.
    assert (0 < prices !!! k) by (apply Hpos, lookup_total_elem_of; lia).
    assert (0 < prices !!! Datatypes.S k) by (apply Hpos, lookup_total_elem_of; lia).
    unfold Rdiv. rewrite ln_mult, ln_Rinv by (done || by apply Rinv_0_lt_compat). lra.
Qed.

Lemma simulate_log_returns (prices : list R) :
  prices ≠ [] → (∀ p, p ∈ prices → 0 < p) →
  simulatePortfolioValues (calculateLogReturns prices) (Some (prices !!! 0%nat)) = prices.
Proof.
  intros Hne Hpos.
  assert (0 < length prices)%nat as Hlen by (destruct prices; [done|simpl; lia]).
  assert (length (calculateLogReturns prices) = (length prices - 1)%nat) as Hret.
  { rewrite calculateLogReturns_all_positive by done.
    rewrite length_fmap. apply length_seq. }
  apply list_eq. intros k.
  destruct (decide (k < length prices)%nat) as [Hk|Hk].
  - rewrite simulatePortfolioValues_lookup by lia.
    rewrite calculateLogReturns_all_positive by done.
    unfold Spec.steps. rewrite <- fmap_take, take_seq.
    replace (k `min` (length prices - 1))%nat with k by lia.
    rewrite log_returns_telescope by done. simpl.
    assert (0 < prices !!! k) by (apply Hpos, lookup_total_elem_of; lia).
    assert (0 < prices !!! 0%nat) by (apply Hpos, lookup_total_elem_of; lia).
    unfold Rminus. rewrite exp_plus, exp_Ropp, !exp_ln by done.
    rewrite (list_lookup_lookup_total_lt prices k Hk). f_equal. field. lra.
  - rewrite !lookup_ge_None_2; [done|lia|].
    rewrite simulatePortfolioValues_length. lia.
Qed.

Lemma calculateLogReturns_scale (prices : list R) (c : R) :
  0 < c →
  calculateLogReturns ((λ p, c * p) <$> prices) = calculateLogReturns prices.
Proof.
  intros Hc. destruct (decide (length prices < 2)%nat) as [Hlt|Hge].
  { rewrite !calculateLogReturns_short; [done..|]. by rewrite length_fmap. }
  rewrite !calculateLogReturns_steps by (rewrite ?length_fmap; lia).
  assert (Spec.steps ((λ p, c * p) <$> prices) = Spec.steps prices) as ->
    by (unfold Spec.steps; by rewrite length_fmap).
  assert (∀ i, i ∈ Spec.steps prices →
            ((λ p, c * p) <$> prices) !!! (i - 1)%nat = c * prices !!! (i - 1)%nat ∧
            ((λ p, c * p) <$> prices) !!! i = c * prices !!! i) as Hlook.
  { intros i [Hlo Hhi]%elem_of_seq.
    split; apply (list_lookup_total_fmap (λ p, c * p)); lia. }
  rewrite (filter_ext_in (Spec.step_ok ((λ p, c * p) <$> prices))
             (Spec.step_ok prices)).
  - apply list_fmap_ext. intros j i Hi.
    assert (i ∈ filter (Spec.step_ok prices) (Spec.steps prices)) as Hin
      by (apply list_elem_of_lookup; eauto).
    apply list_elem_of_filter in Hin as [[Hprev Hcur] Hin].
    destruct (Hlook i Hin) as [H1 H2]. unfold Spec.log_return. rewrite H1, H2.
    f_equal. field. split; lra.
  - intros i Hi. destruct (Hlook i Hi) as [H1 H2].
    unfold Spec.step_ok. rewrite H1, H2. split; intros [Ha Hb]; split; nra.
Qed.

(** The path driven by the log returns of positive prices follows the
    prices: one value per price, each the initial value times the
    price over the first price. *)
Lemma simulate_log_returns_length (prices : list R) (initialValue : option R) :
  (∀ p, p ∈ prices → 0 < p) →
  length (simulatePortfolioValues (calculateLogReturns prices) initialValue)
  = (1 `max` length prices)%nat.
Proof.
  intros Hpos. rewrite simulatePortfolioValues_length.
  rewrite calculateLogReturns_all_positive by done.
  unfold Spec.steps. rewrite length_fmap, length_seq. lia.
Qed.

Lemma simulate_log_returns_lookup (prices : list R) (initialValue : R) (k : nat) (p : R) :
  (∀ p, p ∈ prices → 0 < p) → prices !! k = Some p →
  simulatePortfolioValues (calculateLogReturns prices) (Some initialValue) !! k
  = Some (initialValue * (p / prices !!! 0%nat)).
Proof.
  intros Hpos Hp. pose proof (lookup_lt_Some _ _ _ Hp) as Hk.
  rewrite simulatePortfolioValues_lookup
    by (rewrite calculateLogReturns_all_positive by done;
        unfold Spec.steps; rewrite length_fmap, length_seq; lia).
  rewrite calculateLogReturns_all_positive by done.
  unfold Spec.steps. rewrite <- fmap_take, take_seq.
  replace (k `min` (length prices - 1))%nat with k by lia.
  rewrite log_returns_telescope by done. simpl.
  rewrite (list_lookup_total_correct _ _ _ Hp).
  assert (0 < p) by (apply Hpos, list_elem_of_lookup; eauto).
  assert (0 < prices !!! 0%nat) by (apply Hpos, lookup_total_elem_of; lia).
  unfold Rminus. rewrite exp_plus, exp_Ropp, !exp_ln by done. done.
Qed.
End closed_form.

(** C7.  The returns that [calculateLogReturns] derives from a strictly
    increasing list of positive prices drive [simulatePortfolioValues],
    from any positive initial value, along a strictly increasing value
    path.  The path follows the prices: it has one value per price
    (the initial value alone for no price), and the value at index [k]
    is the initial value times the price at [k] over the first
    price. *)
Theorem increasing_prices_give_increasing_values
    (prices : list R) (initialValue : R) :
  Sorted Rlt prices →
  (∀ p, p ∈ prices → (0 < p)%R) →
  (0 < initialValue)%R →
  let values :=
    Finance.simulatePortfolioValues
      (Finance.calculateLogReturns prices) (Some initialValue) in
  StronglySorted Rlt values ∧
  length values = 1 `max` length prices ∧
  (∀ k p, prices !! k = Some p →
     values !! k = Some (initialValue * (p / prices !!! 0%nat))%R).
Proof.
  intros Hsorted Hpos Hinit values. split; [|split].
  - apply (@Sorted_StronglySorted R Rlt Rlt_trans).
    apply simulatePortfolioValues_increasing; [done|].
    by apply calculateLogReturns_pos.
  - by apply simulate_log_returns_length.
  - intros k p Hp. by apply simulate_log_returns_lookup.
Qed.

Lemma increasing_prices_give_increasing_values_witness :
  let values :=
    Finance.simulatePortfolioValues
      (Finance.calculateLogReturns [100; 102; 105]%R) (Some 1%R) in
  StronglySorted Rlt values ∧
  length values = 3 ∧
  values !! 2 = Some (1 * (105 / 100))%R.
Proof.
  intros values.
  destruct (increasing_prices_give_increasing_values [100; 102; 105]%R 1)
    as (Hsorted & Hlen & Hlook).
  - repeat constructor; lra.
  - intros p Hp.
    repeat (apply elem_of_cons in Hp as [->|Hp]; [lra|]).
    by apply elem_of_nil in Hp.
  - lra.
  - split; [exact Hsorted|]. split; [exact Hlen|].
    exact (Hlook 2 105%R eq_refl).
Defined.



(** X14.  Round trip: simulating the log returns of a non-empty list of
    positive prices, from the first price, gives the prices back. *)
Theorem simulate_log_returns_round_trip (prices : list R) :
  prices ≠ [] →
  (∀ p, p ∈ prices → (0 < p)%R) →
  Finance.simulatePortfolioValues
    (Finance.calculateLogReturns prices) (Some (prices !!! 0)) = prices.
Proof. apply simulate_log_returns. Qed.

Lemma simulate_log_returns_round_trip_witness :
  Finance.simulatePortfolioValues
    (Finance.calculateLogReturns [100; 102; 101; 105]%R) (Some 100%R)
  = [100; 102; 101; 105]%R.
Proof.
  apply (simulate_log_returns_round_trip [100; 102; 101; 105]%R); [done|].
  intros p Hp. repeat (apply elem_of_cons in Hp as [->|Hp]; [lra|]).
  by apply elem_of_nil in Hp.
Defined.

(** X15.  The log returns do not depend on the unit of the prices:
    multiplying every price by one positive factor leaves
    [calculateLogReturns] unchanged, skipped steps included. *)
Theorem calculateLogReturns_unit_free (prices : list R) (c : R) :
  (0 < c)%R →
  Finance.calculateLogReturns ((λ p, c * p)%R <$> prices)
  = Finance.calculateLogReturns prices.
Proof. apply calculateLogReturns_scale. Qed.

Lemma calculateLogReturns_unit_free_witness :
  Finance.calculateLogReturns ((λ p, 2 * p)%R <$> [100; 0; 101; 105]%R)
  = Finance.calculateLogReturns [100; 0; 101; 105]%R.
Proof. apply calculateLogReturns_unit_free. lra. Defined.

(** ** More on the alignment *)

Section aligned_input.
Import Js Yahoo.
Implicit Types (pricesMap : list (string * list HistoricalData)).
Implicit Types (data : list HistoricalData).

Lemma StronglySorted_Zlt_le (ds : list Z) :
  StronglySorted Z.lt ds → StronglySorted Z.le ds ∧ NoDup ds.
Proof.
  induction 1 as [|d ds _ [IHle IHnd] Hall]; [split; constructor|].
  rewrite Forall_forall in Hall. split.
  - constructor; [done|]. apply Forall_forall. intros x Hx.
    pose proof (Hall x Hx). lia.
  - constructor; [|done]. intros Hd. pose proof (Hall d Hd). lia.
Qed.

Lemma merge_sort_sorted (ds : list Z) :
  StronglySorted Z.le ds → merge_sort Z.le ds = ds.
Proof.
  intros Hsorted. apply (StronglySorted_unique Z.le); [|done|].
  - apply StronglySorted_merge_sort; apply _.
  - apply merge_sort_Permutation.
Qed.

Lemma dateMap_loop_fresh data (dateMap : gmap Z R) (d : Z) :
  d ∉ date <$> data →
  for_of data (λ point dateMap,
    <[point.(date) := point.(adjClose)]> dateMap) dateMap !! d = dateMap !! d.
Proof.
  revert dateMap. induction data as [|point data IH]; intros dateMap Hd; [done|].
  rewrite fmap_cons, not_elem_of_cons in Hd. destruct Hd as [Hne Hd].
  rewrite for_of_cons, IH by done. by rewrite lookup_insert_ne.
Qed.

(** With no date twice, the date map gives each point its own price. *)
Lemma dateMap_loop_NoDup data (dateMap : gmap Z R) (point : HistoricalData) :
  NoDup (date <$> data) → point ∈ data →
  for_of data (λ point dateMap,
    <[point.(date) := point.(adjClose)]> dateMap) dateMap !! date point
  = Some (adjClose point).
Proof.
  revert dateMap. induction data as [|point' data IH]; intros dateMap Hnd Hin.
  - by apply elem_of_nil in Hin.
  - rewrite fmap_cons, NoDup_cons in Hnd. destruct Hnd as [Hfresh Hnd].
    rewrite for_of_cons. apply elem_of_cons in Hin as [->|Hin].
    + rewrite dateMap_loop_fresh by done. by rewrite lookup_insert_eq.
    + by apply IH.
Qed.

Lemma alignPriceData_aligned_input pricesMap (ds : list Z) :
  wf pricesMap → pricesMap ≠ [] →
  StronglySorted Z.lt ds →
  (∀ t data, (t, data) ∈ pricesMap → date <$> data = ds) →
  dates (alignPriceData pricesMap) = ds ∧
  ∀ t data, (t, data) ∈ pricesMap →
    alignedPrices (alignPriceData pricesMap) !! t = Some (adjClose <$> data).
Proof.
  intros Hwf Hne Hsorted Hdates.
  destruct (StronglySorted_Zlt_le ds Hsorted) as [Hle Hnd].
  assert (dates (alignPriceData pricesMap) = ds) as Hds.
  { rewrite (alignPriceData_dates pricesMap Hwf).
    destruct pricesMap as [|[t0 data0] rest]; [done|].
    change (Spec.common_dates (Spec.date_lists ((t0, data0) :: rest)))
      with (merge_sort Z.le
              (filter (λ d, Forall (λ e : string * list Z, d ∈ e.2)
                              (Spec.date_lists ((t0, data0) :: rest)))
                 (date <$> data0))).
    rewrite (Hdates t0 data0) by left.
    rewrite filter_all; [by apply merge_sort_sorted|].
    intros d Hd. apply every_ticker_has_Forall. intros t data Hin.
    by rewrite (Hdates t data Hin). }
  split; [done|]. intros t data Hin.
  rewrite (alignPriceData_prices pricesMap t Hne).
  rewrite decide_True
    by (unfold keys; apply list_elem_of_fmap; by exists (t, data)).
  f_equal. rewrite Hds, <- (Hdates t data Hin), <- list_fmap_compose.
  apply list_fmap_ext. intros i point Hpoint. simpl.
  rewrite (lookup_total_correct _ _ _ (dateMaps_of_lookup pricesMap t data Hwf Hin)).
  apply lookup_total_correct. apply dateMap_loop_NoDup.
  - by rewrite (Hdates t data Hin).
  - apply list_elem_of_lookup. eauto.
Qed.
End aligned_input.

(** X16.  Every aligned price is read from the data: the price at
    index [k] of a ticker's aligned array is the adjusted close of a
    point of that ticker whose date is the date at index [k]. *)
Theorem alignPriceData_prices_are_data
    (pricesMap : list (string * list HistoricalData))
    (t : string) (data : list HistoricalData) (prices : list R) (k : nat) (d : Z) :
  Yahoo.wf pricesMap → (t, data) ∈ pricesMap →
  Yahoo.alignedPrices (Yahoo.alignPriceData pricesMap) !! t = Some prices →
  Yahoo.dates (Yahoo.alignPriceData pricesMap) !! k = Some d →
  ∃ point, point ∈ data ∧ date point = d ∧ prices !! k = Some (adjClose point).
Proof. apply alignPriceData_prices_from_data. Qed.

Lemma alignPriceData_prices_are_data_witness :
  ∃ point,
    point ∈ [ {| date := 3; adjClose := 22%R |}; {| date := 4; adjClose := 23%R |} ] ∧
    date point = 3%Z ∧ [22%R] !! 0 = Some (adjClose point).
Proof.
  apply (alignPriceData_prices_are_data
    [ ("AAPL", [ {| date := 3; adjClose := 12%R |}; {| date := 1; adjClose := 10%R |} ]);
      ("MSFT", [ {| date := 3; adjClose := 22%R |}; {| date := 4; adjClose := 23%R |} ]) ]
    "MSFT").
  - unfold Yahoo.wf. simpl. apply NoDup_cons. split.
    + apply not_elem_of_cons. split; [done|apply not_elem_of_nil].
    + apply NoDup_singleton.
  - right. left.
  - vm_compute. reflexivity.
  - vm_compute. reflexivity.
Defined.

(** X17.  Data that is already aligned passes through unchanged: when
    every ticker has the same strictly increasing dates, [alignPriceData]
    returns those dates and, for every ticker, its prices in order. *)
Theorem alignPriceData_keeps_aligned_input
    (pricesMap : list (string * list HistoricalData)) (ds : list Z) :
  Yahoo.wf pricesMap → pricesMap ≠ [] →
  StronglySorted Z.lt ds →
  (∀ t data, (t, data) ∈ pricesMap → date <$> data = ds) →
  Yahoo.dates (Yahoo.alignPriceData pricesMap) = ds ∧
  ∀ t data, (t, data) ∈ pricesMap →
    Yahoo.alignedPrices (Yahoo.alignPriceData pricesMap) !! t
    = Some (adjClose <$> data).
Proof. apply alignPriceData_aligned_input. Qed.

Lemma alignPriceData_keeps_aligned_input_witness :
  Yahoo.dates (Yahoo.alignPriceData
    [ ("AAPL", [ {| date := 1; adjClose := 10%R |}; {| date := 3; adjClose := 12%R |} ]);
      ("MSFT", [ {| date := 1; adjClose := 22%R |}; {| date := 3; adjClose := 23%R |} ]) ])
  = [1; 3]%Z.
Proof.
  apply (alignPriceData_keeps_aligned_input
    [ ("AAPL", [ {| date := 1; adjClose := 10%R |}; {| date := 3; adjClose := 12%R |} ]);
      ("MSFT", [ {| date := 1; adjClose := 22%R |}; {| date := 3; adjClose := 23%R |} ]) ]
    [1; 3]%Z).
  - unfold Yahoo.wf. simpl. apply NoDup_cons. split.
    + apply not_elem_of_cons. split; [done|apply not_elem_of_nil].
    + apply NoDup_singleton.
  - done.
  - repeat constructor; lia.
  - intros t data Hin.
    repeat (apply elem_of_cons in Hin as [[= -> ->]|Hin]; [done|]).
    by apply elem_of_nil in Hin.
Defined.

(** ** The route *)

Section route.
Import Js Finance Yahoo Route.
Local Open Scope R_scope.
Implicit Types (pricesMap : list (string * list HistoricalData)).
Implicit Types (tickers validTickers : list string).

(** A loop that sets one entry per ticker. *)
Lemma insert_loop_lookup {V} (g : string → V) tickers (m : gmap string V) (t : string) :
  for_of tickers (λ ticker m, <[ticker := g ticker]> m) m !! t
  = if decide (t ∈ tickers) then Some (g t) else m !! t.
Proof.
  revert m. induction tickers as [|t' tickers IH]; intros m.
  - rewrite for_of_nil, decide_False; [done|]. apply not_elem_of_nil.
  - rewrite for_of_cons, IH. destruct (decide (t ∈ tickers)) as [Hin|Hnin].
    + rewrite decide_True; [done|]. by right.
    + destruct (decide (t = t')) as [->|Hne].
      * rewrite lookup_insert_eq, decide_True; [done|]. by left.
      * rewrite lookup_insert_ne by done. rewrite decide_False; [done|].
        rewrite not_elem_of_cons. done.
Qed.

Lemma adjustedWeights_of_lookup (weightsMap : gmap string R) validTickers (t : string) :
  adjustedWeights_of weightsMap validTickers !! t
  = if decide (t ∈ validTickers)
    then Some (default 0 (weightsMap !! t)
               / Spec.Rsum ((λ t, default 0 (weightsMap !! t)) <$> validTickers))
    else None.
Proof.
  unfold adjustedWeights_of. cbv zeta.
  assert (foldl (λ sum t, sum + default 0 (weightsMap !! t)) 0 validTickers
          = Spec.Rsum ((λ t, default 0 (weightsMap !! t)) <$> validTickers)) as ->
    by (unfold Spec.Rsum; by rewrite foldl_fmap).
  rewrite (insert_loop_lookup (λ ticker, default 0 (weightsMap !! ticker)
    / Spec.Rsum ((λ t, default 0 (weightsMap !! t)) <$> validTickers))).
  case_decide; [done|apply lookup_empty].
Qed.

Lemma adjusted_weights_sum (weightsMap : gmap string R) validTickers :
  Spec.Rsum ((λ t, default 0 (weightsMap !! t)) <$> validTickers) ≠ 0 →
  Spec.Rsum ((λ t, default 0 (adjustedWeights_of weightsMap validTickers !! t))
             <$> validTickers) = 1.
Proof.
  intros Htotal.
  rewrite (Rsum_fmap_ext _ (λ t, / Spec.Rsum ((λ t, default 0 (weightsMap !! t))
                                                <$> validTickers)
                                 * default 0 (weightsMap !! t))).
  - rewrite Rsum_fmap_scal. by apply Rinv_l.
  - intros t Ht. rewrite adjustedWeights_of_lookup, decide_True by done. simpl.
    unfold Rdiv. lra.
Qed.

(** The return series the loop of step 5 stores. *)
Lemma assetStats_returnsMatrix (alignedPrices : gmap string (list R)) validTickers
    (t : string) :
  (assetStats alignedPrices validTickers).1.1 !! t
  = if decide (t ∈ validTickers)
    then Some (calculateLogReturns (default [] (alignedPrices !! t)))
    else None.
Proof.
  unfold assetStats.
  assert (∀ st : gmap string (list R) * list R * list R,
    (for_of validTickers (λ ticker st,
       let prices := default [] (alignedPrices !! ticker) in
       let returns := calculateLogReturns prices in
       let returnsMatrix := <[ticker := returns]> st.1.1 in
       let dailyMean := mean returns in
       let dailyStd := stdDev returns in
       (returnsMatrix,
        push st.1.2 (annualizeReturn dailyMean),
        push st.2 (annualizeVolatility dailyStd))) st).1.1
    = for_of validTickers (λ ticker m,
        <[ticker := calculateLogReturns (default [] (alignedPrices !! ticker))]> m)
        st.1.1) as Hfst.
  { induction validTickers as [|t' ts IH]; intros st; [done|].
    rewrite !for_of_cons, IH. done. }
  rewrite Hfst. simpl.
  rewrite (insert_loop_lookup (λ ticker,
    calculateLogReturns (default [] (alignedPrices !! ticker)))).
  case_decide; [done|apply lookup_empty].
Qed.

Lemma assetStats_lengths (alignedPrices : gmap string (list R)) validTickers :
  length (assetStats alignedPrices validTickers).1.2 = length validTickers ∧
  length (assetStats alignedPrices validTickers).2 = length validTickers.
Proof.
  unfold assetStats.
  assert (∀ st : gmap string (list R) * list R * list R,
    let st' :=
      for_of validTickers (λ ticker st,
        let prices := default [] (alignedPrices !! ticker) in
        let returns := calculateLogReturns prices in
        let returnsMatrix := <[ticker := returns]> st.1.1 in
        let dailyMean := mean returns in
        let dailyStd := stdDev returns in
        (returnsMatrix,
         push st.1.2 (annualizeReturn dailyMean),
         push st.2 (annualizeVolatility dailyStd))) st in
    length st'.1.2 = (length st.1.2 + length validTickers)%nat ∧
    length st'.2 = (length st.2 + length validTickers)%nat) as Hlen.
  { induction validTickers as [|t' ts IH]; intros st; [simpl; lia|].
    cbv zeta in *. rewrite !for_of_cons.
    edestruct IH as [IH1 IH2]. rewrite IH1, IH2.
    unfold push. simpl. rewrite !length_app. simpl. lia. }
  apply (Hlen (∅, [], [])).
Qed.

(** The aligned prices of positive data are positive. *)
Lemma alignPriceData_positive pricesMap (t : string) (prices : list R) :
  wf pricesMap →
  (∀ t data point, (t, data) ∈ pricesMap → point ∈ data → 0 < adjClose point) →
  alignedPrices (alignPriceData pricesMap) !! t = Some prices →
  length prices = length (dates (alignPriceData pricesMap)) ∧
  ∀ p, p ∈ prices → 0 < p.
Proof.
  intros Hwf Hpos Hprices.
  assert (pricesMap ≠ []) as Hne.
  { intros ->. assert (alignPriceData [] = {| dates := []; alignedPrices := ∅ |})
      as Hnil by reflexivity. rewrite Hnil in Hprices. simpl in Hprices.
    by rewrite lookup_empty in Hprices. }
  pose proof Hprices as Hlook.
  rewrite (alignPriceData_prices pricesMap t Hne) in Hlook.
  case_decide as Hkey; [|done]. injection Hlook as Hlook.
  assert (length prices = length (dates (alignPriceData pricesMap))) as Hlen
    by (by rewrite <- Hlook, length_fmap).
  split; [done|]. intros p [k Hk]%list_elem_of_lookup.
  unfold keys in Hkey. apply list_elem_of_fmap in Hkey as ([t' data] & -> & Hin).
  destruct (lookup_lt_is_Some_2 (dates (alignPriceData pricesMap)) k) as [d Hd].
  { rewrite <- Hlen. by eapply lookup_lt_Some. }
  destruct (alignPriceData_prices_from_data pricesMap t' data prices k d
              Hwf Hin Hprices Hd) as (point & Hpoint & _ & Hp).
  rewrite Hk in Hp. injection Hp as ->. by apply (Hpos t' data).
Qed.
End route.

Section analysis.
Import Js Finance Yahoo Route.
Local Open Scope R_scope.
Implicit Types (pricesMap : list (string * list HistoricalData)).

(** Every ticker's stored return series has one element fewer than
    there are common dates. *)
Lemma analysis_series pricesMap (t : string) :
  wf pricesMap →
  (∀ t data point, (t, data) ∈ pricesMap → point ∈ data → 0 < adjClose point) →
  t ∈ keys pricesMap →
  ∃ s, (assetStats (alignedPrices (alignPriceData pricesMap)) (keys pricesMap)).1.1 !! t
       = Some s ∧
       length s = (length (dates (alignPriceData pricesMap)) - 1)%nat.
Proof.
  intros Hwf Hpos Ht.
  assert (pricesMap ≠ []) as Hne by (intros ->; by apply elem_of_nil in Ht).
  rewrite assetStats_returnsMatrix, decide_True by done.
  eexists. split; [done|].
  pose proof (alignPriceData_prices pricesMap t Hne) as Hprices.
  rewrite decide_True in Hprices by done. rewrite Hprices. simpl.
  destruct (alignPriceData_positive pricesMap t _ Hwf Hpos Hprices) as [Hlen Hp].
  rewrite calculateLogReturns_all_positive by done.
  rewrite length_fmap. unfold Spec.steps. rewrite length_seq, Hlen. done.
Qed.

Lemma analyzePrices_cases (isoDate : Z → string) (weightsMap : gmap string R)
    pricesMap (portfolioValue : R) :
  wf pricesMap →
  (∀ t data point, (t, data) ∈ pricesMap → point ∈ data → 0 < adjClose point) →
  match analyzePrices isoDate weightsMap pricesMap portfolioValue with
  | ErrorResponse status _ =>
      status = 400%nat ∧
      (pricesMap = [] ∨ (length (dates (alignPriceData pricesMap)) < 20)%nat)
  | AnalysisResponse portfolio timeseries =>
      (20 ≤ length (dates (alignPriceData pricesMap)))%nat ∧
      length (ts_dates timeseries)
      = (length (dates (alignPriceData pricesMap)) - 1)%nat ∧
      length (portfolioValues timeseries) = length (ts_dates timeseries) ∧
      length (drawdowns timeseries) = length (ts_dates timeseries) ∧
      numHoldings portfolio = length pricesMap
  end.
Proof.
  intros Hwf Hpos. unfold analyzePrices. cbv zeta.
  case_decide as Hkeys.
  { split; [done|]. left. unfold keys in Hkeys. rewrite length_fmap in Hkeys.
    by destruct pricesMap. }
  case_decide as Hdates; [split; [done|by right]|].
  assert (keys pricesMap ≠ []) as Hne by (intros Hnil; by rewrite Hnil in Hkeys).
  pose proof (dailyReturns_length
    (assetStats (alignedPrices (alignPriceData pricesMap)) (keys pricesMap)).1.1
    (adjustedWeights_of weightsMap (keys pricesMap)) (keys pricesMap)
    (length (dates (alignPriceData pricesMap)) - 1) Hne
    (λ t Ht, analysis_series pricesMap t Hwf Hpos Ht)) as Hdaily.
  split; [lia|]. simpl.
  rewrite !length_fmap, !length_drop, calculateDrawdownSeries_length.
  rewrite simulatePortfolioValues_length, Hdaily.
  split; [lia|]. split; [lia|]. split; [lia|].
  unfold keys. by rewrite length_fmap.
Qed.
End analysis.

(** X18.  The weights the route recomputes for the tickers that have
    data sum to 1, whenever the original weights of those tickers do not
    sum to 0: each is the original weight over their total, and the
    weight vector built from them adds up to 1. *)
Theorem adjustedWeights_sum_to_one
    (weightsMap : gmap string R) (validTickers : list string) :
  let total := Spec.Rsum ((λ t, default 0%R (weightsMap !! t)) <$> validTickers) in
  total ≠ 0%R →
  (∀ t, t ∈ validTickers →
     Route.adjustedWeights_of weightsMap validTickers !! t
     = Some (default 0 (weightsMap !! t) / total)%R) ∧
  (∀ t, t ∉ validTickers →
     Route.adjustedWeights_of weightsMap validTickers !! t = None) ∧
  Spec.Rsum ((λ t, default 0%R (Route.adjustedWeights_of weightsMap validTickers !! t))
             <$> validTickers) = 1%R.
Proof.
  intros total Htotal. split; [|split].
  - intros t Ht. by rewrite adjustedWeights_of_lookup, decide_True.
  - intros t Ht. by rewrite adjustedWeights_of_lookup, decide_False.
  - by apply adjusted_weights_sum.
Qed.

Lemma adjustedWeights_sum_to_one_witness :
  Spec.Rsum ((λ t, default 0%R
                (Route.adjustedWeights_of
                   {[ "AAPL" := 0.3%R; "MSFT" := 0.2%R; "VOO" := 0.5%R ]}
                   ["AAPL"; "MSFT"] !! t))
             <$> ["AAPL"; "MSFT"]) = 1%R.
Proof.
  apply (adjustedWeights_sum_to_one
           {[ "AAPL" := 0.3%R; "MSFT" := 0.2%R; "VOO" := 0.5%R ]} ["AAPL"; "MSFT"]).
  assert (Spec.Rsum ((λ t, default 0%R
            (({[ "AAPL" := 0.3%R; "MSFT" := 0.2%R; "VOO" := 0.5%R ]}
              : gmap string R) !! t)) <$> ["AAPL"; "MSFT"]) = 0.5%R) as ->.
  { unfold Spec.Rsum.
    change (foldl Rplus 0%R [0.3%R; 0.2%R] = 0.5%R). simpl. lra. }
  lra.
Defined.

(** X19.  What the route computes from fetched prices.  For a map of
    positive prices the handler answers with status 400 exactly when
    there is no ticker or there are fewer than 20 common dates;
    otherwise the three arrays of the time series have one length, the
    number of common dates minus 1, so that the chart can pair them by
    index, and the number of holdings is the number of tickers. *)
Theorem analyzePrices_timeseries_aligned
    (isoDate : Z → string) (weightsMap : gmap string R)
    (pricesMap : list (string * list HistoricalData)) (portfolioValue : R) :
  Yahoo.wf pricesMap →
  (∀ t data point, (t, data) ∈ pricesMap → point ∈ data → (0 < adjClose point)%R) →
  match Route.analyzePrices isoDate weightsMap pricesMap portfolioValue with
  | Route.ErrorResponse status _ =>
      status = 400 ∧
      (pricesMap = [] ∨ length (Yahoo.dates (Yahoo.alignPriceData pricesMap)) < 20)
  | Route.AnalysisResponse portfolio timeseries =>
      20 ≤ length (Yahoo.dates (Yahoo.alignPriceData pricesMap)) ∧
      length (ts_dates timeseries)
      = length (Yahoo.dates (Yahoo.alignPriceData pricesMap)) - 1 ∧
      length (portfolioValues timeseries) = length (ts_dates timeseries) ∧
      length (drawdowns timeseries) = length (ts_dates timeseries) ∧
      numHoldings portfolio = length pricesMap
  end.
Proof. apply analyzePrices_cases. Qed.

Lemma analyzePrices_timeseries_aligned_witness :
  match Route.analyzePrices (λ _, "2024-01-02") {[ "AAPL" := 1%R ]}
          [ ("AAPL", (λ i, {| date := Z.of_nat i; adjClose := 100%R |}) <$> seq 0 20) ]
          10000%R with
  | Route.ErrorResponse status _ =>
      status = 400 ∧
      ([ ("AAPL", (λ i, {| date := Z.of_nat i; adjClose := 100%R |}) <$> seq 0 20) ]
       = [] ∨
       length (Yahoo.dates (Yahoo.alignPriceData
         [ ("AAPL", (λ i, {| date := Z.of_nat i; adjClose := 100%R |}) <$> seq 0 20) ]))
       < 20)
  | Route.AnalysisResponse portfolio timeseries =>
      20 ≤ length (Yahoo.dates (Yahoo.alignPriceData
         [ ("AAPL", (λ i, {| date := Z.of_nat i; adjClose := 100%R |}) <$> seq 0 20) ])) ∧
      length (ts_dates timeseries)
      = length (Yahoo.dates (Yahoo.alignPriceData
         [ ("AAPL", (λ i, {| date := Z.of_nat i; adjClose := 100%R |}) <$> seq 0 20) ]))
        - 1 ∧
      length (portfolioValues timeseries) = length (ts_dates timeseries) ∧
      length (drawdowns timeseries) = length (ts_dates timeseries) ∧
      numHoldings portfolio = 1
  end.
Proof.
  apply (analyzePrices_timeseries_aligned (λ _, "2024-01-02") {[ "AAPL" := 1%R ]}
    [ ("AAPL", (λ i, {| date := Z.of_nat i; adjClose := 100%R |}) <$> seq 0 20) ]).
  - unfold Yahoo.wf. apply NoDup_singleton.
  - intros t data point Hin Hpoint.
    apply list_elem_of_singleton in Hin. injection Hin as -> ->.
    repeat (apply elem_of_cons in Hpoint as [->|Hpoint]; [simpl; lra|]).
    by apply elem_of_nil in Hpoint.
Defined.

(** Twenty common dates are enough: the analysis is returned, with 19
    points in the time series. *)
Example analyzePrices_twenty_dates :
  match Route.analyzePrices (λ _, "2024-01-02") {[ "AAPL" := 1%R ]}
          [ ("AAPL", (λ i, {| date := Z.of_nat i; adjClose := 100%R |}) <$> seq 0 20) ]
          10000%R with
  | Route.ErrorResponse _ _ => False
  | Route.AnalysisResponse _ timeseries => length (ts_dates timeseries) = 19
  end.
Proof.
  unfold Route.analyzePrices. cbv zeta.
  assert (length (Yahoo.dates (Yahoo.alignPriceData
    [ ("AAPL", (λ i, {| date := Z.of_nat i; adjClose := 100%R |}) <$> seq 0 20) ])) = 20)
    as Hd by (vm_compute; reflexivity).
  rewrite decide_False by (simpl; lia).
  rewrite decide_False by (rewrite Hd; lia).
  cbv beta iota. unfold ts_dates. rewrite length_fmap, length_drop, Hd. done.
Qed.

(** ** The parser *)

Section parser.
Import Js Parser.
Local Open Scope R_scope.
Context (parseLine : string → LineOutcome).

Lemma findIndex_None (holdings : list ParsedHolding) (t : string) :
  findIndex holdings t = None ↔ t ∉ ticker <$> holdings.
Proof.
  induction holdings as [|h holdings IH]; simpl.
  - split; [intros _; apply not_elem_of_nil|done].
  - rewrite not_elem_of_cons. case_decide as Ht.
    + split; [done|]. intros [Hne _]. by destruct Hne.
    + destruct (findIndex holdings t) as [i|]; simpl.
      * split; [done|]. intros [_ Hnot]. by apply IH in Hnot.
      * split; [|done]. intros _. split; [done|]. by apply IH.
Qed.

Lemma findIndex_Some (holdings : list ParsedHolding) (t : string) (i : nat) :
  findIndex holdings t = Some i → ∃ h, holdings !! i = Some h ∧ ticker h = t.
Proof.
  revert i. induction holdings as [|h holdings IH]; intros i; simpl; [done|].
  case_decide as Ht.
  - intros [= <-]. by exists h.
  - destruct (findIndex holdings t) as [j|]; simpl; [|done].
    intros [= <-]. by apply IH.
Qed.

(** One turn of the loop of [collect]. *)
Lemma collect_snoc (lines : list string) (line : string) :
  collect parseLine (lines ++ [line])
  = match parseLine line with
    | Parsed parsed =>
        match findIndex (collect parseLine lines) parsed.(ticker) with
        | Some existingIdx =>
            <[existingIdx :=
                {| ticker := (collect parseLine lines !!! existingIdx).(ticker);
                   weight := (collect parseLine lines !!! existingIdx).(weight)
                             + parsed.(weight) |}]> (collect parseLine lines)
        | None => push (collect parseLine lines) parsed
        end
    | Blank => collect parseLine lines
    | Invalid => collect parseLine lines
    end.
Proof. unfold collect. by rewrite for_of_snoc. Qed.

Lemma collect_tickers_step (lines : list string) (line : string) :
  ticker <$> collect parseLine (lines ++ [line])
  = match parseLine line with
    | Parsed parsed =>
        if decide (parsed.(ticker) ∈ ticker <$> collect parseLine lines)
        then ticker <$> collect parseLine lines
        else (ticker <$> collect parseLine lines) ++ [parsed.(ticker)]
    | _ => ticker <$> collect parseLine lines
    end.
Proof.
  rewrite collect_snoc. destruct (parseLine line) as [parsed| |]; [|done..].
  destruct (findIndex (collect parseLine lines) (ticker parsed)) as [i|] eqn:Hfind.
  - destruct (findIndex_Some _ _ _ Hfind) as (h & Hh & Ht).
    rewrite decide_True
      by (apply list_elem_of_fmap; exists h; split; [done|];
          apply list_elem_of_lookup; eauto).
    rewrite list_fmap_insert. simpl.
    apply list_insert_id. rewrite list_lookup_fmap, Hh. simpl.
    by rewrite (list_lookup_total_correct _ _ _ Hh).
  - apply findIndex_None in Hfind. rewrite decide_False by done.
    unfold push. by rewrite fmap_app.
Qed.

Lemma collect_NoDup (lines : list string) :
  NoDup (ticker <$> collect parseLine lines).
Proof.
  induction lines as [|line lines IH] using rev_ind; [constructor|].
  rewrite collect_tickers_step. destruct (parseLine line); [|done..].
  case_decide; [done|]. apply NoDup_app. split; [done|]. split.
  - intros t Ht Hin. apply list_elem_of_singleton in Hin as ->. done.
  - apply NoDup_singleton.
Qed.

Lemma collect_tickers (lines : list string) (t : string) :
  t ∈ ticker <$> collect parseLine lines
  ↔ ∃ line h, line ∈ lines ∧ parseLine line = Parsed h ∧ ticker h = t.
Proof.
  induction lines as [|line lines IH] using rev_ind.
  - split; [intros Ht; by apply elem_of_nil in Ht|].
    intros (line & h & Hin & _). by apply elem_of_nil in Hin.
  - rewrite collect_tickers_step.
    assert ((∃ line' h, line' ∈ lines ++ [line] ∧ parseLine line' = Parsed h
                        ∧ ticker h = t)
            ↔ (t ∈ ticker <$> collect parseLine lines)
              ∨ ∃ h, parseLine line = Parsed h ∧ ticker h = t) as ->.
    { rewrite IH. split.
      - intros (line' & h & Hin & Hp & Ht).
        apply elem_of_app in Hin as [Hin|Hin]; [left; eauto|].
        apply list_elem_of_singleton in Hin as ->. right; eauto.
      - intros [(line' & h & Hin & Hp & Ht)|(h & Hp & Ht)].
        + exists line', h. split; [apply elem_of_app; by left|done].
        + exists line, h. split; [apply elem_of_app; right; by left|done]. }
    destruct (parseLine line) as [parsed| |].
    + case_decide as Hin.
      * split; [by left|]. intros [Ht|(h & [= <-] & <-)]; done.
      * rewrite elem_of_app, list_elem_of_singleton. split.
        -- intros [Ht | ->]; [by left|right; eauto].
        -- intros [Ht|(h & [= <-] & <-)]; [by left|by right].
    + split; [by left|]. by intros [Ht|(h & ? & _)].
    + split; [by left|]. by intros [Ht|(h & ? & _)].
Qed.

Lemma collect_nonneg (lines : list string) :
  (∀ line h, parseLine line = Parsed h → 0 <= weight h) →
  ∀ h, h ∈ collect parseLine lines → 0 <= weight h.
Proof.
  intros Hparse. induction lines as [|line lines IH] using rev_ind.
  - intros h Hh. by apply elem_of_nil in Hh.
  - rewrite collect_snoc. destruct (parseLine line) as [parsed| |] eqn:Hline; [|done..].
    pose proof (Hparse line parsed Hline) as Hw.
    destruct (findIndex (collect parseLine lines) (ticker parsed)) as [i|] eqn:Hfind.
    + destruct (findIndex_Some _ _ _ Hfind) as (h0 & Hh0 & _).
      rewrite (list_lookup_total_correct _ _ _ Hh0).
      intros h [j Hj]%list_elem_of_lookup.
      destruct (decide (j = i)) as [->|Hne].
      * rewrite list_lookup_insert_eq in Hj by (by eapply lookup_lt_Some).
        injection Hj as <-. simpl.
        assert (0 <= weight h0) by (apply IH, list_elem_of_lookup; eauto). lra.
      * rewrite list_lookup_insert_ne in Hj by done.
        apply IH, list_elem_of_lookup. eauto.
    + unfold push. intros h [Hh|Hh]%elem_of_app; [by apply IH|].
      apply list_elem_of_singleton in Hh as ->. done.
Qed.

Lemma totalWeight_sum (holdings : list ParsedHolding) :
  totalWeight holdings = Spec.Rsum (weight <$> holdings).
Proof. unfold totalWeight, Spec.Rsum. by rewrite foldl_fmap. Qed.

Lemma totalWeight_scaled (holdings : list ParsedHolding) (total : R) :
  total ≠ 0 → totalWeight holdings = total →
  totalWeight ((λ h, {| ticker := h.(ticker); weight := h.(weight) / total |})
               <$> holdings) = 1.
Proof.
  intros Hne Htotal. rewrite totalWeight_sum, <- list_fmap_compose.
  rewrite (Rsum_fmap_ext _ (λ h, / total * weight h))
    by (intros h _; simpl; unfold Rdiv; lra).
  rewrite Rsum_fmap_scal, <- totalWeight_sum, Htotal. by apply Rinv_l.
Qed.

Lemma totalWeight_equal (holdings : list ParsedHolding) :
  holdings ≠ [] →
  totalWeight ((λ h, {| ticker := h.(ticker);
                        weight := 1 / INR (length holdings) |}) <$> holdings) = 1.
Proof.
  intros Hne. rewrite totalWeight_sum, <- list_fmap_compose.
  rewrite (Rsum_fmap_ext _ (λ _, 1 / INR (length holdings))) by done.
  rewrite Rsum_fmap_const. field.
  apply not_0_INR. by destruct holdings.
Qed.

Lemma parseHoldingsLines_cases (lines : list string) :
  match parseHoldingsLines parseLine lines with
  | Holdings holdings =>
      holdings ≠ [] ∧
      ticker <$> holdings = ticker <$> collect parseLine lines ∧
      NoDup (ticker <$> holdings) ∧
      totalWeight holdings = 1 ∧
      ((∀ line h, parseLine line = Parsed h → 0 <= weight h) →
         ∀ h, h ∈ holdings → 0 <= weight h)
  | NoHoldingsProvided => lines = []
  | NoValidHoldings =>
      lines ≠ [] ∧ ∀ line h, line ∈ lines → parseLine line ≠ Parsed h
  | WeightsDoNotSum => False
  end.
Proof.
  unfold parseHoldingsLines. cbv zeta.
  case_decide as Hlines; [by destruct lines|].
  case_decide as Hnone.
  { split; [by intros ->|]. intros line h Hin Hp.
    assert (ticker h ∈ ticker <$> collect parseLine lines) as Hmem
      by (apply collect_tickers; eauto).
    destruct (collect parseLine lines); [by apply elem_of_nil in Hmem|done]. }
  assert (collect parseLine lines ≠ []) as Hne by (intros Hnil; by rewrite Hnil in Hnone).
  destruct (decide (totalWeight (collect parseLine lines) <= 0)) as [Htotal|Htotal].
  - rewrite totalWeight_equal by done.
    rewrite decide_False by (rewrite Rminus_diag, Rabs_R0; lra).
    split; [by destruct (collect parseLine lines)|].
    split; [by rewrite <- list_fmap_compose|].
    split; [rewrite <- list_fmap_compose; apply collect_NoDup|].
    split; [by apply totalWeight_equal|].
    intros _ h (h0 & -> & _)%list_elem_of_fmap. simpl.
    apply Rlt_le, Rdiv_lt_0_compat; [lra|].
    apply (lt_INR 0). destruct (collect parseLine lines); [done|simpl; lia].
  - assert (totalWeight (collect parseLine lines) ≠ 0) as Hnz by lra.
    rewrite totalWeight_scaled by done.
    rewrite decide_False by (rewrite Rminus_diag, Rabs_R0; lra).
    split; [by destruct (collect parseLine lines)|].
    split; [by rewrite <- list_fmap_compose|].
    split; [rewrite <- list_fmap_compose; apply collect_NoDup|].
    split; [by apply totalWeight_scaled|].
    intros Hparse h (h0 & -> & Hh0)%list_elem_of_fmap. simpl.
    pose proof (collect_nonneg lines Hparse h0 Hh0).
    apply Rmult_le_pos; [done|]. apply Rlt_le, Rinv_0_lt_compat. lra.
Qed.
End parser.



(** ** The sector allocations *)

Section sectors.
Import Js Route.
Local Open Scope R_scope.

(** The weight of the holdings of one sector. *)
Local Abbreviation sector_weight holdingsMetrics s :=
  (Spec.Rsum (hm_weight <$> filter (λ h, sector_or_unknown h = s) holdingsMetrics)).

Lemma sectorMap_get_set (sectorMap : list (string * R)) (s s' : string) (w : R) :
  sectorMap_get (sectorMap_set sectorMap s w) s'
  = if decide (s = s') then Some w else sectorMap_get sectorMap s'.
Proof.
  induction sectorMap as [|[k v] sectorMap IH]; simpl.
  - by repeat case_decide.
  - destruct (decide (k = s)) as [->|Hks]; simpl.
    + by repeat case_decide.
    + rewrite IH. repeat case_decide; congruence.
Qed.

Lemma sectorMap_get_None (sectorMap : list (string * R)) (s : string) :
  sectorMap_get sectorMap s = None ↔ s ∉ sectorMap.*1.
Proof.
  induction sectorMap as [|[k v] sectorMap IH]; simpl.
  - split; [intros _; apply not_elem_of_nil|done].
  - rewrite not_elem_of_cons. case_decide as Hk.
    + split; [done|]. intros [Hne _]. by destruct Hne.
    + rewrite IH. split; [by split|by intros [_ ?]].
Qed.

Lemma sectorMap_get_elem_of (sectorMap : list (string * R)) (s : string) (w : R) :
  NoDup sectorMap.*1 →
  (s, w) ∈ sectorMap ↔ sectorMap_get sectorMap s = Some w.
Proof.
  induction sectorMap as [|[k v] sectorMap IH]; simpl; intros Hnd.
  - split; [intros Hin; by apply elem_of_nil in Hin|done].
  - apply NoDup_cons in Hnd as [Hk Hnd]. rewrite elem_of_cons.
    case_decide as Hks.
    + subst k. split.
      * intros [Heq|Hin]; [by simplify_eq|]. destruct Hk.
        apply list_elem_of_fmap. by exists (s, w).
      * intros [= ->]. by left.
    + rewrite <- (IH Hnd). split; [|by right].
      intros [Heq|Hin]; [by simplify_eq|done].
Qed.

Lemma sectorMap_set_keys (sectorMap : list (string * R)) (s : string) (w : R) :
  (sectorMap_set sectorMap s w).*1
  = if decide (s ∈ sectorMap.*1) then sectorMap.*1 else sectorMap.*1 ++ [s].
Proof.
  induction sectorMap as [|[k v] sectorMap IH].
  - destruct (decide (s ∈ ([] : list (string * R)).*1)) as [Hin|_]; [|done].
    by apply elem_of_nil in Hin.
  - cbn [sectorMap_set]. rewrite fmap_cons. cbn [fst].
    destruct (decide (k = s)) as [->|Hks].
    + rewrite fmap_cons. cbn [fst]. rewrite decide_True; [done|left].
    + rewrite fmap_cons, IH. cbn [fst].
      destruct (decide (s ∈ sectorMap.*1)) as [Hin|Hin].
      * rewrite decide_True; [done|by right].
      * rewrite decide_False; [done|].
        apply not_elem_of_cons. split; [done|done].
Qed.

Lemma sectorMap_set_sum (sectorMap : list (string * R)) (s : string) (w : R) :
  Spec.Rsum (sectorMap_set sectorMap s w).*2
  = Spec.Rsum sectorMap.*2 - default 0 (sectorMap_get sectorMap s) + w.
Proof.
  induction sectorMap as [|[k v] sectorMap IH].
  - cbn [sectorMap_set sectorMap_get]. rewrite fmap_cons, Rsum_cons. simpl.
    rewrite Rsum_nil. lra.
  - cbn [sectorMap_set sectorMap_get].
    destruct (decide (k = s)) as [->|Hks].
    + rewrite !fmap_cons, !Rsum_cons. simpl. lra.
    + rewrite !fmap_cons, !Rsum_cons, IH. simpl. lra.
Qed.

Lemma sectorMap_of_snoc (holdingsMetrics : list HoldingMetric) (holding : HoldingMetric) :
  sectorMap_of (holdingsMetrics ++ [holding])
  = sectorMap_set (sectorMap_of holdingsMetrics) (sector_or_unknown holding)
      (default 0 (sectorMap_get (sectorMap_of holdingsMetrics) (sector_or_unknown holding))
       + hm_weight holding).
Proof. unfold sectorMap_of. by rewrite for_of_snoc. Qed.

Lemma sector_weight_snoc (holdingsMetrics : list HoldingMetric) (holding : HoldingMetric)
    (s : string) :
  sector_weight (holdingsMetrics ++ [holding]) s
  = sector_weight holdingsMetrics s
    + (if decide (sector_or_unknown holding = s) then hm_weight holding else 0).
Proof.
  rewrite filter_app, fmap_app, Rsum_app. f_equal.
  rewrite filter_cons, filter_nil. case_decide; simpl.
  - rewrite Rsum_cons, Rsum_nil. lra.
  - apply Rsum_nil.
Qed.

Lemma sector_weight_absent (holdingsMetrics : list HoldingMetric) (s : string) :
  s ∉ sector_or_unknown <$> holdingsMetrics → sector_weight holdingsMetrics s = 0.
Proof.
  intros Hnot.
  assert (filter (λ h, sector_or_unknown h = s) holdingsMetrics = []) as ->; [|done].
  induction holdingsMetrics as [|h holdingsMetrics IH]; [done|].
  rewrite fmap_cons in Hnot. apply not_elem_of_cons in Hnot as [Hne Hnot].
  rewrite filter_cons, decide_False by done. by apply IH.
Qed.

(** The map after the loop: one entry for each sector that occurs,
    holding the weight of the holdings of that sector. *)
Lemma sectorMap_of_get (holdingsMetrics : list HoldingMetric) (s : string) :
  sectorMap_get (sectorMap_of holdingsMetrics) s
  = if decide (s ∈ sector_or_unknown <$> holdingsMetrics)
    then Some (sector_weight holdingsMetrics s)
    else None.
Proof.
  induction holdingsMetrics as [|holding holdingsMetrics IH] using rev_ind.
  - rewrite decide_False; [done|apply not_elem_of_nil].
  - rewrite sectorMap_of_snoc, sectorMap_get_set, sector_weight_snoc, fmap_app.
    destruct (decide (sector_or_unknown holding = s)) as [<-|Hne].
    + rewrite decide_True by (apply elem_of_app; right; left).
      f_equal. rewrite IH. case_decide as Hin; simpl; [lra|].
      rewrite sector_weight_absent by done. lra.
    + rewrite IH, Rplus_0_r.
      destruct (decide (s ∈ sector_or_unknown <$> holdingsMetrics)) as [Hin|Hin].
      * rewrite decide_True; [done|]. apply elem_of_app. by left.
      * rewrite decide_False; [done|]. intros [Hin'|Hin']%elem_of_app; [done|].
        apply list_elem_of_singleton in Hin'. done.
Qed.

Lemma sectorMap_of_NoDup (holdingsMetrics : list HoldingMetric) :
  NoDup (sectorMap_of holdingsMetrics).*1.
Proof.
  induction holdingsMetrics as [|holding holdingsMetrics IH] using rev_ind; [constructor|].
  rewrite sectorMap_of_snoc, sectorMap_set_keys. case_decide as Hin; [done|].
  apply NoDup_app. split; [done|]. split; [|apply NoDup_singleton].
  intros s Hs Hs'. apply list_elem_of_singleton in Hs' as ->. done.
Qed.

Lemma sectorMap_of_sum (holdingsMetrics : list HoldingMetric) :
  Spec.Rsum (sectorMap_of holdingsMetrics).*2 = Spec.Rsum (hm_weight <$> holdingsMetrics).
Proof.
  induction holdingsMetrics as [|holding holdingsMetrics IH] using rev_ind; [done|].
  rewrite sectorMap_of_snoc, sectorMap_set_sum, fmap_app, Rsum_app, IH.
  change (hm_weight <$> [holding]) with [hm_weight holding].
  rewrite Rsum_cons, Rsum_nil. lra.
Qed.

Lemma by_weight_descending_trans : Transitive by_weight_descending.
Proof. unfold by_weight_descending. intros a b c ??. lra. Qed.

Lemma by_weight_descending_total : Total by_weight_descending.
Proof.
  unfold by_weight_descending. intros a b.
  destruct (Rle_dec (sa_weight a) (sa_weight b)); [right|left]; lra.
Qed.

Lemma sectors_of_Permutation (holdingsMetrics : list HoldingMetric) :
  sectors_of holdingsMetrics
  ≡ₚ (λ entry, {| sector := entry.1; sa_weight := entry.2 |})
       <$> sectorMap_of holdingsMetrics.
Proof. apply merge_sort_Permutation. Qed.

Lemma sectors_of_allocations (holdingsMetrics : list HoldingMetric) :
  NoDup (sector <$> sectors_of holdingsMetrics) ∧
  (∀ a, a ∈ sectors_of holdingsMetrics
        ↔ (sector a ∈ sector_or_unknown <$> holdingsMetrics
           ∧ sa_weight a = sector_weight holdingsMetrics (sector a))) ∧
  StronglySorted by_weight_descending (sectors_of holdingsMetrics) ∧
  Spec.Rsum (sa_weight <$> sectors_of holdingsMetrics)
  = Spec.Rsum (hm_weight <$> holdingsMetrics).
Proof.
  pose proof (sectors_of_Permutation holdingsMetrics) as Hperm.
  split; [|split; [|split]].
  - rewrite Hperm, <- list_fmap_compose. apply sectorMap_of_NoDup.
  - intros [s w]. rewrite Hperm. simpl.
    assert ({| sector := s; sa_weight := w |}
              ∈ (λ entry : string * R, {| sector := entry.1; sa_weight := entry.2 |})
                  <$> sectorMap_of holdingsMetrics
            ↔ (s, w) ∈ sectorMap_of holdingsMetrics) as ->.
    { rewrite list_elem_of_fmap. split.
      - intros ([k v] & [= -> ->] & Hin). done.
      - intros Hin. by exists (s, w). }
    rewrite (sectorMap_get_elem_of _ _ _ (sectorMap_of_NoDup holdingsMetrics)).
    rewrite sectorMap_of_get. case_decide as Hin.
    + split; [by intros [= ->]|]. by intros [_ ->].
    + split; [done|]. by intros [? _].
  - apply (@StronglySorted_merge_sort _ by_weight_descending _
             by_weight_descending_trans by_weight_descending_total).
  - rewrite (Rsum_Permutation _ _ (fmap_Permutation sa_weight _ _ Hperm)).
    rewrite <- list_fmap_compose. apply sectorMap_of_sum.
Qed.

Lemma holdingsMetrics_of_weights validTickers adjustedWeights metadataMap
    assetAnnualReturns assetAnnualVols :
  hm_weight <$> holdingsMetrics_of validTickers adjustedWeights metadataMap
                  assetAnnualReturns assetAnnualVols
  = (λ t, default 0 (adjustedWeights !! t)) <$> validTickers.
Proof.
  unfold holdingsMetrics_of. rewrite fmap_imap.
  assert (∀ (f : nat → string → R) g, (∀ i t, f i t = g t) →
            imap f validTickers = g <$> validTickers) as Himap.
  { intros f g Hfg. revert f Hfg.
    induction validTickers as [|t ts IH]; intros f Hfg; [done|].
    simpl. rewrite Hfg. f_equal. apply IH. intros i t'. apply Hfg. }
  by apply Himap.
Qed.
End sectors.

(** X21.  Step 12 of the route.  The sector list has every sector once;
    an allocation is in it exactly when its sector is the sector of
    some holding (["Unknown"] standing for a missing or empty one) and
    its weight is the sum of the weights of the holdings of that sector;
    the list is in descending order of weight, and its weights add up
    to the weights of the holdings. *)
Theorem sectors_of_groups_holdings (holdingsMetrics : list HoldingMetric) :
  NoDup (sector <$> Route.sectors_of holdingsMetrics) ∧
  (∀ a, a ∈ Route.sectors_of holdingsMetrics
        ↔ (sector a ∈ Route.sector_or_unknown <$> holdingsMetrics
           ∧ sa_weight a
             = Spec.Rsum (hm_weight <$> filter (λ h, Route.sector_or_unknown h = sector a)
                                          holdingsMetrics))) ∧
  StronglySorted (λ a b, (sa_weight a >= sa_weight b)%R)
    (Route.sectors_of holdingsMetrics) ∧
  Spec.Rsum (sa_weight <$> Route.sectors_of holdingsMetrics)
  = Spec.Rsum (hm_weight <$> holdingsMetrics).
Proof. apply sectors_of_allocations. Qed.

(** X22.  Steps 11 and 12 after the weights have been recalculated:
    when the weights of the valid tickers do not add up to 0, the
    weights of the holdings of the response add up to 1, and so do the
    weights of its sector allocations. *)
Theorem response_weights_sum_to_one
    (weightsMap : gmap string R) (validTickers : list string)
    (metadataMap : gmap string QuoteSummary) (assetAnnualReturns assetAnnualVols : list R) :
  let holdingsMetrics :=
    Route.holdingsMetrics_of validTickers
      (Route.adjustedWeights_of weightsMap validTickers)
      metadataMap assetAnnualReturns assetAnnualVols in
  Spec.Rsum ((λ t, default 0%R (weightsMap !! t)) <$> validTickers) ≠ 0%R →
  Spec.Rsum (hm_weight <$> holdingsMetrics) = 1%R ∧
  Spec.Rsum (sa_weight <$> Route.sectors_of holdingsMetrics) = 1%R.
Proof.
  intros holdingsMetrics Htotal.
  assert (Spec.Rsum (hm_weight <$> holdingsMetrics) = 1%R) as Hsum.
  { unfold holdingsMetrics. rewrite holdingsMetrics_of_weights.
    by apply adjusted_weights_sum. }
  split; [done|].
  destruct (sectors_of_allocations holdingsMetrics) as (_ & _ & _ & ->). done.
Qed.

Lemma response_weights_sum_to_one_witness :
  let holdingsMetrics :=
    Route.holdingsMetrics_of ["AAPL"; "MSFT"]
      (Route.adjustedWeights_of
         {[ "AAPL" := 0.3%R; "MSFT" := 0.2%R; "VOO" := 0.5%R ]} ["AAPL"; "MSFT"])
      {[ "AAPL" := {| qs_ticker := "AAPL"; qs_name := Some "Apple Inc.";
                       qs_sector := Some "Technology";
                       qs_industry := Some "Consumer Electronics" |} ]}
      [0.1%R; 0.2%R] [0.3%R; 0.25%R] in
  Spec.Rsum (hm_weight <$> holdingsMetrics) = 1%R ∧
  Spec.Rsum (sa_weight <$> Route.sectors_of holdingsMetrics) = 1%R.
Proof.
  apply (response_weights_sum_to_one
           {[ "AAPL" := 0.3%R; "MSFT" := 0.2%R; "VOO" := 0.5%R ]} ["AAPL"; "MSFT"]).
  assert (Spec.Rsum ((λ t, default 0%R
            (({[ "AAPL" := 0.3%R; "MSFT" := 0.2%R; "VOO" := 0.5%R ]}
              : gmap string R) !! t)) <$> ["AAPL"; "MSFT"]) = 0.5%R) as ->.
  { unfold Spec.Rsum.
    change (foldl Rplus 0%R [0.3%R; 0.2%R] = 0.5%R). simpl. lra. }
  lra.
Defined.
